(** * muses: a virtual mixing console (src/index.ts)

    A shallow embedding of the three classes of the library, [AudioMixer],
    [AudioChannel] and [AudioTrack], together with the browser services
    they rely on: interval timers, promises, audio elements and the
    parameters of the Web Audio nodes.

    JavaScript objects live in a heap and are named by references, so that
    aliasing (a channel reachable from its mixer and from the caller, a track
    listed by several channels, an element handed to two tracks) is modelled
    as in the source.  Methods are computations in a state-and-exception
    monad over that heap.

    A JavaScript [number] is a binary64 value: a rational, an infinity or
    NaN, and every arithmetic operation rounds its exact result to
    binary64, to nearest with ties to even.  The value of an [AudioParam]
    is a binary32 value: assigning to it converts the number as WebIDL
    converts to [float] and clamps it to the nominal range of the
    parameter.  The two zeros are one value here: the comparisons of the
    source, [===] included, do not tell them apart.  Of the audio graph only
    the connections of a track's source node are kept, and every node is
    taken to belong to one context; the fixed chain inside a channel plays
    no part in what is proved here.  Time is the clock of the event loop,
    in milliseconds, with every timer served at its nominal delay. *)

From Stdlib Require Import QArith Qround Qabs Qpower Lqa ZArith String Ascii.
From Stdlib Require Import DecimalString DecimalNat DecimalFacts.
From stdpp Require Import base tactics option list.

Local Open Scope string_scope.
Local Open Scope list_scope.

(** ** Numbers *)

(** *** Rounding *)

(** A binary floating-point format: [prec] significant bits, the least
    power of two [2 ^ emin] it can tell apart, and the power [2 ^ emax] its
    finite values stay below. *)
Record format : Type := { prec : Z; emin : Z; emax : Z }.

Definition binary32 : format := {| prec := 24; emin := -149; emax := 128 |}.

Definition binary64 : format := {| prec := 53; emin := -1074; emax := 1024 |}.

(** The binade of a number: the [k] with [2 ^ k <= |x| < 2 ^ (k + 1)],
    for [x] other than zero. *)
Definition ilog2 (x : Q) : Z :=
  let k := (Z.log2 (Z.abs (Qnum x)) - Z.log2 (Z.pos (Qden x)))%Z in
  if Qle_bool (2 ^ k)%Q (Qabs x) then k else (k - 1)%Z.

(** The exponent of the spacing of the format around [x]. *)
Definition spacing (f : format) (x : Q) : Z :=
  Z.max (ilog2 x - prec f + 1) (emin f).

(** The nearest integer, the even one of two that are equally near. *)
Definition rne (x : Q) : Z :=
  let n := Qfloor x in
  match (x - inject_Z n ?= 1 # 2)%Q with
  | Lt => n
  | Gt => (n + 1)%Z
  | Eq => if Z.even n then n else (n + 1)%Z
  end.

(** Rounding to nearest, ties to even, with gradual underflow and without
    a bound on the exponent; the answer is in lowest terms. *)
Definition round (f : format) (x : Q) : Q :=
  let e := spacing f x in
  Qred (inject_Z (rne (x / 2 ^ e)) * 2 ^ e)%Q.

(** A rounded number the format has no finite value for. *)
Definition overflows (f : format) (r : Q) : bool :=
  Qle_bool (2 ^ emax f)%Q (Qabs r).

(** *** The numbers of JavaScript *)

(** The binary64 values.  [Fin q] is finite, for [q] one of the rationals
    binary64 has ([is_double]); the two zeros are [Fin 0].  What is proved
    of [Fin q] for every rational [q] holds of those. *)
Inductive number : Type :=
| Fin (q : Q)
| PInf
| NInf
| NaN.

Definition is_double (x : Q) : bool :=
  Qeq_bool (round binary64 x) x && negb (overflows binary64 x).

(** The binary64 value of the exact result [z] of an operation. *)
Definition finite (z : Q) : number :=
  let r := round binary64 z in
  if overflows binary64 r then (if Qle_bool 0 z then PInf else NInf)
  else Fin r.

(** A decimal literal, of the source or of its caller: the binary64 value
    nearest to what is written. *)
Definition literal (q : Q) : number := finite q.

(** Sign test used where IEEE looks at the sign of a finite operand;
    zero counts as [+0]. *)
Definition nonneg (q : Q) : bool := Qle_bool 0 q.

Definition nneg (a : number) : number :=
  match a with
  | Fin x => Fin (- x)
  | PInf => NInf
  | NInf => PInf
  | NaN => NaN
  end.

(** [a / b] *)
Definition ndiv (a b : number) : number :=
  match a, b with
  | Fin x, Fin y =>
      if Qeq_bool y 0
      then (if Qeq_bool x 0 then NaN else if nonneg x then PInf else NInf)
      else finite (x / y)
  | Fin _, PInf | Fin _, NInf => Fin 0
  | PInf, Fin y => if nonneg y then PInf else NInf
  | NInf, Fin y => if nonneg y then NInf else PInf
  | _, _ => NaN
  end.

(** [a * b] *)
Definition nmul (a b : number) : number :=
  match a, b with
  | Fin x, Fin y => finite (x * y)
  | Fin x, PInf | PInf, Fin x =>
      if Qeq_bool x 0 then NaN else if nonneg x then PInf else NInf
  | Fin x, NInf | NInf, Fin x =>
      if Qeq_bool x 0 then NaN else if nonneg x then NInf else PInf
  | PInf, PInf | NInf, NInf => PInf
  | PInf, NInf | NInf, PInf => NInf
  | _, _ => NaN
  end.

(** [a + b] *)
Definition nadd (a b : number) : number :=
  match a, b with
  | Fin x, Fin y => finite (x + y)
  | Fin _, PInf | PInf, Fin _ | PInf, PInf => PInf
  | Fin _, NInf | NInf, Fin _ | NInf, NInf => NInf
  | _, _ => NaN
  end.

(** [a - b] *)
Definition nsub (a b : number) : number := nadd a (nneg b).

(** The conversion of a number to the WebIDL type [float]: the nearest
    binary32 value, and no value ([None], a TypeError) for NaN, for an
    infinity and for a number that rounds beyond the binary32 range. *)
Definition to_float (v : number) : option Q :=
  match v with
  | Fin q =>
      let r := round binary32 q in
      if overflows binary32 r then None else Some r
  | _ => None
  end.

(** The binary32 values, as the numbers the conversion leaves alone. *)
Definition is_float (x : Q) : bool :=
  Qeq_bool (round binary32 x) x && negb (overflows binary32 x).

Arguments round : simpl never.
Arguments overflows : simpl never.
Arguments finite : simpl never.
Arguments ndiv : simpl never.
Arguments nmul : simpl never.
Arguments nadd : simpl never.
Arguments nsub : simpl never.
Arguments to_float : simpl never.
Arguments is_float : simpl never.
Arguments is_double : simpl never.
Arguments literal : simpl never.

(** [Number.prototype.toString] on an array length. *)
Definition toString (n : nat) : string :=
  NilZero.string_of_uint (Nat.to_uint n).

(** ** Values of the Web Audio API *)

(** An [AudioParam]: the engine keeps one binary32 value. *)
Record AudioParam : Type := { value : Q }.

(** The nominal range of a parameter.  A bound that is the least or the
    greatest binary32 value is [None]: the conversion to [float] enforces
    it already. *)
Record nominal : Type := { minValue : option Q; maxValue : option Q }.

(** [GainNode.gain] *)
Definition gain_range : nominal := {| minValue := None; maxValue := None |}.

(** [StereoPannerNode.pan] *)
Definition pan_range : nominal :=
  {| minValue := Some (-1)%Q; maxValue := Some 1%Q |}.

(** [BiquadFilterNode.gain]: up to 40 log10 of the greatest binary32 value,
    1541.273681640625 as engines compute it in binary32. *)
Definition eq_gain_range : nominal :=
  {| minValue := None; maxValue := Some (6313057 # 4096)%Q |}.

Definition clamp (r : nominal) (q : Q) : Q :=
  let q :=
    match maxValue r with
    | Some hi => if Qle_bool hi q then hi else q
    | None => q
    end in
  match minValue r with
  | Some lo => if Qle_bool q lo then lo else q
  | None => q
  end.

Record GainNode : Type := { gain : AudioParam }.

Record StereoPannerNode : Type := { pan : AudioParam }.

Inductive BiquadFilterType : Type := lowshelf | peaking | highshelf.

Record BiquadFilterNode : Type :=
  { type : BiquadFilterType; Q_ : AudioParam; eq_gain : AudioParam }.

(** An audio element.  [el_source] tells whether a
    [MediaElementAudioSourceNode] was made from it. *)
Record HTMLAudioElement : Type :=
  { src : string; controls : bool; el_volume : Q; el_loaded : bool;
    el_source : bool }.

(** An audio context: the one the audio-context package makes and keeps, or
    one the caller made. *)
Inductive audio_context : Type :=
| Cached
| Custom (c : nat).

(** References into the heap (object identities). *)
Abbreviation ref := nat (only parsing).

(** A [MediaElementAudioSourceNode]: the only node whose outgoing
    connections the claims talk about.  A connection names the channel whose
    [inputNode] receives the signal. *)
Record MediaElementAudioSourceNode : Type := { outputs : list ref }.

(** ** The three classes *)

Record AudioMixer : Type :=
  { ctx : audio_context;
    channels : list ref;
    mixer_gainNode : GainNode }.

Record AudioChannel : Type :=
  { inputNode : GainNode;
    outputNode : GainNode;
    tracks : list ref;
    gainNode : GainNode;
    LowEQNode : BiquadFilterNode;
    MidEQNode : BiquadFilterNode;
    HighEQNode : BiquadFilterNode;
    stereoPannerNode : StereoPannerNode;
    mixer : ref;
    id : string }.

Record AudioTrack : Type :=
  { audioElement : ref;
    sourceNode : MediaElementAudioSourceNode }.

(** ** Timers and promises *)

(** The state of a promise; [res] is the only settle function the source
    ever calls. *)
Inductive promise : Type :=
| Pending
| Fulfilled (v : bool)
| Rejected.

(** The two closures handed to [setInterval], with the variables they
    capture: [channel], [vpc] and the promise behind [res].  The handle [int]
    they also capture is the interval's own handle; the event loop supplies
    it when it runs the closure. *)
Inductive callback : Type :=
| FadeOutTick (channel : ref) (vpc : number) (res : ref)
| FadeInTick (channel : ref) (vpc : number) (res : ref).

Record interval : Type :=
  { handler : callback;
    delay : Z;
    due : Z;
    cleared : bool }.

(** ** The heap *)

(** [h_contexts] counts the contexts the audio-context package has made. *)
Record heap : Type :=
  { h_contexts : nat;
    h_elements : list HTMLAudioElement;
    h_mixers : list AudioMixer;
    h_channels : list AudioChannel;
    h_tracks : list AudioTrack;
    h_intervals : list interval;
    h_promises : list promise;
    h_now : Z }.

Definition empty_heap : heap :=
  {| h_contexts := 0;
     h_elements := [];
     h_mixers := [];
     h_channels := [];
     h_tracks := [];
     h_intervals := [];
     h_promises := [];
     h_now := 0 |}.

Definition with_contexts (n : nat) (h : heap) : heap :=
  {| h_contexts := n;
     h_elements := h_elements h;
     h_mixers := h_mixers h;
     h_channels := h_channels h;
     h_tracks := h_tracks h;
     h_intervals := h_intervals h;
     h_promises := h_promises h;
     h_now := h_now h |}.

Definition with_elements (l : list HTMLAudioElement) (h : heap) : heap :=
  {| h_contexts := h_contexts h;
     h_elements := l;
     h_mixers := h_mixers h;
     h_channels := h_channels h;
     h_tracks := h_tracks h;
     h_intervals := h_intervals h;
     h_promises := h_promises h;
     h_now := h_now h |}.

Definition with_mixers (l : list AudioMixer) (h : heap) : heap :=
  {| h_contexts := h_contexts h;
     h_elements := h_elements h;
     h_mixers := l;
     h_channels := h_channels h;
     h_tracks := h_tracks h;
     h_intervals := h_intervals h;
     h_promises := h_promises h;
     h_now := h_now h |}.

Definition with_channels (l : list AudioChannel) (h : heap) : heap :=
  {| h_contexts := h_contexts h;
     h_elements := h_elements h;
     h_mixers := h_mixers h;
     h_channels := l;
     h_tracks := h_tracks h;
     h_intervals := h_intervals h;
     h_promises := h_promises h;
     h_now := h_now h |}.

Definition with_tracks (l : list AudioTrack) (h : heap) : heap :=
  {| h_contexts := h_contexts h;
     h_elements := h_elements h;
     h_mixers := h_mixers h;
     h_channels := h_channels h;
     h_tracks := l;
     h_intervals := h_intervals h;
     h_promises := h_promises h;
     h_now := h_now h |}.

Definition with_intervals (l : list interval) (h : heap) : heap :=
  {| h_contexts := h_contexts h;
     h_elements := h_elements h;
     h_mixers := h_mixers h;
     h_channels := h_channels h;
     h_tracks := h_tracks h;
     h_intervals := l;
     h_promises := h_promises h;
     h_now := h_now h |}.

Definition with_promises (l : list promise) (h : heap) : heap :=
  {| h_contexts := h_contexts h;
     h_elements := h_elements h;
     h_mixers := h_mixers h;
     h_channels := h_channels h;
     h_tracks := h_tracks h;
     h_intervals := h_intervals h;
     h_promises := l;
     h_now := h_now h |}.

Definition with_now (t : Z) (h : heap) : heap :=
  {| h_contexts := h_contexts h;
     h_elements := h_elements h;
     h_mixers := h_mixers h;
     h_channels := h_channels h;
     h_tracks := h_tracks h;
     h_intervals := h_intervals h;
     h_promises := h_promises h;
     h_now := t |}.

(** ** The monad of methods *)

(** [TypeError] is what assigning a number that is no [float] to
    [AudioParam.value] throws, [InvalidStateError] what
    [createMediaElementSource] throws for an element that has a source node
    already.  [BadRef] marks the use of a reference that was never
    allocated; no reference returned by a constructor is one. *)
Inductive exn : Type := TypeError | InvalidStateError | BadRef.

Inductive completion (A : Type) : Type :=
| Normal (a : A)
| Throw (e : exn).
Arguments Normal {A} a.
Arguments Throw {A} e.

Definition M (A : Type) : Type := heap -> completion A * heap.

Definition ret {A} (a : A) : M A := fun h => (Normal a, h).

Definition throw {A} (e : exn) : M A := fun h => (Throw e, h).

Definition bind {A B} (m : M A) (k : A -> M B) : M B :=
  fun h =>
    match m h with
    | (Normal a, h') => k a h'
    | (Throw e, h') => (Throw e, h')
    end.

Notation "'let*' x ':=' m 'in' k" := (bind m (fun x => k))
  (at level 10, x name, m at level 100, k at level 200, only parsing).
Notation "m ';;' k" := (bind m (fun _ => k))
  (at level 100, k at level 200, right associativity, only parsing).

Definition gets {A} (f : heap -> A) : M A := fun h => (Normal (f h), h).

Definition modify (f : heap -> heap) : M unit := fun h => (Normal tt, f h).

(** Dereference: [sel] picks the object store. *)
Definition deref {A} (sel : heap -> list A) (r : ref) : M A :=
  fun h =>
    match sel h !! r with
    | Some a => (Normal a, h)
    | None => (Throw BadRef, h)
    end.

(** The heap after a computation, and its completion. *)
Definition exec {A} (m : M A) (h : heap) : heap := snd (m h).
Definition eval {A} (m : M A) (h : heap) : completion A := fst (m h).

(** ** Heap primitives *)

(** Allocation appends to the store; the new reference is the old length. *)
Definition alloc_element (e : HTMLAudioElement) : M ref :=
  fun h =>
    (Normal (length (h_elements h)), with_elements (h_elements h ++ [e]) h).

Definition alloc_mixer (m : AudioMixer) : M ref :=
  fun h => (Normal (length (h_mixers h)), with_mixers (h_mixers h ++ [m]) h).

Definition alloc_channel (c : AudioChannel) : M ref :=
  fun h =>
    (Normal (length (h_channels h)), with_channels (h_channels h ++ [c]) h).

Definition alloc_track (t : AudioTrack) : M ref :=
  fun h => (Normal (length (h_tracks h)), with_tracks (h_tracks h ++ [t]) h).

Definition update_element (r : ref)
    (f : HTMLAudioElement -> HTMLAudioElement) : M unit :=
  let* e := deref h_elements r in
  modify (fun h => with_elements (<[r := f e]> (h_elements h)) h).

Definition update_mixer (r : ref) (f : AudioMixer -> AudioMixer) : M unit :=
  let* m := deref h_mixers r in
  modify (fun h => with_mixers (<[r := f m]> (h_mixers h)) h).

Definition update_channel (r : ref) (f : AudioChannel -> AudioChannel)
  : M unit :=
  let* c := deref h_channels r in
  modify (fun h => with_channels (<[r := f c]> (h_channels h)) h).

Definition update_track (r : ref) (f : AudioTrack -> AudioTrack) : M unit :=
  let* t := deref h_tracks r in
  modify (fun h => with_tracks (<[r := f t]> (h_tracks h)) h).

(** Field updates of the records. *)
Definition set_el_source (b : bool) (e : HTMLAudioElement)
  : HTMLAudioElement :=
  {| src := src e; controls := controls e; el_volume := el_volume e;
     el_loaded := el_loaded e; el_source := b |}.

Definition set_channels (l : list ref) (m : AudioMixer) : AudioMixer :=
  {| ctx := ctx m; channels := l; mixer_gainNode := mixer_gainNode m |}.

Definition set_mixer_gainNode (g : GainNode) (m : AudioMixer) : AudioMixer :=
  {| ctx := ctx m; channels := channels m; mixer_gainNode := g |}.

Definition set_inputNode (g : GainNode) (c : AudioChannel) : AudioChannel :=
  {| inputNode := g; outputNode := outputNode c; tracks := tracks c;
     gainNode := gainNode c; LowEQNode := LowEQNode c;
     MidEQNode := MidEQNode c; HighEQNode := HighEQNode c;
     stereoPannerNode := stereoPannerNode c; mixer := mixer c; id := id c |}.

Definition set_outputNode (g : GainNode) (c : AudioChannel) : AudioChannel :=
  {| inputNode := inputNode c; outputNode := g; tracks := tracks c;
     gainNode := gainNode c; LowEQNode := LowEQNode c;
     MidEQNode := MidEQNode c; HighEQNode := HighEQNode c;
     stereoPannerNode := stereoPannerNode c; mixer := mixer c; id := id c |}.

Definition set_tracks (l : list ref) (c : AudioChannel) : AudioChannel :=
  {| inputNode := inputNode c; outputNode := outputNode c; tracks := l;
     gainNode := gainNode c; LowEQNode := LowEQNode c;
     MidEQNode := MidEQNode c; HighEQNode := HighEQNode c;
     stereoPannerNode := stereoPannerNode c; mixer := mixer c; id := id c |}.

Definition set_gainNode (g : GainNode) (c : AudioChannel) : AudioChannel :=
  {| inputNode := inputNode c; outputNode := outputNode c; tracks := tracks c;
     gainNode := g; LowEQNode := LowEQNode c;
     MidEQNode := MidEQNode c; HighEQNode := HighEQNode c;
     stereoPannerNode := stereoPannerNode c; mixer := mixer c; id := id c |}.

Definition set_LowEQNode (n : BiquadFilterNode) (c : AudioChannel)
  : AudioChannel :=
  {| inputNode := inputNode c; outputNode := outputNode c; tracks := tracks c;
     gainNode := gainNode c; LowEQNode := n;
     MidEQNode := MidEQNode c; HighEQNode := HighEQNode c;
     stereoPannerNode := stereoPannerNode c; mixer := mixer c; id := id c |}.

Definition set_MidEQNode (n : BiquadFilterNode) (c : AudioChannel)
  : AudioChannel :=
  {| inputNode := inputNode c; outputNode := outputNode c; tracks := tracks c;
     gainNode := gainNode c; LowEQNode := LowEQNode c;
     MidEQNode := n; HighEQNode := HighEQNode c;
     stereoPannerNode := stereoPannerNode c; mixer := mixer c; id := id c |}.

Definition set_HighEQNode (n : BiquadFilterNode) (c : AudioChannel)
  : AudioChannel :=
  {| inputNode := inputNode c; outputNode := outputNode c; tracks := tracks c;
     gainNode := gainNode c; LowEQNode := LowEQNode c;
     MidEQNode := MidEQNode c; HighEQNode := n;
     stereoPannerNode := stereoPannerNode c; mixer := mixer c; id := id c |}.

Definition set_stereoPannerNode (n : StereoPannerNode) (c : AudioChannel)
  : AudioChannel :=
  {| inputNode := inputNode c; outputNode := outputNode c; tracks := tracks c;
     gainNode := gainNode c; LowEQNode := LowEQNode c;
     MidEQNode := MidEQNode c; HighEQNode := HighEQNode c;
     stereoPannerNode := n; mixer := mixer c; id := id c |}.

Definition set_id (s : string) (c : AudioChannel) : AudioChannel :=
  {| inputNode := inputNode c; outputNode := outputNode c; tracks := tracks c;
     gainNode := gainNode c; LowEQNode := LowEQNode c;
     MidEQNode := MidEQNode c; HighEQNode := HighEQNode c;
     stereoPannerNode := stereoPannerNode c; mixer := mixer c; id := s |}.

Definition set_sourceNode (n : MediaElementAudioSourceNode) (t : AudioTrack)
  : AudioTrack :=
  {| audioElement := audioElement t; sourceNode := n |}.

Definition set_eq_gain (p : AudioParam) (n : BiquadFilterNode)
  : BiquadFilterNode :=
  {| type := type n; Q_ := Q_ n; eq_gain := p |}.

(** ** Language and engine primitives *)

(** Assigning [v] to the [value] of a parameter of nominal range [r]: the
    attribute is a [float], so the number is converted, or refused with a
    TypeError, and the engine clamps what it keeps to the nominal range. *)
Definition AudioParam_assign (r : nominal) (v : number) : M AudioParam :=
  match to_float v with
  | Some q => ret {| value := clamp r q |}
  | None => throw TypeError
  end.

(** [Array.prototype.findIndex]: the first index whose element satisfies
    [p], or -1. *)
Fixpoint findIndex_from {A} (p : A -> bool) (l : list A) (i : Z) : Z :=
  match l with
  | [] => (-1)%Z
  | x :: l' => if p x then i else findIndex_from p l' (i + 1)%Z
  end.

Definition findIndex {A} (p : A -> bool) (l : list A) : Z :=
  findIndex_from p l 0.

(** [a[i]]: [None] is [undefined], the value at any index that is not an
    own element. *)
Definition array_get {A} (l : list A) (i : Z) : option A :=
  if (i <? 0)%Z then None else l !! Z.to_nat i.

(** The result of an operation that answers an object or [null]. *)
Inductive nullable (A : Type) : Type :=
| Null
| Obj (a : A).
Arguments Null {A}.
Arguments Obj {A} a.

(** [o || null] for an [o] that is an object or [undefined]; an object is
    always truthy. *)
Definition or_null {A} (o : option A) : nullable A :=
  match o with
  | Some a => Obj a
  | None => Null
  end.

(** [s || d] for an optional string parameter: [undefined] and the empty
    string are the falsy ones. *)
Definition or_string (s : option string) (d : string) : string :=
  match s with
  | None => d
  | Some s' => if String.eqb s' "" then d else s'
  end.

(** [AudioContext( )] from the audio-context package: the package makes a
    context at the first call and answers that same context ever after. *)
Definition AudioContext : M audio_context :=
  fun h =>
    (Normal Cached,
     with_contexts (match h_contexts h with O => 1 | n => n end) h).

(** [audioContext.createMediaElementSource( element )]: an element gives
    one source node in its life. *)
Definition createMediaElementSource (audioContext : audio_context)
    (element : ref)
  : M MediaElementAudioSourceNode :=
  let* e := deref h_elements element in
  if el_source e then throw InvalidStateError
  else
    update_element element (set_el_source true);;
    ret {| outputs := [] |}.

(** [setInterval( cb, delay )] *)
Definition setInterval (cb : callback) (d : Z) : M ref :=
  fun h =>
    (Normal (length (h_intervals h)),
     with_intervals
       (h_intervals h ++
          [{| handler := cb; delay := d; due := (h_now h + d)%Z;
              cleared := false |}]) h).

Definition cancel (t : interval) : interval :=
  {| handler := handler t; delay := delay t; due := due t; cleared := true |}.

(** [clearInterval( int )]; an unknown handle is ignored. *)
Definition clearInterval (int : ref) : M unit :=
  modify (fun h => with_intervals (alter cancel int (h_intervals h)) h).

(** The promise allocated by [new Promise( executor )]; the executor is run
    by the caller of this primitive, synchronously, as the constructor does. *)
Definition new_Promise : M ref :=
  fun h =>
    (Normal (length (h_promises h)),
     with_promises (h_promises h ++ [Pending]) h).

Definition settle (v : bool) (s : promise) : promise :=
  match s with
  | Pending => Fulfilled v
  | _ => s
  end.

(** [res( v )]: settles a pending promise and is ignored otherwise. *)
Definition resolve (p : ref) (v : bool) : M unit :=
  modify (fun h => with_promises (alter (settle v) p (h_promises h)) h).

(** ** class AudioTrack *)

(** What [AudioChannel.input] and the [AudioTrack] constructor accept. *)
Inductive Source : Type :=
| SrcTrack (t : ref)
| SrcElement (e : ref)
| SrcString (s : string).

(** [node.connect( destination )]: a connection that exists already is not
    added a second time. *)
Definition connect (d : ref) (n : MediaElementAudioSourceNode)
  : MediaElementAudioSourceNode :=
  {| outputs := if bool_decide (d ∈ outputs n) then outputs n
                else outputs n ++ [d] |}.

(** [node.disconnect( )]: drops every outgoing connection. *)
Definition disconnect (n : MediaElementAudioSourceNode)
  : MediaElementAudioSourceNode :=
  {| outputs := [] |}.

Module Track.

(** [new AudioTrack( audioSource, audioContext )], for a source that is
    an element or a string.  The element made for a string is allocated as
    the four statements of the constructor leave it. *)
Definition new (audioSource : ref + string) (audioContext : audio_context)
  : M ref :=
  let* audioSource :=
    match audioSource with
    | inr s =>
        alloc_element
          {| src := s; controls := false; el_volume := 1; el_loaded := true;
             el_source := false |}
    | inl el => ret el
    end in
  let* node := createMediaElementSource audioContext audioSource in
  alloc_track
    {| audioElement := audioSource; sourceNode := disconnect node |}.

(** [output( channel )]: answers [true] when the track is already listed
    and [undefined] (here [None]) after attaching it. *)
Definition output (this : ref) (channel : ref) : M (option bool) :=
  let* c := deref h_channels channel in
  let connected := findIndex (fun t => Nat.eqb t this) (tracks c) in
  if negb (connected =? -1)%Z then ret (Some true)
  else
    update_track this (fun t => set_sourceNode (disconnect (sourceNode t)) t);;
    update_track this
      (fun t => set_sourceNode (connect channel (sourceNode t)) t);;
    update_channel channel (fun c => set_tracks (tracks c ++ [this]) c);;
    ret None.

End Track.

(** ** class AudioChannel *)

(** The argument of a fade: absent, a value that is not a number, or a
    number. *)
Inductive argument : Type :=
| Undefined
| NotNumber
| Num (n : number).

Module Channel.

(** The fields of a channel as its constructor leaves them. *)
Definition fresh (mixingConsole : ref) : AudioChannel :=
  {| inputNode := {| gain := {| value := 1 |} |};
     outputNode := {| gain := {| value := 1 |} |};
     tracks := [];
     gainNode := {| gain := {| value := 1 |} |};
     LowEQNode :=
       {| type := lowshelf; Q_ := {| value := 1 |};
          eq_gain := {| value := 0 |} |};
     MidEQNode :=
       {| type := peaking; Q_ := {| value := 1 |};
          eq_gain := {| value := 0 |} |};
     HighEQNode :=
       {| type := highshelf; Q_ := {| value := 1 |};
          eq_gain := {| value := 0 |} |};
     stereoPannerNode := {| pan := {| value := 0 |} |};
     mixer := mixingConsole;
     id := "N/A" |}.

(** [new AudioChannel( mixingConsole )] *)
Definition new (mixingConsole : ref) : M ref :=
  let* m := deref h_mixers mixingConsole in
  alloc_channel (fresh mixingConsole).

(** [addTrack( track )] *)
Definition addTrack (this : ref) (track : ref) : M ref :=
  Track.output track this;;
  ret this.

(** [input( source )] *)
Definition input (this : ref) (source : Source) : M ref :=
  match source with
  | SrcTrack t => addTrack this t;; ret t
  | SrcElement e =>
      let* c := deref h_channels this in
      let* m := deref h_mixers (mixer c) in
      let* track := Track.new (inl e) (ctx m) in
      addTrack this track;;
      ret track
  | SrcString s =>
      let* c := deref h_channels this in
      let* m := deref h_mixers (mixer c) in
      let* track := Track.new (inr s) (ctx m) in
      addTrack this track;;
      ret track
  end.

(** [set pan( value )] *)
Definition set_pan (this : ref) (v : number) : M unit :=
  let* p := AudioParam_assign pan_range v in
  update_channel this (set_stereoPannerNode {| pan := p |}).

(** [get pan( )] *)
Definition get_pan (this : ref) : M Q :=
  let* c := deref h_channels this in
  ret (value (pan (stereoPannerNode c))).

(** [set volume( value )] *)
Definition set_volume (this : ref) (v : number) : M unit :=
  let* p := AudioParam_assign gain_range v in
  update_channel this (set_gainNode {| gain := p |}).

(** [get volume( )] *)
Definition get_volume (this : ref) : M Q :=
  let* c := deref h_channels this in
  ret (value (gain (gainNode c))).

(** [set lowEQ( value )] *)
Definition set_lowEQ (this : ref) (v : number) : M unit :=
  let* p := AudioParam_assign eq_gain_range v in
  update_channel this (fun c => set_LowEQNode (set_eq_gain p (LowEQNode c)) c).

(** [get lowEQ( )] *)
Definition get_lowEQ (this : ref) : M Q :=
  let* c := deref h_channels this in
  ret (value (eq_gain (LowEQNode c))).

(** [set midEQ( value )] *)
Definition set_midEQ (this : ref) (v : number) : M unit :=
  let* p := AudioParam_assign eq_gain_range v in
  update_channel this (fun c => set_MidEQNode (set_eq_gain p (MidEQNode c)) c).

(** [get midEQ( )] *)
Definition get_midEQ (this : ref) : M Q :=
  let* c := deref h_channels this in
  ret (value (eq_gain (MidEQNode c))).

(** [set highEQ( value )] *)
Definition set_highEQ (this : ref) (v : number) : M unit :=
  let* p := AudioParam_assign eq_gain_range v in
  update_channel this
    (fun c => set_HighEQNode (set_eq_gain p (HighEQNode c)) c).

(** [get highEQ( )] *)
Definition get_highEQ (this : ref) : M Q :=
  let* c := deref h_channels this in
  ret (value (eq_gain (HighEQNode c))).

(** [set muted( status )] *)
Definition set_muted (this : ref) (status : bool) : M unit :=
  let* p :=
    AudioParam_assign gain_range
      (if Bool.eqb status true then Fin 0 else Fin 1) in
  update_channel this (set_outputNode {| gain := p |}).

(** [get muted( )] *)
Definition get_muted (this : ref) : M bool :=
  let* c := deref h_channels this in
  ret (if negb (Qle_bool (value (gain (outputNode c))) 0) then false
       else true).

(** The body of the closure [fadeOut] hands to [setInterval]. *)
Definition fadeOut_tick (channel : ref) (vpc : number) (int res : ref)
  : M unit :=
  let* c := deref h_channels channel in
  if Qle_bool (value (gain (inputNode c))) 0 then
    let* p := AudioParam_assign gain_range (Fin 0) in
    update_channel channel (set_inputNode {| gain := p |});;
    clearInterval int;;
    resolve res true
  else
    let* p :=
      AudioParam_assign gain_range
        (nsub (Fin (value (gain (inputNode c)))) vpc) in
    update_channel channel (set_inputNode {| gain := p |}).

(** The body of the closure [fadeIn] hands to [setInterval]. *)
Definition fadeIn_tick (channel : ref) (vpc : number) (int res : ref)
  : M unit :=
  let* c := deref h_channels channel in
  if Qle_bool 1 (value (gain (inputNode c))) then
    let* p := AudioParam_assign gain_range (Fin 1) in
    update_channel channel (set_inputNode {| gain := p |});;
    clearInterval int;;
    resolve res true
  else
    let* p :=
      AudioParam_assign gain_range
        (nadd (Fin (value (gain (inputNode c)))) vpc) in
    update_channel channel (set_inputNode {| gain := p |}).

(** The duration a fade works with: the default for a missing argument
    and for one whose [typeof] is not ["number"]. *)
Definition duration (ms : argument) : number :=
  match ms with
  | Num n => n
  | Undefined | NotNumber => Fin 2000
  end.

(** [vpc = ( 2 / ms ) * 10] *)
Definition vpc_of (ms : number) : number := nmul (ndiv (Fin 2) ms) (Fin 10).

(** [fadeOut( ms = 2000 )]: answers the promise. *)
Definition fadeOut (this : ref) (ms : argument) : M ref :=
  let channel := this in
  let ms := duration ms in
  let* res := new_Promise in
  let vpc := vpc_of ms in
  let* int := setInterval (FadeOutTick channel vpc res) 2 in
  ret res.

(** [fadeIn( ms = 2000 )]: answers the promise. *)
Definition fadeIn (this : ref) (ms : argument) : M ref :=
  let channel := this in
  let ms := duration ms in
  let* res := new_Promise in
  let vpc := vpc_of ms in
  let* int := setInterval (FadeInTick channel vpc res) 2 in
  ret res.

End Channel.

(** ** class AudioMixer *)

Module Mixer.

(** [new AudioMixer( audioContext? )] *)
Definition new (audioContext : option audio_context) : M ref :=
  let* ctx :=
    match audioContext with
    | Some c => ret c
    | None => AudioContext
    end in
  alloc_mixer
    {| ctx := ctx; channels := [];
       mixer_gainNode := {| gain := {| value := 1 |} |} |}.

(** [addChannel( id? )] *)
Definition addChannel (this : ref) (id' : option string) : M ref :=
  let* channel := Channel.new this in
  let* m := deref h_mixers this in
  update_channel channel
    (set_id (or_string id' (toString (length (channels m)))));;
  update_mixer this (fun m => set_channels (channels m ++ [channel]) m);;
  ret channel.

(** [set volume( value )] *)
Definition set_volume (this : ref) (v : number) : M unit :=
  let* p := AudioParam_assign gain_range v in
  update_mixer this (set_mixer_gainNode {| gain := p |}).

(** [get volume( )] *)
Definition get_volume (this : ref) : M Q :=
  let* m := deref h_mixers this in
  ret (value (gain (mixer_gainNode m))).

(** The arrow function [( c ) => c.id === id] of [getChannel]. *)
Definition has_id (h : heap) (id' : string) (c : ref) : bool :=
  match h_channels h !! c with
  | Some ch => String.eqb (id ch) id'
  | None => false
  end.

(** [getChannel( id )] *)
Definition getChannel (this : ref) (id' : string) : M (nullable ref) :=
  let* m := deref h_mixers this in
  let* h := gets (fun h => h) in
  let i := findIndex (has_id h id') (channels m) in
  ret (or_null (array_get (channels m) i)).

End Mixer.

(** [createAudioMixer( context? )] *)
Definition createAudioMixer (context : option audio_context) : M ref :=
  let* context :=
    match context with
    | None => AudioContext
    | Some c => ret c
    end in
  Mixer.new (Some context).


(** ** The event loop *)

Definition run_callback (int : ref) (cb : callback) : M unit :=
  match cb with
  | FadeOutTick channel vpc res => Channel.fadeOut_tick channel vpc int res
  | FadeInTick channel vpc res => Channel.fadeIn_tick channel vpc int res
  end.

Definition rearm (t : interval) : interval :=
  {| handler := handler t; delay := delay t; due := (due t + delay t)%Z;
     cleared := cleared t |}.

(** The heap as the closure of an expiring interval finds it: the clock has
    reached the due time and the interval is armed for its next expiry. *)
Definition armed (int : ref) (t : interval) (h : heap) : heap :=
  with_now (Z.max (h_now h) (due t))
    (with_intervals (<[int := rearm t]> (h_intervals h)) h).

(** One expiry of interval [int].  A cleared interval never runs. *)
Definition fire (int : ref) : M unit :=
  let* t := deref h_intervals int in
  if cleared t then ret tt
  else
    modify (armed int t);;
    run_callback int (handler t).

(** What the loop leaves behind: an exception that escapes a closure is
    reported and dropped, the heap stays as the closure left it. *)
Definition turn (int : ref) (h : heap) : heap := exec (fire int) h.

(** The interval the loop serves next: the earliest due one among those not
    cleared, the older one first when two are due together. *)
Fixpoint earliest_from (l : list interval) (i : ref) (best : option (ref * Z))
  : option (ref * Z) :=
  match l with
  | [] => best
  | t :: l' =>
      let best' :=
        if cleared t then best
        else match best with
             | Some (_, d) => if (due t <? d)%Z then Some (i, due t) else best
             | None => Some (i, due t)
             end in
      earliest_from l' (S i) best'
  end.

Definition next_interval (h : heap) : option ref :=
  fst <$> earliest_from (h_intervals h) 0 None.

Definition advance (h : heap) : heap :=
  match next_interval h with
  | Some int => turn int h
  | None => h
  end.

(** ** Observations *)

(** The pre-fade input gain of a channel. *)
Definition input_gain (c : ref) (h : heap) : option Q :=
  (fun ch => value (gain (inputNode ch))) <$> h_channels h !! c.

Definition output_gate (c : ref) (h : heap) : option Q :=
  (fun ch => value (gain (outputNode ch))) <$> h_channels h !! c.

Definition channel_gain (c : ref) (h : heap) : option Q :=
  (fun ch => value (gain (gainNode ch))) <$> h_channels h !! c.

Definition tracks_of (c : ref) (h : heap) : option (list ref) :=
  tracks <$> h_channels h !! c.

Definition id_of (c : ref) (h : heap) : option string :=
  id <$> h_channels h !! c.

Definition connections_of (t : ref) (h : heap) : option (list ref) :=
  (fun tr => outputs (sourceNode tr)) <$> h_tracks h !! t.

Definition is_active (int : ref) (h : heap) : bool :=
  match h_intervals h !! int with
  | Some t => negb (cleared t)
  | None => false
  end.

Definition target (cb : callback) : ref :=
  match cb with
  | FadeOutTick c _ _ | FadeInTick c _ _ => c
  end.

Definition settles (cb : callback) : ref :=
  match cb with
  | FadeOutTick _ _ r | FadeInTick _ _ r => r
  end.

(** The fades in flight on channel [c]: the handles of the intervals not
    cleared whose closure writes to [c]. *)
Fixpoint active_from (c : ref) (l : list interval) (i : ref) : list ref :=
  match l with
  | [] => []
  | t :: l' =>
      if negb (cleared t) && Nat.eqb (target (handler t)) c
      then i :: active_from c l' (S i)
      else active_from c l' (S i)
  end.

Definition active_fades (c : ref) (h : heap) : list ref :=
  active_from c (h_intervals h) 0.

(** ** Fades, seen from outside *)

(** The two fades differ in their boundary and in the sign of the step. *)
Inductive direction : Type := Out | In.

Definition fade (d : direction) (c : ref) (ms : argument) : M ref :=
  match d with
  | Out => Channel.fadeOut c ms
  | In => Channel.fadeIn c ms
  end.

Definition closure (d : direction) (c : ref) (vpc : number) (res : ref)
  : callback :=
  match d with
  | Out => FadeOutTick c vpc res
  | In => FadeInTick c vpc res
  end.

(** The value the gain is set to when the fade ends. *)
Definition boundary (d : direction) : Q :=
  match d with
  | Out => 0
  | In => 1
  end.

(** The test of the closure: has the gain reached the boundary? *)
Definition reached (d : direction) (g : Q) : bool :=
  match d with
  | Out => Qle_bool g 0
  | In => Qle_bool 1 g
  end.

(** The number a closure that captured the step [v] assigns to a gain [g]
    that is short of the boundary. *)
Definition stepped (d : direction) (g : Q) (v : number) : number :=
  match d with
  | Out => nsub (Fin g) v
  | In => nadd (Fin g) v
  end.

(** The step a closure captured. *)
Definition step_of (cb : callback) : number :=
  match cb with
  | FadeOutTick _ vpc _ | FadeInTick _ vpc _ => vpc
  end.

Definition direction_of (cb : callback) : direction :=
  match cb with
  | FadeOutTick _ _ _ => Out
  | FadeInTick _ _ _ => In
  end.

(** The heap a closure leaves when it finds the gain at the boundary. *)
Definition ended (d : direction) (int c : ref) (ch : AudioChannel) (res : ref)
    (h : heap) : heap :=
  with_promises (alter (settle true) res (h_promises h))
    (with_intervals (alter cancel int (h_intervals h))
       (with_channels
          (<[c := set_inputNode {| gain := {| value := boundary d |} |} ch]>
             (h_channels h)) h)).

(** The heap a closure leaves when it moves the gain to [g]. *)
Definition moved (c : ref) (ch : AudioChannel) (g : Q) (h : heap) : heap :=
  with_channels
    (<[c := set_inputNode {| gain := {| value := g |} |} ch]> (h_channels h))
    h.

(** The four ways an expiry of [int] can go: the interval is gone, the
    closure ends the fade, it moves the gain, or it throws. *)
Inductive expiry (int : ref) (h : heap) : heap -> Prop :=
| expiry_idle :
    (h_intervals h !! int = None \/
     exists t, h_intervals h !! int = Some t /\ cleared t = true) ->
    expiry int h h
| expiry_ended t ch :
    h_intervals h !! int = Some t -> cleared t = false ->
    h_channels h !! target (handler t) = Some ch ->
    reached (direction_of (handler t)) (value (gain (inputNode ch))) = true ->
    expiry int h
      (ended (direction_of (handler t)) int (target (handler t)) ch
         (settles (handler t)) (armed int t h))
| expiry_moved t ch g :
    h_intervals h !! int = Some t -> cleared t = false ->
    h_channels h !! target (handler t) = Some ch ->
    reached (direction_of (handler t)) (value (gain (inputNode ch))) = false ->
    to_float
      (stepped (direction_of (handler t)) (value (gain (inputNode ch)))
         (step_of (handler t))) = Some g ->
    expiry int h (moved (target (handler t)) ch g (armed int t h))
| expiry_failed t :
    h_intervals h !! int = Some t -> cleared t = false ->
    (h_channels h !! target (handler t) = None \/
     exists ch,
       h_channels h !! target (handler t) = Some ch /\
       reached (direction_of (handler t)) (value (gain (inputNode ch)))
         = false /\
       to_float
         (stepped (direction_of (handler t)) (value (gain (inputNode ch)))
            (step_of (handler t))) = None) ->
    expiry int h (armed int t h).

(** Every closure of the heap settles a promise that exists. *)
Definition settles_allocated (h : heap) : bool :=
  forallb (fun t => Nat.ltb (settles (handler t)) (length (h_promises h)))
    (h_intervals h).

(** ** Relations between the heap before and after a computation *)

(** A computation respects [R] when [R] relates the heap it starts in to the
    heap it leaves, however it completes. *)
Definition respects (R : heap -> heap -> Prop) {A} (m : M A) : Prop :=
  forall h, R h (snd (m h)).

(** Timers, promises and the clock are left alone, and no channel goes
    away.  This is what every method but the fades does. *)
Definition calm (h h' : heap) : Prop :=
  h_intervals h' = h_intervals h /\
  h_promises h' = h_promises h /\
  h_now h' = h_now h /\
  length (h_channels h) <= length (h_channels h').

(** The output port of every track feeds one channel at most. *)
Definition single_port (h : heap) : Prop :=
  forall t tr,
    h_tracks h !! t = Some tr -> length (outputs (sourceNode tr)) <= 1.

Definition keeps_single_port (h h' : heap) : Prop :=
  single_port h -> single_port h'.

(** What holds of a fade from the call that starts it: interval [int]
    carries its closure and expires every 2 ms, no other closure settles
    its promise [p], the
    promise is pending as long as the interval is active and is never
    rejected, and its channel exists. *)
Record fading (d : direction) (int c : ref) (v : number) (p : ref)
    (h : heap) : Prop :=
  { fading_closure :
      exists t,
        h_intervals h !! int = Some t /\
        handler t = closure d c v p /\ delay t = 2%Z;
    fading_alone :
      forall j t,
        h_intervals h !! j = Some t -> settles (handler t) = p -> j = int;
    fading_pending :
      is_active int h = true -> h_promises h !! p = Some Pending;
    fading_settled :
      h_promises h !! p = Some Pending \/
      h_promises h !! p = Some (Fulfilled true);
    fading_channel : is_Some (h_channels h !! c) }.


(** The gain a step of [q] away in the direction of the fade, in exact
    arithmetic. *)
Definition shifted (d : direction) (g q : Q) : Q :=
  match d with
  | Out => (g - q)%Q
  | In => (g + q)%Q
  end.

(** The gain one tick of a closure that captured the step [v] leaves, from
    the gain [g] it finds: the boundary when [g] has reached it; otherwise
    the binary32 value of the number it assigns, and [g] itself when the
    assignment is refused. *)
Definition next_gain (d : direction) (g : Q) (v : number) : Q :=
  if reached d g then boundary d
  else from_option (fun g' => g') g (to_float (stepped d g v)).

(** ** Sessions *)

(** What a program and the event loop can do to the heap.  The getters are
    left out: they read.  [NewAudio] is the page making an audio element of
    its own, as [new Audio( s )] does. *)
Inductive action : Type :=
| NewAudio (s : string)
| NewMixer (audioContext : option audio_context)
| CreateAudioMixer (context : option audio_context)
| AddChannel (m : ref) (id' : option string)
| GetChannel (m : ref) (id' : string)
| SetMixerVolume (m : ref) (v : number)
| NewChannel (m : ref)
| NewTrack (audioSource : ref + string) (audioContext : audio_context)
| Output (t c : ref)
| AddTrack (c t : ref)
| Input (c : ref) (source : Source)
| SetPan (c : ref) (v : number)
| SetVolume (c : ref) (v : number)
| SetLowEQ (c : ref) (v : number)
| SetMidEQ (c : ref) (v : number)
| SetHighEQ (c : ref) (v : number)
| SetMuted (c : ref) (status : bool)
| Fade (d : direction) (c : ref) (ms : argument)
| Expire (int : ref).

Definition perform (a : action) (h : heap) : heap :=
  match a with
  | NewAudio s =>
      exec
        (alloc_element
           {| src := s; controls := false; el_volume := 1;
              el_loaded := false; el_source := false |}) h
  | NewMixer audioContext => exec (Mixer.new audioContext) h
  | CreateAudioMixer context => exec (createAudioMixer context) h
  | AddChannel m id' => exec (Mixer.addChannel m id') h
  | GetChannel m id' => exec (Mixer.getChannel m id') h
  | SetMixerVolume m v => exec (Mixer.set_volume m v) h
  | NewChannel m => exec (Channel.new m) h
  | NewTrack audioSource audioContext =>
      exec (Track.new audioSource audioContext) h
  | Output t c => exec (Track.output t c) h
  | AddTrack c t => exec (Channel.addTrack c t) h
  | Input c source => exec (Channel.input c source) h
  | SetPan c v => exec (Channel.set_pan c v) h
  | SetVolume c v => exec (Channel.set_volume c v) h
  | SetLowEQ c v => exec (Channel.set_lowEQ c v) h
  | SetMidEQ c v => exec (Channel.set_midEQ c v) h
  | SetHighEQ c v => exec (Channel.set_highEQ c v) h
  | SetMuted c status => exec (Channel.set_muted c status) h
  | Fade d c ms => exec (fade d c ms) h
  | Expire int => turn int h
  end.

Definition run (l : list action) (h : heap) : heap :=
  fold_left (fun h a => perform a h) l h.

(** The heaps a session can be in. *)
Definition reachable (h : heap) : Prop := exists l, h = run l empty_heap.








(** The three ways the library offers to attach a track to a channel. *)
Inductive attachment : Type := ViaAddTrack | ViaInput | ViaOutput.

Definition attach (via : attachment) (c t : ref) : M unit :=
  match via with
  | ViaAddTrack => Channel.addTrack c t;; ret tt
  | ViaInput => Channel.input c (SrcTrack t);; ret tt
  | ViaOutput => Track.output t c;; ret tt
  end.



(** ** Sample sessions *)

(** A mixer with two channels ["0"] and ["1"] and one track, loaded from a
    URL into the first channel. *)
Definition studio : heap :=
  exec
    (let* m := Mixer.new None in
     let* a := Mixer.addChannel m None in
     let* b := Mixer.addChannel m None in
     Channel.input a (SrcString "song.mp3"))
    empty_heap.

(** The same session after the track went to the second channel too. *)
Definition studio_moved : heap := exec (Channel.addTrack 1 0) studio.

(** A mixer and nothing else. *)
Definition console : heap := exec (Mixer.new None) empty_heap.

(** A mixer whose first and third channel share the id ["drums"]. *)
Definition doubled : heap :=
  exec
    (let* m := Mixer.new None in
     Mixer.addChannel m (Some "drums");;
     Mixer.addChannel m (Some "bass");;
     Mixer.addChannel m (Some "drums"))
    empty_heap.

(** ** The scalar controls of a channel *)

(** The five numeric properties of [AudioChannel], each a setter and a
    getter over one parameter of the chain. *)
Inductive control : Type := Pan | Volume | LowEQ | MidEQ | HighEQ.

Definition set_control (k : control) (c : ref) (v : number) : M unit :=
  match k with
  | Pan => Channel.set_pan c v
  | Volume => Channel.set_volume c v
  | LowEQ => Channel.set_lowEQ c v
  | MidEQ => Channel.set_midEQ c v
  | HighEQ => Channel.set_highEQ c v
  end.

(** The nominal range of the parameter behind a control. *)
Definition nominal_of (k : control) : nominal :=
  match k with
  | Pan => pan_range
  | Volume => gain_range
  | LowEQ | MidEQ | HighEQ => eq_gain_range
  end.

Definition get_control (k : control) (c : ref) : M Q :=
  match k with
  | Pan => Channel.get_pan c
  | Volume => Channel.get_volume c
  | LowEQ => Channel.get_lowEQ c
  | MidEQ => Channel.get_midEQ c
  | HighEQ => Channel.get_highEQ c
  end.

(** ** The shape of the heap *)

(** What a session keeps true of the lists: a mixer lists channels that
    exist, once each, and that were constructed on it; a channel was
    constructed on a mixer that exists and lists tracks that exist, once
    each; the port of a track feeds channels that list it. *)
Record sound (h : heap) : Prop :=
  { sound_channels :
      forall m mx c,
        h_mixers h !! m = Some mx -> c ∈ channels mx ->
        exists ch, h_channels h !! c = Some ch /\ mixer ch = m;
    sound_channels_once :
      forall m mx, h_mixers h !! m = Some mx -> NoDup (channels mx);
    sound_mixer :
      forall c ch,
        h_channels h !! c = Some ch -> mixer ch < length (h_mixers h);
    sound_tracks :
      forall c ch t,
        h_channels h !! c = Some ch -> t ∈ tracks ch ->
        t < length (h_tracks h);
    sound_tracks_once :
      forall c ch, h_channels h !! c = Some ch -> NoDup (tracks ch);
    sound_port :
      forall t tr c,
        h_tracks h !! t = Some tr -> c ∈ outputs (sourceNode tr) ->
        exists ch, h_channels h !! c = Some ch /\ t ∈ tracks ch }.

Definition keeps_sound (h h' : heap) : Prop := sound h -> sound h'.

(** The pre-fade input gain of every channel is where it was. *)
Definition same_input_gains (h h' : heap) : Prop :=
  forall c g, input_gain c h = Some g -> input_gain c h' = Some g.



(** The channels are what they were, their pre-fade input gains apart:
    with every input node overwritten by the same one, the two stores are
    equal. *)
Definition same_settings (h h' : heap) : Prop :=
  forall c,
    set_inputNode {| gain := {| value := 1 |} |} <$> h_channels h' !! c =
    set_inputNode {| gain := {| value := 1 |} |} <$> h_channels h !! c.

(** The actions of a fade: its start and the expiries. *)
Definition fade_step (a : action) : bool :=
  match a with
  | Fade _ _ _ | Expire _ => true
  | _ => false
  end.

(** A source that is not a track, as [input] takes it. *)
Definition raw (x : ref + string) : Source :=
  match x with
  | inl e => SrcElement e
  | inr s => SrcString s
  end.

(** Where the gain is before a fade over the whole range: on the boundary
    of the opposite fade. *)
Definition far_end (d : direction) : Q :=
  match d with
  | Out => 1
  | In => 0
  end.

(** ** Two opposite fades *)

(** A fade-out and a fade-in of one step [q], started one after the other on
    channel [c] when the intervals [old] were all cleared: the two intervals
    are the last two of the heap, both armed, the fade-out due [lag]
    milliseconds after the fade-in, both promises pending, the gain at [g]. *)
Record tug (old : list interval) (c : ref) (q : Q) (p : ref) (g : Q) (lag : Z)
    (h : heap) : Prop :=
  { tug_intervals : exists t0 t1,
      h_intervals h = old ++ [t0; t1] /\
      handler t0 = closure Out c (Fin q) p /\
      handler t1 = closure In c (Fin q) (S p) /\
      delay t0 = 2%Z /\ delay t1 = 2%Z /\
      cleared t0 = false /\ cleared t1 = false /\
      due t0 = (due t1 + lag)%Z;
    tug_gain : exists g', input_gain c h = Some g' /\ (g' == g)%Q;
    tug_out : h_promises h !! p = Some Pending;
    tug_in : h_promises h !! S p = Some Pending }.

(** * Properties *)

(** ** Rounding *)

Local Open Scope Q_scope.

Lemma two_neq_0 : ~ 2 == 0.
Proof. discriminate. Qed.

Lemma pow2_pos (e : Z) : 0 < 2 ^ e.
Proof. now apply Qpower_0_lt. Qed.

Lemma pow2_add (a b : Z) : 2 ^ (a + b) == 2 ^ a * 2 ^ b.
Proof. apply Qpower_plus, two_neq_0. Qed.

Lemma pow2_sub (a b : Z) : 2 ^ (a - b) == 2 ^ a / 2 ^ b.
Proof. apply Qpower_minus, two_neq_0. Qed.

Lemma pow2_le (a b : Z) : (a <= b)%Z -> 2 ^ a <= 2 ^ b.
Proof. intros H. apply Qpower_le_compat_l; [exact H|discriminate]. Qed.

Lemma pow2_lt (a b : Z) : (a < b)%Z -> 2 ^ a < 2 ^ b.
Proof. intros H. apply Qpower_lt_compat_l; [exact H|reflexivity]. Qed.

Lemma pow2_lt_inv (a b : Z) : 2 ^ a < 2 ^ b -> (a < b)%Z.
Proof. intros H. apply (Qpower_lt_compat_l_inv 2); [exact H|reflexivity]. Qed.

Lemma pow2_Z (n : Z) : (0 <= n)%Z -> 2 ^ n == inject_Z (2 ^ n).
Proof. intros H. symmetry. now apply (Zpower_Qpower 2). Qed.

Lemma pow2_shift (x : Q) (a b : Z) : x / 2 ^ a == x / 2 ^ b * 2 ^ (b - a).
Proof.
  rewrite pow2_sub. field. split; apply Qpower_not_0, two_neq_0.
Qed.

Lemma Qdiv_lt_div (a b c d : Q) :
  0 <= a -> a < c -> 0 < d -> d <= b -> a / b < c / d.
Proof.
  intros Ha Hac Hd Hdb.
  apply Qlt_shift_div_r; [lra|].
  assert (E : c / d * d == c) by (field; lra).
  assert (0 <= c / d) by (apply Qle_shift_div_l; lra).
  assert (0 <= c / d * (b - d)) by (apply Qmult_le_0_compat; lra).
  lra.
Qed.

Lemma Qdiv_le_div (a b c d : Q) :
  0 <= a -> a <= c -> 0 < b -> b <= d -> a / d <= c / b.
Proof.
  intros Ha Hac Hb Hbd.
  apply Qle_shift_div_r; [lra|].
  assert (E : c / b * b == c) by (field; lra).
  assert (0 <= c / b) by (apply Qle_shift_div_l; lra).
  assert (0 <= c / b * (d - b)) by (apply Qmult_le_0_compat; lra).
  lra.
Qed.

Lemma inject_Z_pos (n : Z) : (0 < n)%Z -> 0 < inject_Z n.
Proof. intros H. change 0 with (inject_Z 0). now rewrite <- Zlt_Qlt. Qed.

Lemma inject_Z_nonneg (n : Z) : (0 <= n)%Z -> 0 <= inject_Z n.
Proof. intros H. change 0 with (inject_Z 0). now rewrite <- Zle_Qle. Qed.

(** The binade of a number. *)

Lemma ilog2_spec (x : Q) :
  ~ x == 0 -> 2 ^ ilog2 x <= Qabs x /\ Qabs x < 2 ^ (ilog2 x + 1).
Proof.
  intros Hx. unfold ilog2.
  set (A := Z.abs (Qnum x)). set (b := Z.pos (Qden x)).
  set (k := (Z.log2 A - Z.log2 b)%Z).
  assert (HA : (0 < A)%Z).
  { unfold A. destruct x as [[|n|n] d]; simpl; try lia. now elim Hx. }
  assert (Hb : (0 < b)%Z) by (unfold b; lia).
  destruct (Z.log2_spec A HA) as [A1 A2].
  destruct (Z.log2_spec b Hb) as [B1 B2].
  pose proof (Z.log2_nonneg A) as LA. pose proof (Z.log2_nonneg b) as LB.
  assert (Eabs : Qabs x == inject_Z A / inject_Z b).
  { unfold A, b. rewrite <- Qmake_Qdiv. destruct x as [n d]. simpl.
    symmetry. apply Zabs_Qabs. }
  assert (Hup : Qabs x < 2 ^ (k + 1)).
  { rewrite Eabs.
    replace (k + 1)%Z with (Z.succ (Z.log2 A) - Z.log2 b)%Z by (unfold k; lia).
    rewrite pow2_sub, !pow2_Z by lia.
    apply Qdiv_lt_div.
    - apply inject_Z_nonneg; lia.
    - now rewrite <- Zlt_Qlt.
    - apply inject_Z_pos; lia.
    - now rewrite <- Zle_Qle. }
  assert (Hlow : 2 ^ (k - 1) <= Qabs x).
  { rewrite Eabs.
    replace (k - 1)%Z with (Z.log2 A - Z.succ (Z.log2 b))%Z by (unfold k; lia).
    rewrite pow2_sub, !pow2_Z by lia.
    apply Qdiv_le_div.
    - apply inject_Z_nonneg; lia.
    - now rewrite <- Zle_Qle.
    - apply inject_Z_pos; lia.
    - rewrite <- Zle_Qle; lia. }
  destruct (Qle_bool (2 ^ k) (Qabs x)) eqn:E.
  - apply Qle_bool_iff in E. now split.
  - replace (k - 1 + 1)%Z with k by lia. split; [exact Hlow|].
    destruct (Qlt_le_dec (Qabs x) (2 ^ k)) as [|Hle]; [assumption|].
    apply Qle_bool_iff in Hle. congruence.
Qed.

Lemma ilog2_unique (x : Q) (k : Z) :
  2 ^ k <= Qabs x -> Qabs x < 2 ^ (k + 1) -> ilog2 x = k.
Proof.
  intros H1 H2.
  assert (Hx : ~ x == 0).
  { intros E. rewrite E in H1. change (Qabs 0) with 0 in H1.
    pose proof (pow2_pos k). lra. }
  destruct (ilog2_spec x Hx) as [H3 H4].
  assert (k < ilog2 x + 1)%Z by (apply pow2_lt_inv; lra).
  assert (ilog2 x < k + 1)%Z by (apply pow2_lt_inv; lra).
  lia.
Qed.

Lemma ilog2_comp (x y : Q) : ~ x == 0 -> x == y -> ilog2 x = ilog2 y.
Proof.
  intros Hx E. destruct (ilog2_spec x Hx) as [H1 H2].
  symmetry. apply ilog2_unique; now rewrite <- E.
Qed.


(** The nearest integer, ties to even. *)

Lemma rne_bounds (x : Q) : (Qfloor x <= rne x <= Qfloor x + 1)%Z.
Proof.
  unfold rne. destruct (x - inject_Z (Qfloor x) ?= 1 # 2); try lia.
  destruct (Z.even (Qfloor x)); lia.
Qed.

Lemma rne_comp (x y : Q) : x == y -> rne x = rne y.
Proof.
  intros E. unfold rne. rewrite (Qfloor_comp _ _ E).
  now rewrite (Qcompare_comp _ _ (ltac:(rewrite E; reflexivity)
    : x - inject_Z (Qfloor y) == y - inject_Z (Qfloor y)) _ _ (Qeq_refl (1 # 2))).
Qed.

Lemma rne_Z (n : Z) : rne (inject_Z n) = n.
Proof.
  unfold rne. rewrite Qfloor_Z.
  assert (E : inject_Z n - inject_Z n == 0) by ring.
  now rewrite (Qcompare_comp _ _ E _ _ (Qeq_refl (1 # 2))).
Qed.

Lemma rne_mono (x y : Q) : x <= y -> (rne x <= rne y)%Z.
Proof.
  intros Hxy. pose proof (Qfloor_resp_le _ _ Hxy) as Hf.
  destruct (Z.eq_dec (Qfloor x) (Qfloor y)) as [E|N].
  - unfold rne. rewrite E.
    destruct (Qcompare_spec (x - inject_Z (Qfloor y)) (1 # 2)) as [Cx|Cx|Cx];
      destruct (Qcompare_spec (y - inject_Z (Qfloor y)) (1 # 2)) as [Cy|Cy|Cy];
      try (destruct (Z.even (Qfloor y))); try lia; exfalso; lra.
  - pose proof (rne_bounds x). pose proof (rne_bounds y). lia.
Qed.

Lemma rne_le_Z (x : Q) (n : Z) : x <= inject_Z n -> (rne x <= n)%Z.
Proof. intros H. rewrite <- (rne_Z n). now apply rne_mono. Qed.

Lemma rne_ge_Z (x : Q) (n : Z) : inject_Z n <= x -> (n <= rne x)%Z.
Proof. intros H. rewrite <- (rne_Z n). now apply rne_mono. Qed.

(** Rounding to a format. *)

Section Rounding.

Variable f : format.
Hypothesis Hprec : (1 <= prec f)%Z.

Lemma spacing_ge_emin (x : Q) : (emin f <= spacing f x)%Z.
Proof. unfold spacing. lia. Qed.

Lemma spacing_upper (x : Q) :
  ~ x == 0 -> Qabs x < 2 ^ (spacing f x + prec f).
Proof.
  intros Hx. destruct (ilog2_spec x Hx) as [_ H].
  apply Qlt_le_trans with (1 := H). apply pow2_le. unfold spacing. lia.
Qed.


Lemma spacing_comp (x y : Q) : ~ x == 0 -> x == y -> spacing f x = spacing f y.
Proof. intros Hx E. unfold spacing. now rewrite (ilog2_comp x y Hx E). Qed.


Lemma round_eq (x : Q) :
  round f x == inject_Z (rne (x / 2 ^ spacing f x)) * 2 ^ spacing f x.
Proof. unfold round. apply Qred_correct. Qed.

Lemma round_0 (x : Q) : x == 0 -> round f x = 0.
Proof.
  intros E. unfold round.
  assert (E' : forall e, x / 2 ^ e == inject_Z 0)
    by (intros e; rewrite E; unfold Qdiv; ring).
  rewrite (rne_comp _ _ (E' _)), rne_Z.
  change 0 with (Qred 0). apply Qred_complete. ring.
Qed.

Lemma round_comp (x y : Q) : x == y -> round f x = round f y.
Proof.
  intros E. destruct (Qeq_dec x 0) as [Z0|N0].
  - rewrite (round_0 x Z0). symmetry. apply round_0. now rewrite <- E.
  - unfold round. rewrite <- (spacing_comp x y N0 E).
    apply Qred_complete.
    assert (E' : forall e, x / 2 ^ e == y / 2 ^ e)
      by (intros e; now rewrite E).
    now rewrite (rne_comp _ _ (E' _)).
Qed.




(** On the scale of its spacing a number lies within [2 ^ prec], and not
    below [2 ^ (prec - 1)] unless it is subnormal. *)
Lemma scaled_upper (x : Q) :
  ~ x == 0 -> Qabs (x / 2 ^ spacing f x) < inject_Z (2 ^ prec f).
Proof.
  intros Hx. pose proof (spacing_upper x Hx) as H.
  rewrite pow2_add, (pow2_Z (prec f)) in H by lia.
  unfold Qdiv. rewrite Qabs_Qmult, Qabs_Qinv.
  rewrite (Qabs_pos (2 ^ spacing f x)) by apply Qlt_le_weak, pow2_pos.
  apply Qlt_shift_div_r; [apply pow2_pos|]. lra.
Qed.





(** The numbers of the format: the integer multiples [m * 2 ^ s] of a
    power of two not below the least one, with [m] within [2 ^ prec]. *)
Lemma round_grid (m s : Z) :
  (emin f <= s)%Z -> (Z.abs m <= 2 ^ prec f)%Z ->
  round f (inject_Z m * 2 ^ s) == inject_Z m * 2 ^ s.
Proof.
  assert (Hlt : forall m s,
    (emin f <= s)%Z -> (Z.abs m < 2 ^ prec f)%Z ->
    round f (inject_Z m * 2 ^ s) == inject_Z m * 2 ^ s).
  { clear m s. intros m s Hs Hm. set (x := inject_Z m * 2 ^ s).
    destruct (Qeq_dec x 0) as [Z0|N0].
    { rewrite (round_0 x Z0). now rewrite Z0. }
    assert (He : (spacing f x <= s)%Z).
    { unfold spacing. apply Z.max_lub; [|exact Hs].
      assert (ilog2 x < s + prec f)%Z; [|lia].
      destruct (ilog2_spec x N0) as [H _]. apply pow2_lt_inv.
      apply Qle_lt_trans with (1 := H). unfold x.
      rewrite Qabs_Qmult, (Qabs_pos (2 ^ s)) by apply Qlt_le_weak, pow2_pos.
      rewrite pow2_add, (Qmult_comm (2 ^ s)), (pow2_Z (prec f)) by lia.
      apply Qmult_lt_compat_r; [apply pow2_pos|].
      assert (E : Qabs (inject_Z m) == inject_Z (Z.abs m))
        by (unfold inject_Z; symmetry; apply Zabs_Qabs).
      rewrite E. now rewrite <- Zlt_Qlt. }
    rewrite round_eq.
    assert (E : x / 2 ^ spacing f x == inject_Z (m * 2 ^ (s - spacing f x))).
    { rewrite inject_Z_mult, <- (pow2_Z (s - spacing f x)) by lia.
      rewrite pow2_sub. unfold x. field. apply Qpower_not_0, two_neq_0. }
    rewrite (rne_comp _ _ E), rne_Z.
    rewrite inject_Z_mult, <- (pow2_Z (s - spacing f x)) by lia.
    rewrite pow2_sub. unfold x. field. apply Qpower_not_0, two_neq_0. }
  intros Hs Hm.
  destruct (Z.eq_dec (Z.abs m) (2 ^ prec f)%Z) as [E|N].
  - assert (Em : inject_Z m * 2 ^ s ==
                 inject_Z (Z.sgn m * 2 ^ (prec f - 1)) * 2 ^ (s + 1)).
    { rewrite <- (Z.abs_sgn m) at 1. rewrite E.
      rewrite !inject_Z_mult, <- (pow2_Z (prec f)), <- (pow2_Z (prec f - 1))
        by lia.
      rewrite pow2_add, pow2_sub. change (2 ^ 1) with 2.
      field. }
    rewrite (round_comp _ _ Em), Em. apply Hlt; [lia|].
    rewrite Z.abs_mul, (Z.abs_eq (2 ^ _)) by (apply Z.pow_nonneg; lia).
    assert (2 ^ (prec f - 1) < 2 ^ prec f)%Z
      by (apply Z.pow_lt_mono_r; lia).
    assert (0 < 2 ^ (prec f - 1))%Z by (apply Z.pow_pos_nonneg; lia).
    assert (0 <= Z.abs (Z.sgn m) <= 1)%Z by (destruct m; simpl; lia).
    nia.
  - apply Hlt; [exact Hs|lia].
Qed.

(** What rounding answers is a number of the format. *)
Lemma round_on_grid (x : Q) :
  exists m s,
    round f x == inject_Z m * 2 ^ s /\
    (emin f <= s)%Z /\ (Z.abs m <= 2 ^ prec f)%Z.
Proof.
  exists (rne (x / 2 ^ spacing f x)), (spacing f x).
  split; [apply round_eq|]. split; [apply spacing_ge_emin|].
  destruct (Qeq_dec x 0) as [Z0|N0].
  { assert (E : forall e, x / 2 ^ e == inject_Z 0)
      by (intros e; rewrite Z0; unfold Qdiv; ring).
    rewrite (rne_comp _ _ (E _)), rne_Z. simpl.
    apply Z.lt_le_incl, Z.pow_pos_nonneg; lia. }
  pose proof (scaled_upper x N0) as H.
  apply Qabs_Qlt_condition in H. destruct H as [H1 H2].
  apply Z.abs_le. split.
  - apply rne_ge_Z. rewrite inject_Z_opp. lra.
  - apply rne_le_Z. lra.
Qed.

Lemma round_canonical (x : Q) : Qred (round f x) = round f x.
Proof. unfold round. apply Qred_complete, Qred_correct. Qed.

Lemma round_fixed (x y : Q) : round f x == y -> round f y = round f x.
Proof.
  intros E.
  destruct (round_on_grid x) as (m & s & Em & Hs & Hm).
  rewrite <- (round_canonical x), <- (round_canonical y).
  apply Qred_complete.
  rewrite <- (round_comp _ _ E), (round_comp _ _ Em), Em.
  now apply round_grid.
Qed.

Lemma round_idempotent (x : Q) : round f (round f x) = round f x.
Proof. now apply round_fixed. Qed.

End Rounding.

(** A binary32 value is a binary64 value. *)
Lemma float_is_double (x : Q) :
  round binary64 (round binary32 x) = round binary32 x.
Proof.
  destruct (round_on_grid binary32 ltac:(simpl; lia) x)
    as (m & s & E & Hs & Hm).
  assert (E2 : round binary64 (round binary32 x) == round binary32 x).
  { rewrite (round_comp binary64 _ _ E), E.
    apply round_grid; simpl in *; lia. }
  transitivity (Qred (round binary32 x)); [|apply round_canonical].
  rewrite <- (round_canonical binary64). now apply Qred_complete.
Qed.

Local Close Scope Q_scope.

(** ** The conversion to [float] *)

Lemma to_float_0 : to_float (Fin 0) = Some 0%Q.
Proof. vm_compute. reflexivity. Qed.

Lemma to_float_1 : to_float (Fin 1) = Some 1%Q.
Proof. vm_compute. reflexivity. Qed.

Lemma to_float_Fin v q :
  to_float v = Some q ->
  exists x, v = Fin x /\ q = round binary32 x /\
            overflows binary32 (round binary32 x) = false.
Proof.
  destruct v as [x| | |]; try discriminate. unfold to_float.
  destruct (overflows binary32 (round binary32 x)) eqn:E; [discriminate|].
  intros [= <-]. now exists x.
Qed.

Lemma overflows_comp f (x y : Q) : (x == y)%Q -> overflows f x = overflows f y.
Proof.
  intros E. unfold overflows.
  destruct (Qle_bool (2 ^ emax f) (Qabs y)) eqn:Ey.
  - apply Qle_bool_iff. apply Qle_bool_iff in Ey. now rewrite E.
  - destruct (Qle_bool (2 ^ emax f) (Qabs x)) eqn:Ex; [|reflexivity].
    apply Qle_bool_iff in Ex. rewrite E in Ex. apply Qle_bool_iff in Ex.
    congruence.
Qed.

Lemma is_float_iff (x : Q) :
  is_float x = true <->
  (round binary32 x == x)%Q /\ overflows binary32 x = false.
Proof.
  unfold is_float. rewrite andb_true_iff, Qeq_bool_iff, negb_true_iff.
  reflexivity.
Qed.


(** It leaves a binary32 value alone. *)
Lemma to_float_float (x : Q) :
  is_float x = true -> to_float (Fin x) = Some (round binary32 x).
Proof.
  intros H. apply is_float_iff in H as [E Ho]. unfold to_float.
  now rewrite (overflows_comp _ _ _ E), Ho.
Qed.

(** The operations answer binary64 values. *)
Lemma finite_is_double (z r : Q) : finite z = Fin r -> is_double r = true.
Proof.
  unfold finite, is_double.
  destruct (overflows binary64 (round binary64 z)) eqn:Ho;
    [destruct (Qle_bool 0 z); discriminate|].
  intros [= <-]. rewrite round_idempotent by (simpl; lia). rewrite Ho.
  apply andb_true_intro. split; [now apply Qeq_bool_iff|reflexivity].
Qed.

(** A binary32 value is a binary64 value. *)
Lemma float_is_a_double (x : Q) : is_float x = true -> is_double x = true.
Proof.
  intros H. apply is_float_iff in H as [E Ho]. unfold is_double.
  apply andb_true_intro. split.
  - apply Qeq_bool_iff.
    rewrite <- (round_comp binary64 _ _ E), float_is_double. exact E.
  - apply negb_true_iff. unfold overflows in *.
    destruct (Qle_bool (2 ^ emax binary64) (Qabs x)) eqn:E64; [|reflexivity].
    apply Qle_bool_iff in E64.
    assert (Hp : (2 ^ emax binary32 <= 2 ^ emax binary64)%Q)
      by (apply pow2_le; simpl; lia).
    assert (H' : (2 ^ emax binary32 <= Qabs x)%Q)
      by (eapply Qle_trans; eassumption).
    apply Qle_bool_iff in H'. congruence.
Qed.

Lemma assign_gain v :
  AudioParam_assign gain_range v =
  match to_float v with
  | Some q => ret {| value := q |}
  | None => throw TypeError
  end.
Proof. reflexivity. Qed.

Lemma assign_0 : AudioParam_assign gain_range (Fin 0) = ret {| value := 0 |}.
Proof. now rewrite assign_gain, to_float_0. Qed.

Lemma assign_1 : AudioParam_assign gain_range (Fin 1) = ret {| value := 1 |}.
Proof. now rewrite assign_gain, to_float_1. Qed.


(** ** The monad and the heap primitives *)

Lemma deref_Some {A} (sel : heap -> list A) r h a :
  sel h !! r = Some a -> deref sel r h = (Normal a, h).
Proof. intros E. unfold deref. now rewrite E. Qed.

Lemma deref_None {A} (sel : heap -> list A) r h :
  sel h !! r = None -> deref sel r h = (Throw BadRef, h).
Proof. intros E. unfold deref. now rewrite E. Qed.

Lemma bind_Normal {A B} (m : M A) (k : A -> M B) h a h' :
  m h = (Normal a, h') -> bind m k h = k a h'.
Proof. intros E. unfold bind. now rewrite E. Qed.

Lemma bind_Throw {A B} (m : M A) (k : A -> M B) h e h' :
  m h = (Throw e, h') -> bind m k h = (Throw e, h').
Proof. intros E. unfold bind. now rewrite E. Qed.

Lemma update_channel_Some r f h c :
  h_channels h !! r = Some c ->
  update_channel r f h =
    (Normal tt, with_channels (<[r := f c]> (h_channels h)) h).
Proof.
  intros E. unfold update_channel.
  now rewrite (bind_Normal _ _ _ _ _ (deref_Some h_channels _ _ _ E)).
Qed.

Lemma update_channel_None r f h :
  h_channels h !! r = None -> update_channel r f h = (Throw BadRef, h).
Proof.
  intros E. unfold update_channel.
  now rewrite (bind_Throw _ _ _ _ _ (deref_None h_channels _ _ E)).
Qed.

Lemma update_element_Some r f h e :
  h_elements h !! r = Some e ->
  update_element r f h =
    (Normal tt, with_elements (<[r := f e]> (h_elements h)) h).
Proof.
  intros E. unfold update_element.
  now rewrite (bind_Normal _ _ _ _ _ (deref_Some h_elements _ _ _ E)).
Qed.

Lemma update_element_None r f h :
  h_elements h !! r = None -> update_element r f h = (Throw BadRef, h).
Proof.
  intros E. unfold update_element.
  now rewrite (bind_Throw _ _ _ _ _ (deref_None h_elements _ _ E)).
Qed.

Lemma update_mixer_Some r f h m :
  h_mixers h !! r = Some m ->
  update_mixer r f h =
    (Normal tt, with_mixers (<[r := f m]> (h_mixers h)) h).
Proof.
  intros E. unfold update_mixer.
  now rewrite (bind_Normal _ _ _ _ _ (deref_Some h_mixers _ _ _ E)).
Qed.

Lemma update_track_Some r f h t :
  h_tracks h !! r = Some t ->
  update_track r f h =
    (Normal tt, with_tracks (<[r := f t]> (h_tracks h)) h).
Proof.
  intros E. unfold update_track.
  now rewrite (bind_Normal _ _ _ _ _ (deref_Some h_tracks _ _ _ E)).
Qed.

Lemma update_track_None r f h :
  h_tracks h !! r = None -> update_track r f h = (Throw BadRef, h).
Proof.
  intros E. unfold update_track.
  now rewrite (bind_Throw _ _ _ _ _ (deref_None h_tracks _ _ E)).
Qed.

Lemma lookup_snoc {A} (l : list A) (x : A) : (l ++ [x]) !! length l = Some x.
Proof. rewrite lookup_app_r by lia. now rewrite Nat.sub_diag. Qed.

Lemma insert_snoc {A} (l : list A) (x y : A) :
  <[length l := y]> (l ++ [x]) = l ++ [y].
Proof. rewrite insert_app_r_alt by lia. now rewrite Nat.sub_diag. Qed.

(** ** [findIndex] and array reads *)

Lemma findIndex_from_absent {A} (p : A -> bool) l i :
  (forall x, x ∈ l -> p x = false) -> findIndex_from p l i = (-1)%Z.
Proof.
  revert i. induction l as [|x l IH]; intros i Hall; simpl; [reflexivity|].
  rewrite (Hall x) by apply list_elem_of_here.
  apply IH. intros y Hy. apply Hall. now apply list_elem_of_further.
Qed.

Lemma findIndex_from_first {A} (p : A -> bool) l1 x l2 i :
  (forall y, y ∈ l1 -> p y = false) -> p x = true ->
  findIndex_from p (l1 ++ x :: l2) i = (i + Z.of_nat (length l1))%Z.
Proof.
  revert i. induction l1 as [|y l1 IH]; intros i Hall Hx; simpl.
  - rewrite Hx. lia.
  - rewrite (Hall y) by apply list_elem_of_here.
    rewrite IH; [lia| |assumption].
    intros z Hz. apply Hall. now apply list_elem_of_further.
Qed.

Lemma findIndex_from_range {A} (p : A -> bool) l i :
  (0 <= i)%Z ->
  findIndex_from p l i = (-1)%Z \/
  (i <= findIndex_from p l i < i + Z.of_nat (length l))%Z.
Proof.
  revert i. induction l as [|x l IH]; intros i Hi; simpl; [now left|].
  destruct (p x); [right; lia|].
  destruct (IH (i + 1)%Z) as [E|E]; [lia|now left|right; lia].
Qed.

Lemma array_get_absent {A} (l : list A) : array_get l (-1) = None.
Proof. reflexivity. Qed.

Lemma array_get_middle {A} (l1 : list A) x l2 :
  array_get (l1 ++ x :: l2) (Z.of_nat (length l1)) = Some x.
Proof.
  unfold array_get.
  destruct (Z.ltb_spec (Z.of_nat (length l1)) 0) as [Hneg|_]; [lia|].
  rewrite Nat2Z.id. apply list_lookup_middle. reflexivity.
Qed.

(** ** [toString] *)

Lemma toString_nonempty n : toString n <> "".
Proof.
  unfold toString, NilZero.string_of_uint.
  destruct (Nat.to_uint n); simpl; discriminate.
Qed.


(** ** AudioMixer *)

Lemma addChannel_eq h this id' m :
  h_mixers h !! this = Some m ->
  Mixer.addChannel this id' h =
    (Normal (length (h_channels h)),
     with_mixers
       (<[this := set_channels (channels m ++ [length (h_channels h)]) m]>
          (h_mixers h))
       (with_channels
          (h_channels h ++
             [set_id (or_string id' (toString (length (channels m))))
                (Channel.fresh this)]) h)).
Proof.
  intros Hm. unfold Mixer.addChannel, Channel.new.
  unfold bind at 1. unfold bind at 1.
  rewrite (deref_Some h_mixers _ _ _ Hm).
  unfold alloc_channel.
  unfold bind at 1.
  rewrite (deref_Some h_mixers this _ m) by exact Hm.
  unfold bind at 1.
  erewrite update_channel_Some by (simpl; apply lookup_snoc).
  unfold bind at 1.
  erewrite update_mixer_Some by (simpl; exact Hm).
  unfold ret, with_mixers, with_channels. simpl.
  rewrite insert_snoc. reflexivity.
Qed.

Lemma getChannel_eq h this s m :
  h_mixers h !! this = Some m ->
  Mixer.getChannel this s h =
    (Normal
       (or_null
          (array_get (channels m)
             (findIndex (Mixer.has_id h s) (channels m)))), h).
Proof.
  intros Hm. unfold Mixer.getChannel.
  now rewrite (bind_Normal _ _ _ _ _ (deref_Some h_mixers _ _ _ Hm)).
Qed.

(** What one [addChannel] does to the heap. *)
Lemma addChannel_effect h this id' m :
  h_mixers h !! this = Some m ->
  exists h',
    Mixer.addChannel this id' h = (Normal (length (h_channels h)), h') /\
    h_mixers h' !! this =
      Some (set_channels (channels m ++ [length (h_channels h)]) m) /\
    h_channels h' =
      h_channels h ++
        [set_id (or_string id' (toString (length (channels m))))
           (Channel.fresh this)].
Proof.
  intros Hm. eexists. split; [apply (addChannel_eq _ _ _ _ Hm)|].
  split; [|reflexivity]. simpl.
  apply list_lookup_insert_eq. now apply lookup_lt_Some in Hm.
Qed.

(** C6: on every mixer, three calls of [addChannel( )] without an id answer
    three new channels, appended to the channel list in the order of
    creation, whose ids are the decimal forms of the positions they take;
    so on a mixer that holds no channel before them the ids are "0", "1"
    and "2" in creation order, and [getChannel( "1" )] then answers the
    second channel created. *)
Theorem default_ids_follow_creation_order h m mx :
  h_mixers h !! m = Some mx ->
  exists a b c h',
    (let* a := Mixer.addChannel m None in
     let* b := Mixer.addChannel m None in
     let* c := Mixer.addChannel m None in
     ret (a, b, c)) h = (Normal (a, b, c), h') /\
    a < b < c /\
    channels <$> h_mixers h' !! m = Some (channels mx ++ [a; b; c]) /\
    id_of a h' = Some (toString (length (channels mx))) /\
    id_of b h' = Some (toString (S (length (channels mx)))) /\
    id_of c h' = Some (toString (S (S (length (channels mx))))) /\
    (channels mx = [] ->
     id_of a h' = Some "0" /\
     id_of b h' = Some "1" /\
     id_of c h' = Some "2" /\
     Mixer.getChannel m "1" h' = (Normal (Obj b), h')).
Proof.
  intros Hm.
  destruct (addChannel_effect h m None mx Hm) as (h1 & E1 & M1 & C1).
  destruct (addChannel_effect h1 m None _ M1) as (h2 & E2 & M2 & C2).
  destruct (addChannel_effect h2 m None _ M2) as (h3 & E3 & M3 & C3).
  simpl in M2, M3, C1, C2, C3.
  set (k := length (channels mx)) in *.
  assert (K1 : forall x : nat, length (channels mx ++ [x]) = S k)
    by (intros x; rewrite length_app; simpl; unfold k; lia).
  assert (K2 : forall x y : nat, length ((channels mx ++ [x]) ++ [y]) = S (S k))
    by (intros x y; rewrite length_app, K1; simpl; lia).
  rewrite ?K2, ?K1 in C2. rewrite ?K2, ?K1 in C3.
  set (n := length (h_channels h)) in *.
  assert (L1 : length (h_channels h1) = S n).
  { rewrite C1, length_app. simpl. unfold n. lia. }
  assert (L2 : length (h_channels h2) = S (S n)).
  { rewrite C2, length_app, L1. simpl. lia. }
  rewrite L1 in *. rewrite L2 in *.
  assert (I0 : id_of n h3 = Some (toString k)).
  { unfold id_of. rewrite C3, C2, C1.
    rewrite lookup_app_l by (rewrite !length_app; simpl; lia).
    rewrite lookup_app_l by (rewrite !length_app; simpl; lia).
    unfold n. now rewrite lookup_snoc. }
  assert (I1 : id_of (S n) h3 = Some (toString (S k))).
  { unfold id_of. rewrite C3, C2.
    rewrite lookup_app_l by (rewrite length_app, L1; simpl; lia).
    rewrite <- L1, lookup_snoc. reflexivity. }
  assert (I2 : id_of (S (S n)) h3 = Some (toString (S (S k)))).
  { unfold id_of. rewrite C3. rewrite <- L2, lookup_snoc. reflexivity. }
  assert (M : channels <$> h_mixers h3 !! m =
              Some (channels mx ++ [n; S n; S (S n)])).
  { rewrite M3. simpl. now rewrite <- !app_assoc. }
  exists n, (S n), (S (S n)), h3.
  split.
  { now rewrite (bind_Normal _ _ _ _ _ E1), (bind_Normal _ _ _ _ _ E2),
      (bind_Normal _ _ _ _ _ E3). }
  split; [lia|]. split; [exact M|]. do 3 (split; [assumption|]).
  intros Hnil. assert (k = 0) as Hk by (unfold k; now rewrite Hnil).
  rewrite Hk in I0, I1, I2. do 3 (split; [assumption|]).
  rewrite (getChannel_eq _ _ "1" _ M3). simpl. rewrite Hnil. simpl.
  unfold findIndex. simpl. unfold Mixer.has_id.
  apply fmap_Some in I0 as (c0 & E0 & I0).
  apply fmap_Some in I1 as (c1 & E1' & I1).
  rewrite E0, E1', <- I0, <- I1. reflexivity.
Qed.


Lemma has_id_true h s c : Mixer.has_id h s c = true <-> id_of c h = Some s.
Proof.
  unfold Mixer.has_id, id_of. destruct (h_channels h !! c) as [ch|]; cbn.
  - rewrite String.eqb_eq. split; [now intros ->|now intros [= ->]].
  - split; discriminate.
Qed.

Lemma has_id_false h s c : Mixer.has_id h s c = false <-> id_of c h <> Some s.
Proof.
  rewrite <- has_id_true. destruct (Mixer.has_id h s c); split; congruence.
Qed.

(** C9: [getChannel( id )] never throws on a mixer; it answers [null] when
    no channel of the mixer has that id, and the first channel in insertion
    order that has it otherwise, whatever follows that channel in the list. *)
Theorem getChannel_absent_or_first h m mx s :
  h_mixers h !! m = Some mx ->
  (exists r, Mixer.getChannel m s h = (Normal r, h)) /\
  ((forall c, c ∈ channels mx -> id_of c h <> Some s) ->
   Mixer.getChannel m s h = (Normal Null, h)) /\
  (forall l1 c l2,
     channels mx = l1 ++ c :: l2 ->
     (forall c', c' ∈ l1 -> id_of c' h <> Some s) ->
     id_of c h = Some s ->
     Mixer.getChannel m s h = (Normal (Obj c), h)).
Proof.
  intros Hm. rewrite (getChannel_eq _ _ s _ Hm). split; [eauto|]. split.
  - intros Hall. unfold findIndex.
    rewrite findIndex_from_absent; [reflexivity|].
    intros c Hc. now apply has_id_false, Hall.
  - intros l1 c l2 Hl Hbefore Hc. rewrite Hl. unfold findIndex.
    rewrite findIndex_from_first.
    + rewrite Z.add_0_l, array_get_middle. reflexivity.
    + intros c' Hc'. now apply has_id_false, Hbefore.
    + now apply has_id_true.
Qed.

(** C10: [addChannel( "" )] does not assign the empty id: the empty string
    is falsy, so the id is the length of the channel list at insertion time
    written in decimal. *)
Theorem empty_id_falls_back_to_index h m mx :
  h_mixers h !! m = Some mx ->
  exists c h',
    Mixer.addChannel m (Some "") h = (Normal c, h') /\
    id_of c h' = Some (toString (length (channels mx))) /\
    id_of c h' <> Some "".
Proof.
  intros Hm. destruct (addChannel_effect h m (Some "") mx Hm) as (h' & E & _ & C).
  exists (length (h_channels h)), h'. split; [exact E|].
  assert (I : id_of (length (h_channels h)) h' =
              Some (toString (length (channels mx)))).
  { unfold id_of. rewrite C, lookup_snoc. reflexivity. }
  split; [exact I|]. rewrite I. intros [= E']. now apply toString_nonempty in E'.
Qed.


(** ** Mute and volume *)

Lemma set_muted_eq h c ch status :
  h_channels h !! c = Some ch ->
  Channel.set_muted c status h =
    (Normal tt,
     with_channels
       (<[c := set_outputNode
                 {| gain := {| value := if status then 0%Q else 1%Q |} |} ch]>
          (h_channels h)) h).
Proof.
  intros Hc. unfold Channel.set_muted.
  destruct status; cbn [Bool.eqb]; rewrite ?assign_0, ?assign_1;
    unfold bind, ret; now rewrite (update_channel_Some _ _ _ _ Hc).
Qed.

Lemma set_volume_eq h c ch v q :
  h_channels h !! c = Some ch ->
  to_float v = Some q ->
  Channel.set_volume c v h =
    (Normal tt,
     with_channels
       (<[c := set_gainNode {| gain := {| value := q |} |} ch]>
          (h_channels h)) h).
Proof.
  intros Hc Hv. unfold Channel.set_volume. rewrite assign_gain, Hv.
  unfold bind, ret. now rewrite (update_channel_Some _ _ _ _ Hc).
Qed.

(** A field that an update leaves alone reads the same in every channel. *)
Lemma update_channel_frame {A} (proj : AudioChannel -> A) f c c' h :
  (forall ch, proj (f ch) = proj ch) ->
  proj <$> h_channels (exec (update_channel c f) h) !! c' =
  proj <$> h_channels h !! c'.
Proof.
  intros Hf. unfold exec.
  destruct (h_channels h !! c) as [ch|] eqn:Hc.
  - rewrite (update_channel_Some _ _ _ _ Hc). cbn [snd with_channels h_channels].
    destruct (decide (c = c')) as [Heq|Hne]; [subst c'|].
    + rewrite list_lookup_insert_eq by (now apply lookup_lt_Some in Hc).
      rewrite Hc. cbn. now rewrite Hf.
    + now rewrite list_lookup_insert_ne.
  - now rewrite (update_channel_None _ _ _ Hc).
Qed.

(** The same for an update that follows an assignment, whether the
    assignment is accepted or refused. *)
Lemma assigned_update_frame {A} (proj : AudioChannel -> A) r v
    (f : AudioParam -> AudioChannel -> AudioChannel) c c' h :
  (forall p ch, proj (f p ch) = proj ch) ->
  proj <$> h_channels
             (exec (let* p := AudioParam_assign r v in
                    update_channel c (f p)) h) !! c' =
  proj <$> h_channels h !! c'.
Proof.
  intros Hf. unfold AudioParam_assign.
  destruct (to_float v) as [q|]; unfold bind, ret, throw; [|reflexivity].
  apply (update_channel_frame proj). intros ch. apply Hf.
Qed.

Lemma set_muted_frame {A} (proj : AudioChannel -> A) c status c' h :
  (forall g ch, proj (set_outputNode g ch) = proj ch) ->
  proj <$> h_channels (exec (Channel.set_muted c status) h) !! c' =
  proj <$> h_channels h !! c'.
Proof.
  intros Hf. unfold Channel.set_muted.
  apply (assigned_update_frame proj _ _
           (fun p => set_outputNode {| gain := p |})).
  intros p ch. apply Hf.
Qed.

Lemma set_volume_frame {A} (proj : AudioChannel -> A) c v c' h :
  (forall g ch, proj (set_gainNode g ch) = proj ch) ->
  proj <$> h_channels (exec (Channel.set_volume c v) h) !! c' =
  proj <$> h_channels h !! c'.
Proof.
  intros Hf. unfold Channel.set_volume.
  apply (assigned_update_frame proj _ _
           (fun p => set_gainNode {| gain := p |})).
  intros p ch. apply Hf.
Qed.

(** C7 (as the code has it): on every channel, [muted = true], then
    [volume = v] for a number [v] that converts to the binary32 value [q],
    then [muted = false] leaves the output gate at exactly 1 and the
    channel gain at [q], the binary32 value nearest to [v], which is [v]
    when [v] is a binary32 value; the [muted] setter never changes the
    channel gain of any channel and the [volume] setter never changes an
    output gate. *)
Theorem mute_and_volume_are_independent h c ch (v : number) (q : Q) :
  h_channels h !! c = Some ch ->
  to_float v = Some q ->
  let script :=
    (Channel.set_muted c true;;
     Channel.set_volume c v;;
     Channel.set_muted c false) in
  eval script h = Normal tt /\
  output_gate c (exec script h) = Some 1%Q /\
  channel_gain c (exec script h) = Some q /\
  (forall x, v = Fin x -> q = round binary32 x) /\
  (forall x, v = Fin x -> is_float x = true -> (q == x)%Q) /\
  (forall status c',
     channel_gain c' (exec (Channel.set_muted c status) h) =
     channel_gain c' h) /\
  (forall n c',
     output_gate c' (exec (Channel.set_volume c n) h) = output_gate c' h).
Proof.
  intros Hc Hv script.
  assert (Hlt : c < length (h_channels h)) by now apply lookup_lt_Some in Hc.
  assert (E : script h =
    (Normal tt,
     with_channels
       (<[c := set_outputNode {| gain := {| value := 1 |} |}
                 (set_gainNode {| gain := {| value := q |} |}
                    (set_outputNode {| gain := {| value := 0 |} |} ch))]>
          (h_channels h)) h)).
  { unfold script.
    rewrite (bind_Normal _ _ _ _ _ (set_muted_eq _ _ _ true Hc)).
    erewrite bind_Normal;
      [|apply set_volume_eq;
        [simpl; now apply list_lookup_insert_eq|exact Hv]].
    erewrite set_muted_eq;
      [|simpl; apply list_lookup_insert_eq; now rewrite length_insert].
    simpl. unfold with_channels. simpl.
    now rewrite !list_insert_insert_eq. }
  destruct (to_float_Fin _ _ Hv) as (x0 & Ex0 & Eq0 & _).
  unfold eval, exec, output_gate, channel_gain. rewrite E. simpl.
  rewrite list_lookup_insert_eq by assumption. repeat split.
  - intros x Ex. congruence.
  - intros x Ex Hx. apply is_float_iff in Hx as [Hx _].
    replace x0 with x in Eq0 by congruence. now rewrite Eq0.
  - intros status c'.
    apply (set_muted_frame (fun ch => value (gain (gainNode ch)))).
    reflexivity.
  - intros n c'.
    apply (set_volume_frame (fun ch => value (gain (outputNode ch)))).
    reflexivity.
Qed.

(** The counterexample to C7 as the spec words it: after [volume = 0.7]
    the channel gain is the binary32 value 0.699999988079071044921875, not
    0.7. *)
Lemma volume_seven_tenths_is_rounded :
  let script :=
    (Channel.set_muted 0 true;;
     Channel.set_volume 0 (literal (7 # 10));;
     Channel.set_muted 0 false) in
  eval script studio = Normal tt /\
  channel_gain 0 (exec script studio) = Some (11744051 # 16777216)%Q /\
  eval (Channel.get_volume 0) (exec script studio) =
    Normal (11744051 # 16777216)%Q /\
  ~ (11744051 # 16777216 == 7 # 10)%Q.
Proof. vm_compute. repeat split. discriminate. Qed.


(** ** The constructor of AudioTrack *)

Lemma Track_new_string s audioContext h :
  Track.new (inr s) audioContext h =
    (Normal (length (h_tracks h)),
     with_tracks
       (h_tracks h ++
          [{| audioElement := length (h_elements h);
              sourceNode := {| outputs := [] |} |}])
       (with_elements
          (h_elements h ++
             [{| src := s; controls := false; el_volume := 1;
                 el_loaded := true; el_source := true |}]) h)).
Proof.
  unfold Track.new, alloc_element, createMediaElementSource, update_element,
    alloc_track, bind, deref, modify, ret.
  cbn [h_elements with_elements]. rewrite lookup_snoc.
  cbn [el_source h_elements with_elements]. rewrite lookup_snoc.
  cbn. now rewrite insert_snoc.
Qed.

Lemma Track_new_element el e audioContext h :
  h_elements h !! el = Some e -> el_source e = false ->
  Track.new (inl el) audioContext h =
    (Normal (length (h_tracks h)),
     with_tracks
       (h_tracks h ++
          [{| audioElement := el; sourceNode := {| outputs := [] |} |}])
       (with_elements (<[el := set_el_source true e]> (h_elements h)) h)).
Proof.
  intros He Hs. unfold Track.new, createMediaElementSource.
  unfold bind at 1. unfold ret at 1. unfold bind at 1.
  rewrite (bind_Normal _ _ _ _ _ (deref_Some h_elements _ _ _ He)), Hs.
  now rewrite (bind_Normal _ _ _ _ _ (update_element_Some _ _ _ _ He)).
Qed.

Lemma Track_new_captured el e audioContext h :
  h_elements h !! el = Some e -> el_source e = true ->
  Track.new (inl el) audioContext h = (Throw InvalidStateError, h).
Proof.
  intros He Hs. unfold Track.new, createMediaElementSource.
  unfold bind at 1. unfold ret at 1. unfold bind at 1.
  now rewrite (bind_Normal _ _ _ _ _ (deref_Some h_elements _ _ _ He)), Hs.
Qed.

Lemma Track_new_missing el audioContext h :
  h_elements h !! el = None ->
  Track.new (inl el) audioContext h = (Throw BadRef, h).
Proof.
  intros He. unfold Track.new, createMediaElementSource.
  unfold bind at 1. unfold ret at 1. unfold bind at 1.
  now rewrite (bind_Throw _ _ _ _ _ (deref_None h_elements _ _ He)).
Qed.

(** The constructor throws and changes nothing, or it appends a track whose
    port is not connected; it leaves mixers, channels, timers and promises
    alone. *)
Lemma Track_new_cases audioSource audioContext h :
  (exists e, Track.new audioSource audioContext h = (Throw e, h)) \/
  (exists el els,
     Track.new audioSource audioContext h =
       (Normal (length (h_tracks h)),
        with_tracks
          (h_tracks h ++
             [{| audioElement := el; sourceNode := {| outputs := [] |} |}])
          (with_elements els h))).
Proof.
  destruct audioSource as [el|s].
  - destruct (h_elements h !! el) as [e|] eqn:He.
    + destruct (el_source e) eqn:Hs.
      * left. eexists. now apply (Track_new_captured el e).
      * right. do 2 eexists. now apply (Track_new_element el e).
    + left. eexists. now apply Track_new_missing.
  - right. do 2 eexists. apply Track_new_string.
Qed.

(** ** AudioTrack.output *)

Lemma findIndex_from_minus_one {A} (p : A -> bool) l i :
  (0 <= i)%Z -> findIndex_from p l i = (-1)%Z ->
  forall x, x ∈ l -> p x = false.
Proof.
  revert i. induction l as [|y l IH]; intros i Hi E x Hx.
  - now apply not_elem_of_nil in Hx.
  - simpl in E. destruct (p y) eqn:Hy; [lia|].
    apply elem_of_cons in Hx as [->|Hx]; [exact Hy|].
    apply (IH (i + 1)%Z); [lia|exact E|exact Hx].
Qed.

Lemma findIndex_listed (t : nat) (l : list nat) :
  findIndex (fun x => Nat.eqb x t) l <> (-1)%Z <-> t ∈ l.
Proof.
  unfold findIndex. split.
  - intros Hi. destruct (decide (t ∈ l)) as [|Hn]; [assumption|].
    exfalso. apply Hi. apply findIndex_from_absent.
    intros x Hx. apply Nat.eqb_neq. intros ->. contradiction.
  - intros Hin E.
    pose proof (findIndex_from_minus_one _ _ _ (Z.le_refl 0) E t Hin) as F.
    simpl in F. now rewrite Nat.eqb_refl in F.
Qed.

Lemma output_listed h t c ch :
  h_channels h !! c = Some ch -> t ∈ tracks ch ->
  Track.output t c h = (Normal (Some true), h).
Proof.
  intros Hc Hin. unfold Track.output.
  rewrite (bind_Normal _ _ _ _ _ (deref_Some h_channels _ _ _ Hc)).
  apply findIndex_listed in Hin.
  destruct (Z.eqb_spec (findIndex (fun x => Nat.eqb x t) (tracks ch)) (-1));
    [contradiction|reflexivity].
Qed.

Lemma output_attach h t c ch tr :
  h_channels h !! c = Some ch -> t ∉ tracks ch ->
  h_tracks h !! t = Some tr ->
  Track.output t c h =
    (Normal None,
     with_channels (<[c := set_tracks (tracks ch ++ [t]) ch]> (h_channels h))
       (with_tracks
          (<[t := set_sourceNode {| outputs := [c] |} tr]> (h_tracks h)) h)).
Proof.
  intros Hc Hnin Ht. unfold Track.output.
  rewrite (bind_Normal _ _ _ _ _ (deref_Some h_channels _ _ _ Hc)).
  destruct (Z.eqb_spec (findIndex (fun x => Nat.eqb x t) (tracks ch)) (-1))
    as [_|Hne]; [|now apply findIndex_listed in Hne].
  assert (Hlt : t < length (h_tracks h)) by now apply lookup_lt_Some in Ht.
  simpl.
  rewrite (bind_Normal _ _ _ _ _ (update_track_Some _ _ _ _ Ht)).
  erewrite bind_Normal;
    [|apply update_track_Some; simpl; now apply list_lookup_insert_eq].
  erewrite bind_Normal; [|apply update_channel_Some; simpl; exact Hc].
  unfold ret, with_channels, with_tracks. simpl.
  now rewrite list_insert_insert_eq.
Qed.

Lemma output_dangling h t c ch :
  h_channels h !! c = Some ch -> t ∉ tracks ch -> h_tracks h !! t = None ->
  Track.output t c h = (Throw BadRef, h).
Proof.
  intros Hc Hnin Ht. unfold Track.output.
  rewrite (bind_Normal _ _ _ _ _ (deref_Some h_channels _ _ _ Hc)).
  destruct (Z.eqb_spec (findIndex (fun x => Nat.eqb x t) (tracks ch)) (-1))
    as [_|Hne]; [|now apply findIndex_listed in Hne].
  simpl. now rewrite (bind_Throw _ _ _ _ _ (update_track_None _ _ _ Ht)).
Qed.

(** After [output] on valid references the track is listed. *)
Lemma output_lists h t c ch tr :
  h_channels h !! c = Some ch -> h_tracks h !! t = Some tr ->
  exists ch',
    h_channels (exec (Track.output t c) h) !! c = Some ch' /\ t ∈ tracks ch'.
Proof.
  intros Hc Ht. unfold exec.
  destruct (decide (t ∈ tracks ch)) as [Hin|Hnin].
  - rewrite (output_listed _ _ _ _ Hc Hin). simpl. eauto.
  - rewrite (output_attach _ _ _ _ _ Hc Hnin Ht). simpl.
    eexists. split.
    + apply list_lookup_insert_eq. now apply lookup_lt_Some in Hc.
    + simpl. apply elem_of_app. right. apply list_elem_of_singleton. reflexivity.
Qed.

(** ** Attaching tracks *)

Lemma attach_exec via c t h :
  exec (attach via c t) h = exec (Track.output t c) h.
Proof.
  unfold exec, attach, Channel.input, Channel.addTrack, bind, ret.
  destruct via; destruct (Track.output t c h) as [[r|e] h']; reflexivity.
Qed.

Lemma attach_eval via c t h :
  eval (attach via c t) h = Normal tt <->
  exists r, eval (Track.output t c) h = Normal r.
Proof.
  unfold eval, attach, Channel.input, Channel.addTrack, bind, ret.
  destruct via; destruct (Track.output t c h) as [[r|e] h']; simpl;
    (split; [intros Hx; try discriminate; eauto
            |intros [r' Hr]; try discriminate; reflexivity]).
Qed.

(** C8: once a track is attached to a channel by [addTrack], [input] or
    [output], attaching it again by any of the three changes nothing: the
    heap, hence the length of the channel's track list, stays as it is,
    [output] answers [true] and the other two answer as usual. *)
Theorem attach_twice_is_noop h c t ch tr (via1 via2 : attachment) :
  h_channels h !! c = Some ch ->
  h_tracks h !! t = Some tr ->
  let h1 := exec (attach via1 c t) h in
  exec (attach via2 c t) h1 = h1 /\
  length <$> tracks_of c (exec (attach via2 c t) h1) =
    length <$> tracks_of c h1 /\
  eval (attach via2 c t) h1 = Normal tt /\
  eval (Track.output t c) h1 = Normal (Some true) /\
  eval (Channel.addTrack c t) h1 = Normal c /\
  eval (Channel.input c (SrcTrack t)) h1 = Normal t.
Proof.
  intros Hc Ht h1.
  destruct (output_lists h t c ch tr Hc Ht) as (ch' & Hc' & Hin).
  rewrite <- (attach_exec via1) in Hc'. fold h1 in Hc'.
  pose proof (output_listed h1 t c ch' Hc' Hin) as E.
  assert (E2 : exec (attach via2 c t) h1 = h1).
  { rewrite attach_exec. unfold exec. now rewrite E. }
  split; [exact E2|]. split; [now rewrite E2|].
  split; [apply attach_eval; exists (Some true); unfold eval; now rewrite E|].
  unfold eval, Channel.input, Channel.addTrack, bind. rewrite E. repeat split.
Qed.



(** ** Fades: what one expiry does *)

Lemma closure_of cb :
  cb = closure (direction_of cb) (target cb) (step_of cb) (settles cb).
Proof. now destruct cb. Qed.

Lemma fade_eq d h c ms :
  fade d c ms h =
    (Normal (length (h_promises h)),
     with_intervals
       (h_intervals h ++
          [{| handler :=
                closure d c (Channel.vpc_of (Channel.duration ms))
                  (length (h_promises h));
              delay := 2; due := (h_now h + 2)%Z; cleared := false |}])
       (with_promises (h_promises h ++ [Pending]) h)).
Proof. now destruct d. Qed.

(** The step, for a duration that is finite and not zero: the quotient is
    rounded to binary64, and so is the product. *)
Lemma vpc_of_finite (ms q : Q) :
  ~ (ms == 0)%Q -> Channel.vpc_of (Fin ms) = Fin q ->
  q = round binary64 (round binary64 (2 / ms) * 10).
Proof.
  intros Hms. unfold Channel.vpc_of, ndiv.
  destruct (Qeq_bool ms 0) eqn:E; [now apply Qeq_bool_eq in E|].
  unfold finite.
  destruct (overflows binary64 (round binary64 (2 / ms)));
    [destruct (Qle_bool 0 (2 / ms)); simpl; discriminate|].
  unfold nmul, finite.
  destruct (overflows binary64 _);
    [destruct (Qle_bool 0 _); discriminate|].
  now intros [= <-].
Qed.

Lemma run_callback_missing h int d c v res :
  h_channels h !! c = None ->
  run_callback int (closure d c v res) h = (Throw BadRef, h).
Proof.
  intros Hc.
  destruct d; simpl; unfold Channel.fadeOut_tick, Channel.fadeIn_tick;
    now rewrite (bind_Throw _ _ _ _ _ (deref_None h_channels _ _ Hc)).
Qed.

Lemma run_callback_ended h int d c ch v res :
  h_channels h !! c = Some ch ->
  reached d (value (gain (inputNode ch))) = true ->
  run_callback int (closure d c v res) h = (Normal tt, ended d int c ch res h).
Proof.
  intros Hc Hg.
  destruct d; simpl in *; unfold Channel.fadeOut_tick, Channel.fadeIn_tick;
    rewrite (bind_Normal _ _ _ _ _ (deref_Some h_channels _ _ _ Hc)), Hg;
    rewrite ?assign_0, ?assign_1; unfold bind at 1; unfold ret at 1;
    now rewrite (bind_Normal _ _ _ _ _ (update_channel_Some _ _ _ _ Hc)).
Qed.

Lemma run_callback_moved h int d c ch v res g :
  h_channels h !! c = Some ch ->
  reached d (value (gain (inputNode ch))) = false ->
  to_float (stepped d (value (gain (inputNode ch))) v) = Some g ->
  run_callback int (closure d c v res) h = (Normal tt, moved c ch g h).
Proof.
  intros Hc Hg Hv.
  destruct d; simpl in *; unfold Channel.fadeOut_tick, Channel.fadeIn_tick;
    rewrite (bind_Normal _ _ _ _ _ (deref_Some h_channels _ _ _ Hc)), Hg;
    rewrite assign_gain, Hv; unfold bind at 1; unfold ret at 1;
    now rewrite (update_channel_Some _ _ _ _ Hc).
Qed.

Lemma run_callback_refused h int d c ch v res :
  h_channels h !! c = Some ch ->
  reached d (value (gain (inputNode ch))) = false ->
  to_float (stepped d (value (gain (inputNode ch))) v) = None ->
  run_callback int (closure d c v res) h = (Throw TypeError, h).
Proof.
  intros Hc Hg Hv.
  destruct d; simpl in *; unfold Channel.fadeOut_tick, Channel.fadeIn_tick;
    rewrite (bind_Normal _ _ _ _ _ (deref_Some h_channels _ _ _ Hc)), Hg;
    rewrite assign_gain, Hv; reflexivity.
Qed.

Lemma fire_active h int t :
  h_intervals h !! int = Some t -> cleared t = false ->
  fire int h = run_callback int (handler t) (armed int t h).
Proof.
  intros Hi Hc. unfold fire.
  rewrite (bind_Normal _ _ _ _ _ (deref_Some h_intervals _ _ _ Hi)).
  now rewrite Hc.
Qed.

Lemma turn_cases int h : expiry int h (turn int h).
Proof.
  unfold turn, exec.
  destruct (h_intervals h !! int) as [t|] eqn:Hi.
  2:{ unfold fire. rewrite (bind_Throw _ _ _ _ _ (deref_None h_intervals _ _ Hi)).
      apply expiry_idle. now left. }
  destruct (cleared t) eqn:Hcl.
  { unfold fire.
    rewrite (bind_Normal _ _ _ _ _ (deref_Some h_intervals _ _ _ Hi)), Hcl.
    apply expiry_idle. right. eauto. }
  rewrite (fire_active _ _ _ Hi Hcl), (closure_of (handler t)).
  destruct (h_channels h !! target (handler t)) as [ch|] eqn:Hc.
  2:{ rewrite run_callback_missing by exact Hc.
      apply (expiry_failed int h t Hi Hcl). now left. }
  assert (Hc' : h_channels (armed int t h) !! target (handler t) = Some ch)
    by exact Hc.
  destruct (reached (direction_of (handler t)) (value (gain (inputNode ch))))
    eqn:Hg.
  { rewrite (run_callback_ended _ _ _ _ _ _ _ Hc' Hg).
    now apply expiry_ended. }
  destruct (to_float
              (stepped (direction_of (handler t))
                 (value (gain (inputNode ch))) (step_of (handler t))))
    as [g|] eqn:Hv.
  { rewrite (run_callback_moved _ _ _ _ _ _ _ _ Hc' Hg Hv).
    now apply expiry_moved. }
  rewrite (run_callback_refused _ _ _ _ _ _ _ Hc' Hg Hv).
  apply (expiry_failed int h t Hi Hcl). right. now exists ch.
Qed.

(** ** Preorders respected by the methods *)

Section Respects.
Variable R : heap -> heap -> Prop.
Hypothesis R_refl : forall h, R h h.
Hypothesis R_trans : forall h1 h2 h3, R h1 h2 -> R h2 h3 -> R h1 h3.

Lemma respects_ret {A} (a : A) : respects R (ret a).
Proof. intros h. apply R_refl. Qed.

Lemma respects_throw {A} e : respects R (@throw A e).
Proof. intros h. apply R_refl. Qed.

Lemma respects_gets {A} (f : heap -> A) : respects R (gets f).
Proof. intros h. apply R_refl. Qed.

Lemma respects_deref {A} (sel : heap -> list A) r : respects R (deref sel r).
Proof. intros h. unfold deref. destruct (sel h !! r); apply R_refl. Qed.

Lemma respects_bind {A B} (m : M A) (k : A -> M B) :
  respects R m -> (forall a, respects R (k a)) -> respects R (bind m k).
Proof.
  intros Hm Hk h. unfold bind. specialize (Hm h).
  destruct (m h) as [[a|e] h']; simpl in *; [|exact Hm].
  eapply R_trans; [exact Hm|apply Hk].
Qed.

Lemma respects_assign r v : respects R (AudioParam_assign r v).
Proof.
  unfold AudioParam_assign.
  destruct (to_float v); [apply respects_ret|apply respects_throw].
Qed.
End Respects.

(** Splits a method into its primitives; [prim] settles those. *)
Ltac respects_with Hrefl Htrans prim :=
  repeat
    (cbv beta zeta;
     lazymatch goal with
     | |- respects _ (ret _) => apply (respects_ret _ Hrefl)
     | |- respects _ (throw _) => apply (respects_throw _ Hrefl)
     | |- respects _ (gets _) => apply (respects_gets _ Hrefl)
     | |- respects _ (deref _ _) => apply (respects_deref _ Hrefl)
     | |- respects _ (AudioParam_assign _ _) =>
         apply (respects_assign _ Hrefl)
     | |- respects _ (createMediaElementSource _ _) =>
         unfold createMediaElementSource
     | |- respects _ (bind _ _) => apply (respects_bind _ Htrans); [|intros ?]
     | |- respects _ (match ?x with _ => _ end) => destruct x
     | |- _ => prim
     end).

(** *** Calm methods *)

Lemma calm_refl h : calm h h.
Proof. repeat split; lia. Qed.

Lemma calm_trans h1 h2 h3 : calm h1 h2 -> calm h2 h3 -> calm h1 h3.
Proof.
  intros (I1 & P1 & N1 & L1) (I2 & P2 & N2 & L2).
  repeat split; [congruence..|lia].
Qed.

Lemma calm_alloc_element e : respects calm (alloc_element e).
Proof. intros h. repeat split; simpl; lia. Qed.

Lemma calm_update_element r f : respects calm (update_element r f).
Proof.
  intros h. destruct (h_elements h !! r) as [e|] eqn:E.
  - rewrite (update_element_Some _ _ _ _ E). repeat split; simpl; lia.
  - rewrite (update_element_None _ _ _ E). apply calm_refl.
Qed.

Lemma calm_alloc_mixer m : respects calm (alloc_mixer m).
Proof. intros h. repeat split; simpl; lia. Qed.

Lemma calm_alloc_channel c : respects calm (alloc_channel c).
Proof. intros h. repeat split; simpl. rewrite length_app. lia. Qed.

Lemma calm_alloc_track t : respects calm (alloc_track t).
Proof. intros h. repeat split; simpl; lia. Qed.

Lemma calm_AudioContext : respects calm AudioContext.
Proof. intros h. repeat split; simpl; lia. Qed.

Lemma calm_update_mixer r f : respects calm (update_mixer r f).
Proof.
  intros h. destruct (h_mixers h !! r) as [m|] eqn:E.
  - rewrite (update_mixer_Some _ _ _ _ E). repeat split; simpl; lia.
  - unfold update_mixer.
    rewrite (bind_Throw _ _ _ _ _ (deref_None h_mixers _ _ E)). apply calm_refl.
Qed.

Lemma calm_update_channel r f : respects calm (update_channel r f).
Proof.
  intros h. destruct (h_channels h !! r) as [c|] eqn:E.
  - rewrite (update_channel_Some _ _ _ _ E). repeat split; simpl.
    rewrite length_insert. lia.
  - rewrite (update_channel_None _ _ _ E). apply calm_refl.
Qed.

Lemma calm_update_track r f : respects calm (update_track r f).
Proof.
  intros h. destruct (h_tracks h !! r) as [t|] eqn:E.
  - rewrite (update_track_Some _ _ _ _ E). repeat split; simpl; lia.
  - rewrite (update_track_None _ _ _ E). apply calm_refl.
Qed.

Ltac calm_prim :=
  idtac;
  lazymatch goal with
  | |- respects _ (alloc_element _) => apply calm_alloc_element
  | |- respects _ (update_element _ _) => apply calm_update_element
  | |- respects _ (alloc_mixer _) => apply calm_alloc_mixer
  | |- respects _ (alloc_channel _) => apply calm_alloc_channel
  | |- respects _ (alloc_track _) => apply calm_alloc_track
  | |- respects _ AudioContext => apply calm_AudioContext
  | |- respects _ (update_mixer _ _) => apply calm_update_mixer
  | |- respects _ (update_channel _ _) => apply calm_update_channel
  | |- respects _ (update_track _ _) => apply calm_update_track
  end.

Ltac calm_method := respects_with calm_refl calm_trans calm_prim.

Lemma calm_output t c : respects calm (Track.output t c).
Proof. unfold Track.output. calm_method. Qed.

(** Every action is calm, the fades and the expiries apart. *)
Lemma perform_calm a h :
  match a with
  | Fade _ _ _ | Expire _ => True
  | _ => calm h (perform a h)
  end.
Proof.
  destruct a; try exact I; unfold perform, exec;
    match goal with |- calm _ (snd (?m _)) =>
      enough (respects calm m) as Hm by apply Hm end;
    unfold Mixer.new, createAudioMixer, Mixer.new, Mixer.addChannel,
      Mixer.getChannel, Mixer.set_volume, Channel.new, Track.new,
      Channel.addTrack, Channel.input, Channel.addTrack, Track.new,
      Channel.set_pan, Channel.set_volume, Channel.set_lowEQ,
      Channel.set_midEQ, Channel.set_highEQ, Channel.set_muted;
    calm_method; try apply calm_output.
  all: unfold Channel.addTrack; calm_method; apply calm_output.
Qed.

(** *** The output port of a track *)

Lemma keeps_single_port_refl h : keeps_single_port h h.
Proof. now intros H. Qed.

Lemma keeps_single_port_trans h1 h2 h3 :
  keeps_single_port h1 h2 -> keeps_single_port h2 h3 ->
  keeps_single_port h1 h3.
Proof. unfold keeps_single_port. tauto. Qed.

Lemma same_tracks_single_port h h' :
  h_tracks h' = h_tracks h -> keeps_single_port h h'.
Proof. intros E H t tr. rewrite E. apply H. Qed.

Lemma port_alloc_element e : respects keeps_single_port (alloc_element e).
Proof. intros h. now apply same_tracks_single_port. Qed.

Lemma port_alloc_mixer m : respects keeps_single_port (alloc_mixer m).
Proof. intros h. now apply same_tracks_single_port. Qed.

Lemma port_alloc_channel c : respects keeps_single_port (alloc_channel c).
Proof. intros h. now apply same_tracks_single_port. Qed.

Lemma port_AudioContext : respects keeps_single_port AudioContext.
Proof. intros h. now apply same_tracks_single_port. Qed.

Lemma port_update_mixer r f : respects keeps_single_port (update_mixer r f).
Proof.
  intros h. apply same_tracks_single_port.
  destruct (h_mixers h !! r) as [m|] eqn:E.
  - now rewrite (update_mixer_Some _ _ _ _ E).
  - unfold update_mixer.
    now rewrite (bind_Throw _ _ _ _ _ (deref_None h_mixers _ _ E)).
Qed.

Lemma port_update_channel r f :
  respects keeps_single_port (update_channel r f).
Proof.
  intros h. apply same_tracks_single_port.
  destruct (h_channels h !! r) as [c|] eqn:E.
  - now rewrite (update_channel_Some _ _ _ _ E).
  - now rewrite (update_channel_None _ _ _ E).
Qed.

Lemma port_new_track audioSource audioContext :
  respects keeps_single_port (Track.new audioSource audioContext).
Proof.
  intros h H t tr.
  destruct (Track_new_cases audioSource audioContext h)
    as [(e & ->)|(el & els & ->)]; [apply H|]. simpl.
  intros Ht. apply lookup_app_Some in Ht as [Ht|[_ Ht]]; [now apply (H t)|].
  apply list_lookup_singleton_Some in Ht as [_ <-]. simpl. lia.
Qed.

Lemma port_output t c : respects keeps_single_port (Track.output t c).
Proof.
  intros h.
  destruct (h_channels h !! c) as [ch|] eqn:Hc.
  2:{ unfold Track.output.
      rewrite (bind_Throw _ _ _ _ _ (deref_None h_channels _ _ Hc)).
      apply keeps_single_port_refl. }
  destruct (decide (t ∈ tracks ch)) as [Hin|Hnin].
  { rewrite (output_listed _ _ _ _ Hc Hin). apply keeps_single_port_refl. }
  destruct (h_tracks h !! t) as [tr|] eqn:Ht.
  2:{ rewrite (output_dangling _ _ _ _ Hc Hnin Ht).
      apply keeps_single_port_refl. }
  rewrite (output_attach _ _ _ _ _ Hc Hnin Ht). simpl.
  intros H t' tr'. simpl. intros Ht'.
  destruct (decide (t = t')) as [<-|Hne].
  - rewrite list_lookup_insert_eq in Ht' by (now apply lookup_lt_Some in Ht).
    injection Ht' as <-. simpl. lia.
  - rewrite list_lookup_insert_ne in Ht' by exact Hne. now apply (H t').
Qed.

Ltac port_prim :=
  idtac;
  lazymatch goal with
  | |- respects _ (alloc_element _) => apply port_alloc_element
  | |- respects _ (alloc_mixer _) => apply port_alloc_mixer
  | |- respects _ (alloc_channel _) => apply port_alloc_channel
  | |- respects _ AudioContext => apply port_AudioContext
  | |- respects _ (update_mixer _ _) => apply port_update_mixer
  | |- respects _ (update_channel _ _) => apply port_update_channel
  | |- respects _ (Track.new _ _) => apply port_new_track
  | |- respects _ (Track.output _ _) => apply port_output
  end.

Ltac port_method :=
  respects_with keeps_single_port_refl keeps_single_port_trans port_prim.

Lemma expiry_same_tracks int h h' : expiry int h h' -> h_tracks h' = h_tracks h.
Proof. now intros []. Qed.

Lemma perform_single_port a h : single_port h -> single_port (perform a h).
Proof.
  enough (keeps_single_port h (perform a h)) as H by exact H.
  destruct a; unfold perform, exec;
    try match goal with |- keeps_single_port _ (snd (?m _)) =>
      enough (respects keeps_single_port m) as Hm by apply Hm end.
  all: try solve
    [ unfold createAudioMixer, Mixer.new, Mixer.addChannel, Mixer.getChannel,
        Mixer.set_volume, Channel.new, Channel.input, Channel.addTrack,
        Channel.set_pan, Channel.set_volume, Channel.set_lowEQ,
        Channel.set_midEQ, Channel.set_highEQ, Channel.set_muted;
      port_method ].
  - intros h0. refine (same_tracks_single_port _ _ _). now rewrite fade_eq.
  - refine (same_tracks_single_port _ _ _).
    apply (expiry_same_tracks int), turn_cases.
Qed.

Lemma run_snoc l a h : run (l ++ [a]) h = perform a (run l h).
Proof. unfold run. now rewrite fold_left_app. Qed.

Lemma reachable_ind (P : heap -> Prop) :
  P empty_heap ->
  (forall a h, reachable h -> P h -> P (perform a h)) ->
  forall h, reachable h -> P h.
Proof.
  intros H0 Hstep h [l ->].
  induction l as [|a l IH] using rev_ind; [exact H0|].
  rewrite run_snoc. apply Hstep; [now exists l|exact IH].
Qed.

Lemma reachable_single_port h : reachable h -> single_port h.
Proof.
  apply reachable_ind.
  - intros t tr Ht. discriminate.
  - intros a h' _. apply perform_single_port.
Qed.

(** ** A fade, from its start to its end *)

Lemma closure_direction d c v p : direction_of (closure d c v p) = d.
Proof. now destruct d. Qed.

Lemma closure_target d c v p : target (closure d c v p) = c.
Proof. now destruct d. Qed.

Lemma closure_settles d c v p : settles (closure d c v p) = p.
Proof. now destruct d. Qed.

Lemma closure_step d c v p : step_of (closure d c v p) = v.
Proof. now destruct d. Qed.

Lemma settles_allocated_lookup h j t :
  settles_allocated h = true -> h_intervals h !! j = Some t ->
  settles (handler t) < length (h_promises h).
Proof.
  unfold settles_allocated. rewrite forallb_forall. intros Hall Hj.
  apply Nat.ltb_lt, Hall, list_elem_of_In, list_elem_of_lookup. eauto.
Qed.

Lemma fading_start d h c ms :
  settles_allocated h = true ->
  is_Some (h_channels h !! c) ->
  fading d (length (h_intervals h)) c (Channel.vpc_of (Channel.duration ms))
    (length (h_promises h)) (exec (fade d c ms) h).
Proof.
  intros Hwf Hc. unfold exec. rewrite fade_eq. simpl.
  split; simpl.
  - eexists. split; [apply lookup_snoc|split; reflexivity].
  - intros j t Hj Hp.
    apply lookup_app_Some in Hj as [Hj|[Hge Hj]].
    + pose proof (settles_allocated_lookup _ _ _ Hwf Hj). lia.
    + apply list_lookup_singleton_Some in Hj as [Hj _]. lia.
  - intros _. apply lookup_snoc.
  - left. apply lookup_snoc.
  - exact Hc.
Qed.

Lemma fading_calm d int c v p h h' :
  calm h h' -> fading d int c v p h -> fading d int c v p h'.
Proof.
  intros (Ei & Ep & _ & Hl) [F1 F2 F3 F4 F5].
  split; unfold is_active in *; rewrite ?Ei, ?Ep; try assumption.
  apply lookup_lt_is_Some. apply lookup_lt_is_Some in F5. lia.
Qed.

Lemma fading_fade d int c v p h d' c' ms :
  fading d int c v p h -> fading d int c v p (exec (fade d' c' ms) h).
Proof.
  intros [(t & F1 & F1') F2 F3 F4 F5].
  assert (Hp : p < length (h_promises h)).
  { apply lookup_lt_is_Some. destruct F4 as [-> | ->]; eauto. }
  assert (Hi : int < length (h_intervals h)) by now apply lookup_lt_Some in F1.
  unfold exec. rewrite fade_eq. split; unfold is_active in *; simpl.
  - exists t. split; [|exact F1']. now rewrite lookup_app_l.
  - intros j t' Hj Hs. apply lookup_app_Some in Hj as [Hj|[_ Hj]].
    + now apply (F2 j t').
    + apply list_lookup_singleton_Some in Hj as [_ <-]. simpl in Hs.
      rewrite closure_settles in Hs. lia.
  - rewrite !lookup_app_l by assumption. exact F3.
  - now rewrite !lookup_app_l by assumption.
  - exact F5.
Qed.

(** What an expiry leaves of the timers: the closures stay, and an interval
    that is active afterwards was active before. *)
Lemma expiry_handlers int h h' k :
  expiry int h h' ->
  (fun t => (handler t, delay t)) <$> h_intervals h' !! k =
  (fun t => (handler t, delay t)) <$> h_intervals h !! k.
Proof.
  intros [Hidle|t ch Hi Hcl Hc Hg|t ch q Hi Hcl Hc Hg Hq|t Hi Hcl Hf];
    [reflexivity|simpl..].
  1: rewrite list_lookup_alter; destruct (decide (int = k)) as [<-|Hne].
  1: rewrite list_lookup_insert_eq by (now apply lookup_lt_Some in Hi);
     now rewrite Hi.
  2-3: destruct (decide (int = k)) as [<-|Hne].
  all: try (rewrite list_lookup_insert_eq by (now apply lookup_lt_Some in Hi);
            now rewrite Hi).
  all: now rewrite list_lookup_insert_ne.
Qed.

Lemma expiry_active int h h' k :
  expiry int h h' -> is_active k h' = true -> is_active k h = true.
Proof.
  unfold is_active.
  intros [Hidle|t ch Hi Hcl Hc Hg|t ch q Hi Hcl Hc Hg Hq|t Hi Hcl Hf];
    [tauto|simpl..].
  1: rewrite list_lookup_alter; destruct (decide (int = k)) as [<-|Hne].
  1: rewrite list_lookup_insert_eq by (now apply lookup_lt_Some in Hi);
     simpl; discriminate.
  2-3: destruct (decide (int = k)) as [<-|Hne].
  all: try (rewrite list_lookup_insert_eq by (now apply lookup_lt_Some in Hi);
            now rewrite Hi, Hcl).
  all: now rewrite list_lookup_insert_ne.
Qed.

Lemma expiry_channels int h h' :
  expiry int h h' -> length (h_channels h') = length (h_channels h).
Proof.
  intros [Hidle|t ch Hi Hcl Hc Hg|t ch q Hi Hcl Hc Hg Hq|t Hi Hcl Hf]; simpl;
    rewrite ?length_insert; reflexivity.
Qed.

(** An expiry leaves the promises alone unless its closure ends its fade;
    then it settles the promise of that closure, clears the interval and
    leaves the gain on the boundary. *)
Lemma expiry_promises int h h' :
  expiry int h h' ->
  h_promises h' = h_promises h \/
  exists t,
    h_intervals h !! int = Some t /\ cleared t = false /\
    h_promises h' =
      alter (settle true) (settles (handler t)) (h_promises h) /\
    is_active int h' = false /\
    input_gain (target (handler t)) h' =
      Some (boundary (direction_of (handler t))).
Proof.
  intros [Hidle|t ch Hi Hcl Hc Hg|t ch q Hi Hcl Hc Hg Hq|t Hi Hcl Hf];
    [now left|right|now left..].
  exists t. repeat split; try assumption.
  - unfold is_active. simpl. rewrite list_lookup_alter_eq.
    rewrite list_lookup_insert_eq by (now apply lookup_lt_Some in Hi).
    reflexivity.
  - unfold input_gain. simpl.
    rewrite list_lookup_insert_eq by (now apply lookup_lt_Some in Hc).
    reflexivity.
Qed.

Lemma fading_expire d int c v p h j :
  fading d int c v p h -> fading d int c v p (turn j h).
Proof.
  intros [(t & F1 & F1') F2 F3 F4 F5].
  pose proof (turn_cases j h) as E.
  assert (Hh : forall k t',
    h_intervals (turn j h) !! k = Some t' ->
    exists t0, h_intervals h !! k = Some t0 /\ handler t0 = handler t').
  { intros k t' Hk. pose proof (expiry_handlers _ _ _ k E) as Eh.
    rewrite Hk in Eh. simpl in Eh.
    destruct (h_intervals h !! k) as [t0|]; [|discriminate].
    exists t0. split; [reflexivity|]. simpl in Eh. congruence. }
  destruct F1' as [F1' F1''].
  assert (Hp : h_promises (turn j h) !! p = h_promises h !! p \/
               (j = int /\ is_active int (turn j h) = false /\
                h_promises (turn j h) !! p = Some (Fulfilled true))).
  { destruct (expiry_promises _ _ _ E) as [->|(tj & Hj & _ & -> & Hin & _)];
      [now left|].
    destruct (decide (settles (handler tj) = p)) as [Hs|Hs].
    - right. assert (j = int) as -> by now apply (F2 j tj).
      split; [reflexivity|]. split; [exact Hin|].
      rewrite Hs, list_lookup_alter_eq.
      destruct F4 as [-> | ->]; reflexivity.
    - left. now rewrite list_lookup_alter_ne. }
  split.
  - pose proof (expiry_handlers _ _ _ int E) as Eh. rewrite F1 in Eh.
    destruct (h_intervals (turn j h) !! int) as [t'|]; [|discriminate].
    exists t'. split; [reflexivity|]. simpl in Eh. split; congruence.
  - intros k t' Hk Hs. destruct (Hh k t' Hk) as (t0 & Hk0 & E0).
    apply (F2 k t0 Hk0). congruence.
  - intros Hact. destruct Hp as [->|(_ & Hin & _)]; [|congruence].
    apply F3. now apply (expiry_active j _ _ int E).
  - destruct Hp as [->|(_ & _ & ->)]; [exact F4|now right].
  - apply lookup_lt_is_Some. rewrite (expiry_channels _ _ _ E).
    now apply lookup_lt_is_Some.
Qed.

Lemma fading_perform d int c v p h a :
  fading d int c v p h -> fading d int c v p (perform a h).
Proof.
  intros F. pose proof (perform_calm a h) as Hcalm.
  destruct a; try (now apply (fading_calm _ _ _ _ _ h)).
  - now apply fading_fade.
  - now apply fading_expire.
Qed.

Lemma fading_run d int c v p l h :
  fading d int c v p h -> fading d int c v p (run l h).
Proof.
  revert h. induction l as [|a l IH]; intros h F; [exact F|].
  apply IH. now apply fading_perform.
Qed.

Lemma fading_closure_at d int c v p h t :
  fading d int c v p h -> h_intervals h !! int = Some t ->
  handler t = closure d c v p.
Proof. intros [(t' & E & Hc & _) _ _ _ _] Ht. congruence. Qed.

(** Only the expiry that finds the gain on the boundary settles the promise
    of a fade. *)
Lemma fading_settles d int c v p h a :
  fading d int c v p h ->
  h_promises h !! p = Some Pending ->
  h_promises (perform a h) !! p <> Some Pending ->
  a = Expire int /\
  h_promises (perform a h) !! p = Some (Fulfilled true) /\
  input_gain c (perform a h) = Some (boundary d) /\
  is_active int (perform a h) = false.
Proof.
  intros F Hpend Hnot. pose proof (perform_calm a h) as Hcalm.
  destruct a;
    try (destruct Hcalm as (_ & Ep & _); rewrite Ep in Hnot; contradiction).
  - exfalso. apply Hnot. unfold perform, exec. rewrite fade_eq. simpl.
    rewrite lookup_app_l by (now apply lookup_lt_Some in Hpend). exact Hpend.
  - simpl in *.
    destruct (expiry_promises _ _ _ (turn_cases int0 h))
      as [Ep|(t & Ht & Hcl & Ep & Hin & Hg)];
      [rewrite Ep in Hnot; contradiction|].
    destruct (decide (settles (handler t) = p)) as [Hs|Hs].
    2:{ rewrite Ep, list_lookup_alter_ne in Hnot by exact Hs. contradiction. }
    assert (int0 = int) as -> by now apply (fading_alone _ _ _ _ _ _ F int0 t).
    rewrite (fading_closure_at _ _ _ _ _ _ _ F Ht) in Hg.
    rewrite closure_target, closure_direction in Hg.
    repeat split; try assumption.
    rewrite Ep, Hs, list_lookup_alter_eq, Hpend. reflexivity.
Qed.

(** An active fade whose gain is on the boundary ends at its next expiry. *)
Lemma fading_ends d int c v p h g :
  fading d int c v p h ->
  is_active int h = true ->
  input_gain c h = Some g ->
  reached d g = true ->
  h_promises (turn int h) !! p = Some (Fulfilled true) /\
  input_gain c (turn int h) = Some (boundary d) /\
  is_active int (turn int h) = false.
Proof.
  intros F Hact Hg Hr.
  pose proof (fading_pending _ _ _ _ _ _ F Hact) as Hpend.
  assert (Hcb : forall t, h_intervals h !! int = Some t ->
                  handler t = closure d c v p)
    by (intros t; apply (fading_closure_at _ _ _ _ _ _ _ F)).
  unfold is_active in Hact. unfold input_gain in Hg.
  destruct (turn_cases int h)
    as [[Hn|(t & Ht & Hcl)]|t ch Hi Hcl Hc Hb|t ch q Hi Hcl Hc Hb Hq|t Hi Hcl Hf].
  - now rewrite Hn in Hact.
  - now rewrite Ht, Hcl in Hact.
  - rewrite (Hcb t Hi), ?closure_target, ?closure_direction, ?closure_settles
      in *.
    unfold input_gain, is_active. simpl.
    rewrite list_lookup_alter_eq, Hpend.
    rewrite list_lookup_insert_eq by (now apply lookup_lt_Some in Hc).
    rewrite list_lookup_alter_eq.
    rewrite list_lookup_insert_eq by (now apply lookup_lt_Some in Hi).
    repeat split.
  - rewrite (Hcb t Hi), ?closure_target, ?closure_direction in *.
    rewrite Hc in Hg. simpl in Hg. congruence.
  - rewrite (Hcb t Hi), ?closure_target, ?closure_direction in *.
    destruct Hf as [Hn|(ch & Hc & Hb & _)].
    + now rewrite Hn in Hg.
    + rewrite Hc in Hg. simpl in Hg. congruence.
Qed.

(** C1: take any channel with any gain and start a fade on it with any
    argument.  Whatever the program and the event loop do afterwards, the
    promise the call answered leaves the pending state only at an expiry of
    the fade's own interval, and at that moment it is fulfilled with [true],
    the input gain is exactly the boundary (0 for [fadeOut], 1 for
    [fadeIn]) and the interval is cleared.  Conversely an expiry of the
    active fade that finds the gain on or past the boundary sets it to the
    boundary, clears the interval and fulfils the promise. *)
Theorem fade_promise_resolves_on_boundary (d : direction) h c ch ms
    (l : list action) (a : action) :
  settles_allocated h = true ->
  h_channels h !! c = Some ch ->
  let p := length (h_promises h) in
  let int := length (h_intervals h) in
  let before := run l (exec (fade d c ms) h) in
  let after := perform a before in
  eval (fade d c ms) h = Normal p /\
  (h_promises before !! p = Some Pending ->
   h_promises after !! p <> Some Pending ->
   a = Expire int /\
   h_promises after !! p = Some (Fulfilled true) /\
   input_gain c after = Some (boundary d) /\
   is_active int after = false) /\
  (forall g,
     is_active int before = true ->
     input_gain c before = Some g ->
     reached d g = true ->
     h_promises (turn int before) !! p = Some (Fulfilled true) /\
     input_gain c (turn int before) = Some (boundary d) /\
     is_active int (turn int before) = false).
Proof.
  intros Hwf Hc p int before after.
  assert (F : fading d int c (Channel.vpc_of (Channel.duration ms)) p before).
  { apply fading_run, fading_start; [exact Hwf|eauto]. }
  split; [unfold eval; now rewrite fade_eq|]. split.
  - apply (fading_settles _ _ _ _ _ _ _ F).
  - intros g. apply (fading_ends _ _ _ _ _ _ _ F).
Qed.

(** ** Several fades on one channel *)

Lemma active_from_snoc c l t i :
  active_from c (l ++ [t]) i =
  active_from c l i ++
    (if negb (cleared t) && Nat.eqb (target (handler t)) c
     then [i + length l] else []).
Proof.
  revert i. induction l as [|t' l IH]; intros i; simpl.
  - rewrite Nat.add_0_r. now destruct (negb (cleared t) && _).
  - rewrite IH, Nat.add_succ_r. simpl.
    now destruct (negb (cleared t') && _).
Qed.

Lemma expiry_other int h h' k :
  expiry int h h' -> k <> int -> h_intervals h' !! k = h_intervals h !! k.
Proof.
  intros [Hidle|t ch Hi Hcl Hc Hg|t ch q Hi Hcl Hc Hg Hq|t Hi Hcl Hf] Hne;
    [reflexivity|simpl..].
  1: rewrite list_lookup_alter_ne by congruence.
  all: now rewrite list_lookup_insert_ne by congruence.
Qed.

(** An interval is cleared by its own closure and by nothing else. *)
Lemma cleared_by_own_closure a h k :
  is_active k h = true -> is_active k (perform a h) = false -> a = Expire k.
Proof.
  intros Hact Hin. pose proof (perform_calm a h) as Hcalm.
  unfold is_active in *.
  destruct a;
    try (destruct Hcalm as (Ei & _); rewrite Ei in Hin; congruence).
  - exfalso. unfold perform, exec in Hin. rewrite fade_eq in Hin.
    simpl in Hin. destruct (h_intervals h !! k) as [t|] eqn:Hk; [|discriminate].
    rewrite lookup_app_l in Hin by (now apply lookup_lt_Some in Hk).
    rewrite Hk in Hin. congruence.
  - destruct (decide (k = int)) as [->|Hne]; [reflexivity|].
    simpl in Hin. rewrite (expiry_other _ _ _ k (turn_cases int h) Hne) in Hin.
    congruence.
Qed.

Lemma expiry_due int h h' t :
  expiry int h h' -> h_intervals h !! int = Some t -> cleared t = false ->
  due <$> h_intervals h' !! int = Some (due t + delay t)%Z.
Proof.
  intros [[Hn|(t0 & Ht0 & Hcl0)]|t0 ch Hi Hcl Hc Hg|t0 ch q Hi Hcl Hc Hg Hq
         |t0 Hi Hcl Hf] Ht Hact; simpl.
  - congruence.
  - congruence.
  - rewrite list_lookup_alter_eq.
    rewrite list_lookup_insert_eq by (now apply lookup_lt_Some in Hi).
    simpl. congruence.
  - rewrite list_lookup_insert_eq by (now apply lookup_lt_Some in Hi).
    simpl. congruence.
  - rewrite list_lookup_insert_eq by (now apply lookup_lt_Some in Hi).
    simpl. congruence.
Qed.

(** An expiry clears its interval when it finds the gain of its channel on
    or past the boundary, and only then. *)
Lemma turn_active k h t :
  h_intervals h !! k = Some t -> cleared t = false ->
  is_active k (turn k h) =
    negb (from_option (reached (direction_of (handler t))) false
            (input_gain (target (handler t)) h)).
Proof.
  intros Ht Hcl. unfold is_active, input_gain.
  destruct (turn_cases k h)
    as [[Hn|(t' & Ht' & Hcl')]|t' ch Hi Hcl' Hc Hb|t' ch g' Hi Hcl' Hc Hb Hq
       |t' Hi Hcl' Hf]; try congruence;
    replace t' with t in * by congruence; simpl.
  - rewrite list_lookup_alter_eq.
    rewrite list_lookup_insert_eq by (now apply lookup_lt_Some in Ht).
    rewrite Hc. simpl. now rewrite Hb.
  - rewrite list_lookup_insert_eq by (now apply lookup_lt_Some in Ht).
    rewrite Hc. simpl. now rewrite Hb, Hcl.
  - rewrite list_lookup_insert_eq by (now apply lookup_lt_Some in Ht).
    simpl. rewrite Hcl.
    destruct Hf as [->|(ch & -> & Hb & _)]; simpl; [reflexivity|].
    now rewrite Hb.
Qed.

(** C2 (as the code has it): a call of [fadeOut] or [fadeIn] leaves every
    interval of the heap as it is and adds an active one with a period of
    2 ms, so the fades in flight on the channel are those in flight before
    followed by the new one, and the fades of other channels are the same.
    An active interval is cleared by an expiry of that very interval and by
    no other action, and only when that expiry finds the gain of its channel
    on or past the boundary; an expiry that finds it short of the boundary
    leaves the interval active, due one period later. *)
Theorem fade_starts_beside_running_fades (d : direction) h c ms :
  let h' := exec (fade d c ms) h in
  let int := length (h_intervals h) in
  (forall j, j < int -> h_intervals h' !! j = h_intervals h !! j) /\
  is_active int h' = true /\
  delay <$> h_intervals h' !! int = Some 2%Z /\
  active_fades c h' = active_fades c h ++ [int] /\
  (forall c', c' <> c -> active_fades c' h' = active_fades c' h) /\
  (forall a k,
     is_active k h = true -> is_active k (perform a h) = false ->
     a = Expire k /\
     exists t g,
       h_intervals h !! k = Some t /\
       input_gain (target (handler t)) h = Some g /\
       reached (direction_of (handler t)) g = true) /\
  (forall k t g,
     h_intervals h !! k = Some t -> cleared t = false ->
     input_gain (target (handler t)) h = Some g ->
     reached (direction_of (handler t)) g = false ->
     is_active k (turn k h) = true /\
     due <$> h_intervals (turn k h) !! k = Some (due t + delay t)%Z).
Proof.
  cbv zeta. split; [|split; [|split; [|split; [|split; [|split]]]]].
  - intros j Hj. unfold exec. rewrite fade_eq. simpl. now rewrite lookup_app_l.
  - unfold exec, is_active. rewrite fade_eq. simpl. now rewrite lookup_snoc.
  - unfold exec. rewrite fade_eq. simpl. now rewrite lookup_snoc.
  - unfold exec, active_fades. rewrite fade_eq. simpl.
    rewrite active_from_snoc. simpl.
    now rewrite closure_target, Nat.eqb_refl.
  - intros c' Hc'. unfold exec, active_fades. rewrite fade_eq. simpl.
    rewrite active_from_snoc. simpl.
    rewrite closure_target.
    destruct (Nat.eqb_spec c c') as [->|_]; [contradiction|].
    now rewrite app_nil_r.
  - intros a k Hact Hin.
    pose proof (cleared_by_own_closure a h k Hact Hin) as ->.
    split; [reflexivity|].
    unfold is_active in Hact.
    destruct (h_intervals h !! k) as [t|] eqn:Ht; [|discriminate].
    assert (Hcl : cleared t = false) by (now destruct (cleared t)).
    simpl in Hin. rewrite (turn_active k h t Ht Hcl) in Hin.
    destruct (input_gain (target (handler t)) h) as [g|] eqn:Hg;
      [|discriminate].
    simpl in Hin. apply negb_false_iff in Hin. now exists t, g.
  - intros k t g Ht Hcl Hg Hr. split.
    + now rewrite (turn_active k h t Ht Hcl), Hg; simpl; rewrite Hr.
    + apply (expiry_due _ _ _ _ (turn_cases k h) Ht Hcl).
Qed.

(** Counterexample to C2 as the specification words it: after [fadeOut( )]
    and then [fadeIn( )] on channel 0 of the sample session, the interval of
    the first fade is still active and two fades are in flight on that
    channel. *)
Lemma second_fade_leaves_first_running :
  let h := exec (Channel.fadeOut 0 Undefined) studio in
  let h' := exec (Channel.fadeIn 0 Undefined) h in
  is_active 0 h = true /\
  is_active 0 h' = true /\
  active_fades 0 h' = [0; 1] /\
  ~ length (active_fades 0 h') <= 1.
Proof. vm_compute. repeat split. lia. Qed.

(** ** The steps of a fade *)

(** One expiry of an active fade. *)
Lemma fading_tick d int c v p h g :
  fading d int c v p h ->
  is_active int h = true ->
  input_gain c h = Some g ->
  input_gain c (turn int h) = Some (next_gain d g v) /\
  is_active int (turn int h) = negb (reached d g).
Proof.
  intros F Hact Hg.
  assert (Hcb : forall t, h_intervals h !! int = Some t ->
                  handler t = closure d c v p)
    by (intros t; apply (fading_closure_at _ _ _ _ _ _ _ F)).
  unfold is_active in Hact. unfold input_gain in Hg. unfold next_gain.
  destruct (turn_cases int h)
    as [[Hn|(t & Ht & Hcl)]|t ch Hi Hcl Hc Hb|t ch g' Hi Hcl Hc Hb Hq
       |t Hi Hcl Hf].
  - now rewrite Hn in Hact.
  - now rewrite Ht, Hcl in Hact.
  - rewrite (Hcb t Hi), ?closure_target, ?closure_direction in *.
    rewrite Hc in Hg. injection Hg as <-. rewrite Hb.
    unfold input_gain, is_active. simpl.
    rewrite list_lookup_insert_eq by (now apply lookup_lt_Some in Hc).
    rewrite list_lookup_alter_eq.
    rewrite list_lookup_insert_eq by (now apply lookup_lt_Some in Hi).
    split; reflexivity.
  - rewrite (Hcb t Hi), ?closure_target, ?closure_direction, ?closure_step
      in *.
    rewrite Hc in Hg. injection Hg as <-. rewrite Hb, Hq.
    unfold input_gain, is_active. simpl.
    rewrite list_lookup_insert_eq by (now apply lookup_lt_Some in Hc).
    rewrite list_lookup_insert_eq by (now apply lookup_lt_Some in Hi).
    simpl. now rewrite Hcl.
  - rewrite (Hcb t Hi), ?closure_target, ?closure_direction, ?closure_step
      in *.
    destruct Hf as [Hn|(ch & Hc & Hb & Hq)]; [now rewrite Hn in Hg|].
    rewrite Hc in Hg. injection Hg as <-. rewrite Hb, Hq.
    unfold input_gain, is_active. simpl. rewrite Hc.
    rewrite list_lookup_insert_eq by (now apply lookup_lt_Some in Hi).
    simpl. now rewrite Hcl.
Qed.

Lemma Qle_bool_false (a b : Q) : Qle_bool a b = false -> (b < a)%Q.
Proof.
  intros E. apply Qnot_le_lt. intros H. apply Qle_bool_iff in H. congruence.
Qed.

(** *** The arithmetic of a tick *)

Lemma finite_Fin (z r : Q) : finite z = Fin r -> r = round binary64 z.
Proof.
  unfold finite. destruct (overflows binary64 _);
    [destruct (Qle_bool 0 z); discriminate|].
  now intros [= <-].
Qed.

Lemma stepped_Fin d g q :
  stepped d g (Fin q) =
  finite (match d with Out => g + - q | In => g + q end)%Q.
Proof. now destruct d. Qed.

(** The number a tick assigns is the binary64 value of the exact
    difference or sum, and the gain it leaves the binary32 value of that. *)
Lemma stepped_rounds d g q g' :
  to_float (stepped d g (Fin q)) = Some g' ->
  g' = round binary32 (round binary64 (shifted d g q)).
Proof.
  intros H. apply to_float_Fin in H as (x & Ex & -> & _).
  rewrite stepped_Fin in Ex. apply finite_Fin in Ex. subst x.
  now destruct d.
Qed.

(** A binary32 value is a binary64 value, and within its range. *)
Lemma float_double_fixed (x : Q) :
  is_float x = true -> round binary64 x = round binary32 x.
Proof.
  intros H. apply is_float_iff in H as [E _].
  rewrite <- (round_comp binary64 _ _ E). apply float_is_double.
Qed.

Lemma float_within_double (x : Q) :
  overflows binary32 x = false -> overflows binary64 x = false.
Proof.
  unfold overflows. intros H.
  destruct (Qle_bool (2 ^ emax binary64) (Qabs x)) eqn:E; [|reflexivity].
  apply Qle_bool_iff in E.
  assert (Hp : (2 ^ emax binary32 <= 2 ^ emax binary64)%Q)
    by (apply pow2_le; simpl; lia).
  assert (H' : (2 ^ emax binary32 <= Qabs x)%Q) by (eapply Qle_trans; eassumption).
  apply Qle_bool_iff in H'. congruence.
Qed.

(** When the exact difference or sum is a binary32 value, the tick is
    exact. *)
Lemma stepped_exact d g q :
  is_float (shifted d g q) = true ->
  exists g',
    to_float (stepped d g (Fin q)) = Some g' /\ (g' == shifted d g q)%Q.
Proof.
  intros H. pose proof (float_double_fixed _ H) as E64.
  apply is_float_iff in H as [E32 Ho].
  exists (round binary32 (shifted d g q)). split; [|exact E32].
  assert (Es : stepped d g (Fin q) = finite (shifted d g q))
    by (rewrite stepped_Fin; now destruct d).
  rewrite Es. unfold finite. rewrite E64.
  rewrite (float_within_double _
             ltac:(now rewrite (overflows_comp _ _ _ E32))).
  unfold to_float. rewrite round_idempotent by (simpl; lia).
  now rewrite (overflows_comp _ _ _ E32), Ho.
Qed.






(** C3 (as the code has it): the fade registers an interval with the step
    [vpc = (2 / ms) * 10], computed in binary64, and a delay of 2 ms.  In any
    session, an expiry of the active interval arms it for 2 ms later; when
    it finds the gain on or past the boundary it sets the gain to the
    boundary; when it finds the gain short of the boundary it leaves the
    interval active and assigns [gain - vpc] (for [fadeOut]) or
    [gain + vpc] (for [fadeIn]): the gain becomes the binary32 value of that
    number, or stays as it is when the number is refused.  For a finite
    step the new gain is the binary32 value nearest to the binary64 value
    nearest to the exact difference or sum, and it is that difference or
    sum itself when this is a binary32 value. *)
Theorem fade_tick_moves_gain_by_step (d : direction) h c ch ms :
  settles_allocated h = true ->
  h_channels h !! c = Some ch ->
  let vpc := Channel.vpc_of (Channel.duration ms) in
  let int := length (h_intervals h) in
  let start := exec (fade d c ms) h in
  (forall x q, ms = Num (Fin x) -> ~ (x == 0)%Q -> vpc = Fin q ->
     q = round binary64 (round binary64 (2 / x) * 10)) /\
  h_intervals start !! int =
    Some {| handler := closure d c vpc (length (h_promises h));
            delay := 2; due := (h_now h + 2)%Z; cleared := false |} /\
  (forall l t g,
     let before := run l start in
     let after := turn int before in
     h_intervals before !! int = Some t -> cleared t = false ->
     input_gain c before = Some g ->
     due <$> h_intervals after !! int = Some (due t + 2)%Z /\
     (reached d g = true -> input_gain c after = Some (boundary d)) /\
     (reached d g = false ->
      is_active int after = true /\
      (forall g',
         to_float (stepped d g vpc) = Some g' ->
         input_gain c after = Some g') /\
      (to_float (stepped d g vpc) = None -> input_gain c after = Some g))) /\
  (forall g q g',
     vpc = Fin q -> to_float (stepped d g vpc) = Some g' ->
     g' = round binary32 (round binary64 (shifted d g q))) /\
  (forall g q,
     vpc = Fin q -> is_float (shifted d g q) = true ->
     exists g',
       to_float (stepped d g vpc) = Some g' /\ (g' == shifted d g q)%Q).
Proof.
  intros Hwf Hc vpc int start.
  assert (F : fading d int c vpc (length (h_promises h)) start)
    by (apply fading_start; [exact Hwf|eauto]).
  split; [|split; [|split; [|split]]].
  - intros x q -> Hx Hq. now apply (vpc_of_finite x q Hx).
  - unfold start, int, exec. rewrite fade_eq. simpl. now rewrite lookup_snoc.
  - intros l t g before after Ht Hcl Hg.
    assert (Fb : fading d int c vpc (length (h_promises h)) before)
      by now apply fading_run.
    assert (Hact : is_active int before = true)
      by (unfold is_active; now rewrite Ht, Hcl).
    destruct (fading_tick _ _ _ _ _ _ _ Fb Hact Hg) as [Hg' Hact'].
    fold after in Hg', Hact'. unfold next_gain in Hg'.
    split; [|split].
    + unfold after.
      rewrite (expiry_due _ _ _ _ (turn_cases int before) Ht Hcl).
      destruct Fb as [(t' & Ht' & _ & Hd) _ _ _ _].
      replace t' with t in Hd by congruence. now rewrite Hd.
    + intros Hr. now rewrite Hr in Hg'.
    + intros Hr. rewrite Hr in Hg', Hact'. split; [exact Hact'|].
      split; [intros g' E|intros E]; now rewrite E in Hg'.
  - intros g q g' Hq. rewrite Hq. apply stepped_rounds.
  - intros g q Hq. rewrite Hq. apply stepped_exact.
Qed.

(** Counterexample to C3 as the specification words it: two expiries into
    [fadeOut( 32 )] on a channel whose gain was 1, the fade is still active,
    its promise is pending and the gain is -1/4, below 0. *)
Lemma fade_out_overshoots_below_zero :
  let h := turn 0 (turn 0 (exec (Channel.fadeOut 0 (Num (Fin 32))) studio)) in
  is_active 0 h = true /\
  h_promises h !! 0 = Some Pending /\
  input_gain 0 h = Some (- 1 # 4)%Q /\
  ~ (0 <= - 1 # 4)%Q.
Proof. vm_compute. repeat split. intros H. now apply H. Qed.

(** ** Intervals that are not active *)

Lemma turn_inactive int h : is_active int h = false -> turn int h = h.
Proof.
  unfold is_active. intros Hin.
  destruct (turn_cases int h)
    as [_|t ch Hi Hcl _ _|t ch q Hi Hcl _ _ _|t Hi Hcl _]; [reflexivity|..];
    rewrite Hi, Hcl in Hin; discriminate.
Qed.

Lemma run_expire_inactive int n h :
  is_active int h = false -> run (repeat (Expire int) n) h = h.
Proof.
  intros Hin. induction n as [|n IH]; [reflexivity|].
  simpl. unfold run in *. simpl. now rewrite (turn_inactive _ _ Hin).
Qed.

(** ** The scheduler *)

Lemma earliest_from_active l i best j d :
  earliest_from l i best = Some (j, d) ->
  best = Some (j, d) \/
  exists t, l !! (j - i) = Some t /\ i <= j /\ cleared t = false /\ due t = d.
Proof.
  revert i best. induction l as [|t l IH]; intros i best E; simpl in E.
  - now left.
  - apply IH in E as [E|(t' & Ht' & Hle & Hcl & Hd)].
    + destruct (cleared t) eqn:Hcl; [now left|].
      destruct best as [[b db]|].
      * destruct (due t <? db)%Z; [|now left].
        injection E as <- <-. right. exists t.
        rewrite Nat.sub_diag. now repeat split.
      * injection E as <- <-. right. exists t.
        rewrite Nat.sub_diag. now repeat split.
    + right. exists t'. repeat split; [|lia|assumption..].
      replace (j - i) with (S (j - S i)) by lia. exact Ht'.
Qed.

(** The scheduler serves an active interval at its due time: what it does is
    an expiry, so whatever holds of every session holds of the sessions the
    scheduler drives. *)
Lemma advance_expires h :
  advance h = h \/
  exists int t,
    h_intervals h !! int = Some t /\ cleared t = false /\
    next_interval h = Some int /\
    advance h = perform (Expire int) h.
Proof.
  unfold advance, next_interval.
  destruct (earliest_from (h_intervals h) 0 None) as [[j d]|] eqn:E;
    [right|now left].
  apply earliest_from_active in E as [E|(t & Ht & _ & Hcl & _)];
    [discriminate|].
  rewrite Nat.sub_0_r in Ht. exists j, t. now repeat split.
Qed.

(** ** Every session keeps its closures on allocated promises *)





(** ** Every gain a session holds is a binary32 value *)

















(** ** The samples of a fade *)







(** ** The claim about the lists of tracks *)




(** ** Instances on the sample sessions *)

Lemma studio_reachable : reachable studio.
Proof.
  exists [NewMixer None; AddChannel 0 None; AddChannel 0 None;
          Input 0 (SrcString "song.mp3")].
  vm_compute. reflexivity.
Qed.

Lemma studio_moved_reachable : reachable studio_moved.
Proof.
  exists [NewMixer None; AddChannel 0 None; AddChannel 0 None;
          Input 0 (SrcString "song.mp3"); AddTrack 1 0].
  vm_compute. reflexivity.
Qed.

Lemma doubled_reachable : reachable doubled.
Proof.
  exists [NewMixer None; AddChannel 0 (Some "drums");
          AddChannel 0 (Some "bass"); AddChannel 0 (Some "drums")].
  vm_compute. reflexivity.
Qed.

Lemma fade_promise_resolves_on_boundary_witness :
  let before :=
    run [Expire 0; Expire 0] (exec (fade Out 0 (Num (Fin 32))) studio) in
  h_promises (turn 0 before) !! 0 = Some (Fulfilled true) /\
  input_gain 0 (turn 0 before) = Some 0%Q /\
  is_active 0 (turn 0 before) = false.
Proof.
  intros before.
  assert (Hwf : settles_allocated studio = true) by (vm_compute; reflexivity).
  assert (Ec : exists ch, h_channels studio !! 0 = Some ch)
    by (vm_compute; eexists; reflexivity).
  destruct Ec as (ch & Ec).
  destruct (fade_promise_resolves_on_boundary Out studio 0 ch (Num (Fin 32))
              [Expire 0; Expire 0] (Expire 0) Hwf Ec) as (_ & Hres & Hend).
  assert (H1 : is_active 0 before = true) by (vm_compute; reflexivity).
  assert (H2 : input_gain 0 before = Some (- 1 # 4)%Q)
    by (vm_compute; reflexivity).
  assert (H3 : reached Out (- 1 # 4)%Q = true)
    by (vm_compute; reflexivity).
  assert (H4 : h_promises before !! 0 = Some Pending)
    by (vm_compute; reflexivity).
  assert (H5 : h_promises (perform (Expire 0) before) !! 0 <> Some Pending)
    by (intros E; vm_compute in E; discriminate E).
  pose proof (Hend (- 1 # 4)%Q H1 H2 H3) as (Hp' & Hg' & Ha').
  pose proof (Hres H4 H5) as (_ & Hp & Hg & Ha).
  vm_compute in Hp, Hg, Ha. vm_compute.
  exact (conj Hp (conj Hg Ha)).
Defined.

Lemma fade_starts_beside_running_fades_witness :
  let h := run [Fade Out 0 (Num (Fin 32)); Expire 0; Expire 0] studio in
  active_fades 0 (exec (fade In 0 Undefined) h) = [0; 1] /\
  (Expire 0 = Expire 0 /\
   exists t g,
     h_intervals h !! 0 = Some t /\
     input_gain (target (handler t)) h = Some g /\
     reached (direction_of (handler t)) g = true).
Proof.
  intros h.
  destruct (fade_starts_beside_running_fades In h 0 Undefined)
    as (_ & _ & _ & Hact & _ & Hown & _).
  assert (H1 : is_active 0 h = true) by (vm_compute; reflexivity).
  assert (H2 : is_active 0 (perform (Expire 0) h) = false)
    by (vm_compute; reflexivity).
  exact (conj Hact (Hown (Expire 0) 0 H1 H2)).
Defined.

Lemma fade_tick_moves_gain_by_step_witness :
  let start := exec (fade Out 0 (Num (Fin 32))) studio in
  (5 # 8 = round binary64 (round binary64 (2 / 32) * 10))%Q /\
  input_gain 0 (turn 0 (run [Expire 0] start)) = Some (- 1 # 4)%Q /\
  is_active 0 (turn 0 (run [Expire 0] start)) = true.
Proof.
  intros start.
  assert (Hwf : settles_allocated studio = true) by (vm_compute; reflexivity).
  assert (Ec : exists ch, h_channels studio !! 0 = Some ch)
    by (vm_compute; eexists; reflexivity).
  destruct Ec as (ch & Ec).
  assert (Ev : Channel.vpc_of (Channel.duration (Num (Fin 32))) = Fin (5 # 8))
    by (vm_compute; reflexivity).
  destruct (fade_tick_moves_gain_by_step Out studio 0 ch (Num (Fin 32))
              Hwf Ec) as (Hstep & _ & Htick & _).
  assert (H0 : ~ (32 == 0)%Q) by (vm_compute; discriminate).
  assert (Et : exists t, h_intervals (run [Expire 0] start) !! 0 = Some t /\
                         cleared t = false)
    by (vm_compute; eexists; split; reflexivity).
  destruct Et as (t & Et & Ecl).
  assert (H1 : input_gain 0 (run [Expire 0] start) = Some (3 # 8)%Q)
    by (vm_compute; reflexivity).
  assert (H2 : reached Out (3 # 8) = false) by (vm_compute; reflexivity).
  assert (H3 : to_float
                 (stepped Out (3 # 8)
                    (Channel.vpc_of (Channel.duration (Num (Fin 32))))) =
               Some (- 1 # 4)%Q)
    by (vm_compute; reflexivity).
  pose proof (Htick [Expire 0] t (3 # 8)%Q Et Ecl H1) as (_ & _ & Hshort).
  destruct (Hshort H2) as (Hact & Hmove & _).
  exact (conj (Hstep 32%Q (5 # 8)%Q eq_refl H0 Ev) (conj (Hmove _ H3) Hact)).
Defined.


Lemma default_ids_follow_creation_order_witness :
  exists a b c h',
    (let* a := Mixer.addChannel 0 None in
     let* b := Mixer.addChannel 0 None in
     let* c := Mixer.addChannel 0 None in
     ret (a, b, c)) console = (Normal (a, b, c), h') /\
    id_of a h' = Some "0" /\
    id_of b h' = Some "1" /\
    id_of c h' = Some "2" /\
    Mixer.getChannel 0 "1" h' = (Normal (Obj b), h').
Proof.
  assert (Em : exists mx, h_mixers console !! 0 = Some mx /\ channels mx = [])
    by (vm_compute; eexists; split; reflexivity).
  destruct Em as (mx & Em & En).
  destruct (default_ids_follow_creation_order console 0 mx Em)
    as (a & b & c & h' & E & _ & _ & _ & _ & _ & Hfresh).
  exists a, b, c, h'. exact (conj E (Hfresh En)).
Defined.

Lemma mute_and_volume_are_independent_witness :
  let script :=
    (Channel.set_muted 0 true;;
     Channel.set_volume 0 (literal (7 # 10));;
     Channel.set_muted 0 false) in
  output_gate 0 (exec script studio) = Some 1%Q /\
  channel_gain 0 (exec script studio) = Some (11744051 # 16777216)%Q.
Proof.
  assert (Ec : exists ch, h_channels studio !! 0 = Some ch)
    by (vm_compute; eexists; reflexivity).
  destruct Ec as (ch & Ec).
  assert (Ev : to_float (literal (7 # 10)) = Some (11744051 # 16777216)%Q)
    by (vm_compute; reflexivity).
  destruct (mute_and_volume_are_independent studio 0 ch (literal (7 # 10))
              (11744051 # 16777216) Ec Ev)
    as (_ & Hgate & Hgain & _).
  exact (conj Hgate Hgain).
Defined.

Lemma attach_twice_is_noop_witness :
  let h1 := exec (attach ViaInput 1 0) studio in
  exec (attach ViaOutput 1 0) h1 = h1 /\
  eval (Track.output 0 1) h1 = Normal (Some true).
Proof.
  assert (Ec : exists ch, h_channels studio !! 1 = Some ch)
    by (vm_compute; eexists; reflexivity).
  assert (Et : exists tr, h_tracks studio !! 0 = Some tr)
    by (vm_compute; eexists; reflexivity).
  destruct Ec as (ch & Ec), Et as (tr & Et).
  destruct (attach_twice_is_noop studio 1 0 ch tr ViaInput ViaOutput Ec Et)
    as (Hnoop & _ & _ & Hout & _).
  exact (conj Hnoop Hout).
Defined.

Lemma getChannel_absent_or_first_witness :
  Mixer.getChannel 0 "missing" doubled = (Normal Null, doubled) /\
  Mixer.getChannel 0 "drums" doubled = (Normal (Obj 0), doubled).
Proof.
  assert (Em : exists mx, h_mixers doubled !! 0 = Some mx /\
                          channels mx = [0; 1; 2])
    by (vm_compute; eexists; split; reflexivity).
  destruct Em as (mx & Em & En).
  destruct (getChannel_absent_or_first doubled 0 mx "missing" Em)
    as (_ & Habsent & _).
  destruct (getChannel_absent_or_first doubled 0 mx "drums" Em)
    as (_ & _ & Hfirst).
  assert (H1 : forall c, c ∈ channels mx -> id_of c doubled <> Some "missing").
  { rewrite En. apply Forall_forall.
    repeat constructor; vm_compute; discriminate. }
  assert (H2 : forall c', c' ∈ [] -> id_of c' doubled <> Some "drums").
  { intros c' Hc'. now apply not_elem_of_nil in Hc'. }
  assert (H3 : id_of 0 doubled = Some "drums") by (vm_compute; reflexivity).
  exact (conj (Habsent H1) (Hfirst [] 0 [1; 2] En H2 H3)).
Defined.

Lemma empty_id_falls_back_to_index_witness :
  exists c h',
    Mixer.addChannel 0 (Some "") studio = (Normal c, h') /\
    id_of c h' = Some (toString 2) /\
    id_of c h' <> Some "".
Proof.
  assert (Em : exists mx, h_mixers studio !! 0 = Some mx /\
                          length (channels mx) = 2)
    by (vm_compute; eexists; split; reflexivity).
  destruct Em as (mx & Em & En).
  rewrite <- En.
  exact (empty_id_falls_back_to_index studio 0 mx Em).
Defined.

(** * Further properties *)

(** ** What touches the pre-fade input gain *)

Lemma same_input_gains_refl h : same_input_gains h h.
Proof. now intros c g. Qed.

Lemma same_input_gains_trans h1 h2 h3 :
  same_input_gains h1 h2 -> same_input_gains h2 h3 -> same_input_gains h1 h3.
Proof. intros H1 H2 c g Hg. now apply H2, H1. Qed.

Lemma same_channels_input_gains h h' :
  h_channels h' = h_channels h -> same_input_gains h h'.
Proof. intros E c g. unfold input_gain. now rewrite E. Qed.

Lemma gains_alloc_channel ch : respects same_input_gains (alloc_channel ch).
Proof.
  intros h c g. unfold input_gain. simpl. intros Hg.
  apply fmap_Some in Hg as (ch' & Hc & ->).
  now rewrite (lookup_app_l_Some _ _ _ _ Hc).
Qed.

Lemma gains_update_channel r f :
  (forall ch, inputNode (f ch) = inputNode ch) ->
  respects same_input_gains (update_channel r f).
Proof.
  intros Hf h c g. unfold input_gain.
  destruct (h_channels h !! r) as [ch|] eqn:E.
  - rewrite (update_channel_Some _ _ _ _ E). simpl.
    destruct (decide (r = c)) as [->|Hne].
    + rewrite list_lookup_insert_eq by (now apply lookup_lt_Some in E).
      rewrite E. simpl. now rewrite Hf.
    + now rewrite list_lookup_insert_ne.
  - now rewrite (update_channel_None _ _ _ E).
Qed.

Lemma gains_update_mixer r f : respects same_input_gains (update_mixer r f).
Proof.
  intros h. apply same_channels_input_gains.
  destruct (h_mixers h !! r) as [m|] eqn:E.
  - now rewrite (update_mixer_Some _ _ _ _ E).
  - unfold update_mixer.
    now rewrite (bind_Throw _ _ _ _ _ (deref_None h_mixers _ _ E)).
Qed.

Lemma gains_update_element r f :
  respects same_input_gains (update_element r f).
Proof.
  intros h. apply same_channels_input_gains.
  destruct (h_elements h !! r) as [e|] eqn:E.
  - now rewrite (update_element_Some _ _ _ _ E).
  - now rewrite (update_element_None _ _ _ E).
Qed.

Lemma gains_update_track r f : respects same_input_gains (update_track r f).
Proof.
  intros h. apply same_channels_input_gains.
  destruct (h_tracks h !! r) as [t|] eqn:E.
  - now rewrite (update_track_Some _ _ _ _ E).
  - now rewrite (update_track_None _ _ _ E).
Qed.

Ltac gains_prim :=
  idtac;
  lazymatch goal with
  | |- respects _ (alloc_element _) =>
      intros ?; now apply same_channels_input_gains
  | |- respects _ (update_element _ _) => apply gains_update_element
  | |- respects _ (alloc_mixer _) =>
      intros ?; now apply same_channels_input_gains
  | |- respects _ (alloc_track _) =>
      intros ?; now apply same_channels_input_gains
  | |- respects _ AudioContext =>
      intros ?; now apply same_channels_input_gains
  | |- respects _ (alloc_channel _) => apply gains_alloc_channel
  | |- respects _ (update_mixer _ _) => apply gains_update_mixer
  | |- respects _ (update_track _ _) => apply gains_update_track
  | |- respects _ (update_channel _ _) =>
      apply gains_update_channel; intros ?; reflexivity
  end.

Ltac gains_method :=
  respects_with same_input_gains_refl same_input_gains_trans gains_prim.

(** Only the closure of a fade writes the pre-fade input gain: every method
    call, a call of [fadeOut] or [fadeIn] included, leaves the input gain of
    every channel where it was; it moves at expiries of intervals only. *)
Theorem input_gain_moves_at_expiries_only a h c g :
  (forall int, a <> Expire int) ->
  input_gain c h = Some g ->
  input_gain c (perform a h) = Some g.
Proof.
  intros Ha. revert c g. change (same_input_gains h (perform a h)).
  destruct a; unfold perform, exec;
    try match goal with |- same_input_gains _ (snd (?m _)) =>
      enough (respects same_input_gains m) as Hm by apply Hm end.
  all: try solve
    [ unfold createAudioMixer, Mixer.new, Mixer.addChannel, Mixer.getChannel,
        Mixer.set_volume, Channel.new, Track.new, Track.output,
        Channel.input, Channel.addTrack, Track.new, Track.output,
        Channel.set_pan, Channel.set_volume, Channel.set_lowEQ,
        Channel.set_midEQ, Channel.set_highEQ, Channel.set_muted;
      gains_method ].
  - intros h0. apply same_channels_input_gains. now rewrite fade_eq.
  - now destruct (Ha int).
Qed.

(** ** What the fades leave alone *)

Lemma same_settings_refl h : same_settings h h.
Proof. now intros c. Qed.

Lemma same_settings_trans h1 h2 h3 :
  same_settings h1 h2 -> same_settings h2 h3 -> same_settings h1 h3.
Proof. intros H1 H2 c. now rewrite H2, H1. Qed.

Lemma expiry_same_settings int h h' : expiry int h h' -> same_settings h h'.
Proof.
  intros [Hidle|t ch Hi Hcl Hc Hg|t ch q Hi Hcl Hc Hg Hq|t Hi Hcl Hf] c;
    [reflexivity|simpl..|reflexivity].
  all: destruct (decide (target (handler t) = c)) as [<-|Hne];
    [rewrite list_lookup_insert_eq by (now apply lookup_lt_Some in Hc);
     now rewrite Hc
    |now rewrite list_lookup_insert_ne].
Qed.

Lemma fade_step_same_settings a h :
  fade_step a = true -> same_settings h (perform a h).
Proof.
  destruct a; try discriminate; intros _ c'; simpl.
  - unfold exec. now rewrite fade_eq.
  - apply (expiry_same_settings int), turn_cases.
Qed.

Lemma run_cons a l h : run (a :: l) h = run l (perform a h).
Proof. reflexivity. Qed.

Lemma fade_steps_same_settings l h :
  forallb fade_step l = true -> same_settings h (run l h).
Proof.
  revert h. induction l as [|a l IH]; intros h Hl; [apply same_settings_refl|].
  simpl in Hl. apply andb_prop in Hl as [Ha Hl]. rewrite run_cons.
  apply (same_settings_trans h (perform a h));
    [apply fade_step_same_settings; exact Ha|apply IH; exact Hl].
Qed.

Lemma same_settings_lookup h h' c :
  same_settings h h' ->
  match h_channels h !! c, h_channels h' !! c with
  | Some ch, Some ch' => exists g, ch' = set_inputNode g ch
  | None, None => True
  | _, _ => False
  end.
Proof.
  intros H. specialize (H c).
  destruct (h_channels h !! c) as [ch|], (h_channels h' !! c) as [ch'|];
    try discriminate; [|exact I].
  exists (inputNode ch'). destruct ch, ch'. simpl in *.
  injection H as -> -> -> -> -> -> -> -> ->. reflexivity.
Qed.

(** A fade writes the pre-fade input gain and nothing else of the channels:
    through any sequence of fade starts and expiries, the five controls, the
    mute state, the track list and the id of every channel read as before. *)
Theorem fades_leave_settings (l : list action) h c :
  forallb fade_step l = true ->
  (forall k, eval (get_control k c) (run l h) = eval (get_control k c) h) /\
  eval (Channel.get_muted c) (run l h) = eval (Channel.get_muted c) h /\
  tracks_of c (run l h) = tracks_of c h /\
  id_of c (run l h) = id_of c h.
Proof.
  intros Hl. pose proof (fade_steps_same_settings l h Hl) as Hs.
  pose proof (same_settings_lookup _ _ c Hs) as Hc.
  destruct (h_channels h !! c) as [ch|] eqn:E1,
    (h_channels (run l h) !! c) as [ch'|] eqn:E2; try contradiction.
  - destruct Hc as [g ->].
    unfold tracks_of, id_of. rewrite E1, E2.
    split; [intros k; destruct k|split; [|split; reflexivity]].
    all: unfold eval, get_control, Channel.get_pan, Channel.get_volume,
           Channel.get_lowEQ, Channel.get_midEQ, Channel.get_highEQ,
           Channel.get_muted, bind, deref;
         now rewrite E1, E2.
  - unfold tracks_of, id_of. rewrite E1, E2.
    split; [intros k; destruct k|split; [|split; reflexivity]].
    all: unfold eval, get_control, Channel.get_pan, Channel.get_volume,
           Channel.get_lowEQ, Channel.get_midEQ, Channel.get_highEQ,
           Channel.get_muted, bind, deref;
         now rewrite E1, E2.
Qed.

(** ** The controls of a channel *)

Lemma set_control_eq k c v :
  set_control k c v =
  (let* p := AudioParam_assign (nominal_of k) v in
   update_channel c
     (match k with
      | Pan => set_stereoPannerNode {| pan := p |}
      | Volume => set_gainNode {| gain := p |}
      | LowEQ => fun ch => set_LowEQNode (set_eq_gain p (LowEQNode ch)) ch
      | MidEQ => fun ch => set_MidEQNode (set_eq_gain p (MidEQNode ch)) ch
      | HighEQ => fun ch => set_HighEQNode (set_eq_gain p (HighEQNode ch)) ch
      end)).
Proof. now destruct k. Qed.

Lemma clamp_inside r q :
  (forall lo, minValue r = Some lo -> (lo < q)%Q) ->
  (forall hi, maxValue r = Some hi -> (q < hi)%Q) ->
  clamp r q = q.
Proof.
  intros Hlo Hhi. unfold clamp.
  destruct (maxValue r) as [hi|].
  - destruct (Qle_bool hi q) eqn:E.
    + apply Qle_bool_iff in E. specialize (Hhi hi eq_refl). lra.
    + destruct (minValue r) as [lo|]; [|reflexivity].
      destruct (Qle_bool q lo) eqn:E'; [|reflexivity].
      apply Qle_bool_iff in E'. specialize (Hlo lo eq_refl). lra.
  - destruct (minValue r) as [lo|]; [|reflexivity].
    destruct (Qle_bool q lo) eqn:E'; [|reflexivity].
    apply Qle_bool_iff in E'. specialize (Hlo lo eq_refl). lra.
Qed.

(** The setters of [pan], [volume], [lowEQ], [midEQ] and [highEQ].  A
    number that is no [float] is refused with a TypeError and nothing
    changes.  A number that converts to the binary32 value [q] is accepted:
    the getter of the same control then answers [q] clamped to the nominal
    range of the parameter, which is [q] itself for [volume] and for a [q]
    inside the range, and the nearer bound for a [pan] outside [-1, 1];
    every other control of every channel, the mute states, the input gains
    and the track lists are unchanged. *)
Theorem control_reads_back (k : control) h c ch (v : number) :
  h_channels h !! c = Some ch ->
  let h' := exec (set_control k c v) h in
  (to_float v = None ->
   eval (set_control k c v) h = Throw TypeError /\ h' = h) /\
  (forall q,
     to_float v = Some q ->
     eval (set_control k c v) h = Normal tt /\
     eval (get_control k c) h' = Normal (clamp (nominal_of k) q) /\
     (k = Volume -> eval (get_control k c) h' = Normal q) /\
     ((forall lo, minValue (nominal_of k) = Some lo -> (lo < q)%Q) ->
      (forall hi, maxValue (nominal_of k) = Some hi -> (q < hi)%Q) ->
      eval (get_control k c) h' = Normal q) /\
     (k = Pan -> (1 <= q)%Q -> eval (get_control k c) h' = Normal 1%Q) /\
     (k = Pan -> (q <= -1)%Q -> eval (get_control k c) h' = Normal (-1)%Q)) /\
  (forall k' c',
     (k', c') <> (k, c) ->
     eval (get_control k' c') h' = eval (get_control k' c') h) /\
  (forall c', eval (Channel.get_muted c') h' = eval (Channel.get_muted c') h) /\
  (forall c', input_gain c' h' = input_gain c' h) /\
  (forall c', tracks_of c' h' = tracks_of c' h).
Proof.
  intros Hc h'.
  assert (Hlt : c < length (h_channels h)) by now apply lookup_lt_Some in Hc.
  destruct (to_float v) as [q|] eqn:Hv.
  2:{ assert (E : set_control k c v h = (Throw TypeError, h)).
      { rewrite set_control_eq. unfold AudioParam_assign. now rewrite Hv. }
      unfold h', eval, exec. rewrite E. simpl.
      split; [now intros _|]. split; [discriminate|]. repeat split. }
  split; [discriminate|].
  assert (E : exists f,
    set_control k c v h =
      (Normal tt, with_channels (<[c := f ch]> (h_channels h)) h) /\
    outputNode (f ch) = outputNode ch /\ inputNode (f ch) = inputNode ch /\
    tracks (f ch) = tracks ch /\
    eval (get_control k c)
      (with_channels (<[c := f ch]> (h_channels h)) h) =
      Normal (clamp (nominal_of k) q) /\
    forall k', k' <> k ->
      eval (get_control k' c)
        (with_channels (<[c := f ch]> (h_channels h)) h) =
      eval (get_control k' c) h).
  { rewrite set_control_eq. unfold AudioParam_assign. rewrite Hv.
    unfold bind at 1. unfold ret at 1.
    rewrite (update_channel_Some _ _ _ _ Hc).
    eexists. split; [reflexivity|].
    destruct k; (split; [|split; [|split; [|split]]]); try reflexivity.
    all: try (unfold eval, get_control, Channel.get_pan, Channel.get_volume,
               Channel.get_lowEQ, Channel.get_midEQ, Channel.get_highEQ,
               bind, deref; simpl;
             rewrite list_lookup_insert_eq by exact Hlt; reflexivity).
    all: intros k' Hk'; destruct k'; try contradiction;
      unfold eval, get_control, Channel.get_pan, Channel.get_volume,
        Channel.get_lowEQ, Channel.get_midEQ, Channel.get_highEQ,
        bind, deref; simpl;
      rewrite list_lookup_insert_eq by exact Hlt; rewrite Hc; reflexivity. }
  destruct E as (f & E & Ho & Hi & Ht & Hget & Hother).
  unfold h', eval, exec. rewrite E. simpl.
  split; [|split; [|split; [|split]]].
  - intros q' [= <-]. split; [reflexivity|]. unfold eval in Hget.
    split; [exact Hget|]. rewrite Hget. split; [|split; [|split]].
    + now intros ->.
    + intros Hlo Hhi. now rewrite clamp_inside.
    + intros -> Hq. unfold clamp. simpl.
      apply Qle_bool_iff in Hq. rewrite Hq.
      now replace (Qle_bool 1 (-1)) with false by reflexivity.
    + intros -> Hq. unfold clamp. simpl.
      destruct (Qle_bool 1 q) eqn:E1.
      * apply Qle_bool_iff in E1. lra.
      * apply Qle_bool_iff in Hq. now rewrite Hq.
  - intros k' c' Hne. destruct (decide (c' = c)) as [->|Hc'].
    + apply Hother. congruence.
    + destruct k';
        unfold eval, get_control, Channel.get_pan, Channel.get_volume,
          Channel.get_lowEQ, Channel.get_midEQ, Channel.get_highEQ,
          bind, deref; simpl;
        rewrite list_lookup_insert_ne by congruence;
        now destruct (h_channels h !! c').
  - intros c'. unfold Channel.get_muted, bind, deref. simpl.
    destruct (decide (c' = c)) as [->|Hc'].
    + rewrite list_lookup_insert_eq by exact Hlt. now rewrite Hc, Ho.
    + rewrite list_lookup_insert_ne by congruence.
      now destruct (h_channels h !! c').
  - intros c'. unfold input_gain. simpl.
    destruct (decide (c' = c)) as [->|Hc'].
    + rewrite list_lookup_insert_eq by exact Hlt. rewrite Hc. simpl.
      now rewrite Hi.
    + now rewrite list_lookup_insert_ne by congruence.
  - intros c'. unfold tracks_of. simpl.
    destruct (decide (c' = c)) as [->|Hc'].
    + rewrite list_lookup_insert_eq by exact Hlt. rewrite Hc. simpl.
      now rewrite Ht.
    + now rewrite list_lookup_insert_ne by congruence.
Qed.

(** ** Mute *)

(** [muted] reads back what was set, setting it again changes nothing, and
    the setter leaves the five controls of every channel, the mute state of
    the other channels, the input gains and the track lists unchanged. *)
Theorem muted_reads_back h c ch (status : bool) :
  h_channels h !! c = Some ch ->
  let h' := exec (Channel.set_muted c status) h in
  eval (Channel.get_muted c) h' = Normal status /\
  exec (Channel.set_muted c status) h' = h' /\
  (forall k c', eval (get_control k c') h' = eval (get_control k c') h) /\
  (forall c', c' <> c ->
     eval (Channel.get_muted c') h' = eval (Channel.get_muted c') h) /\
  (forall c', input_gain c' h' = input_gain c' h) /\
  (forall c', tracks_of c' h' = tracks_of c' h).
Proof.
  intros Hc h'.
  assert (Hlt : c < length (h_channels h)) by now apply lookup_lt_Some in Hc.
  unfold h', exec. rewrite (set_muted_eq _ _ _ status Hc). simpl.
  split; [|split; [|split; [|split; [|split]]]].
  - unfold eval, Channel.get_muted, bind, deref. simpl.
    rewrite list_lookup_insert_eq by exact Hlt. now destruct status.
  - erewrite set_muted_eq
      by (simpl; apply list_lookup_insert_eq; exact Hlt).
    simpl. unfold with_channels. simpl. now rewrite list_insert_insert_eq.
  - intros k c'.
    destruct k;
      unfold eval, get_control, Channel.get_pan, Channel.get_volume,
        Channel.get_lowEQ, Channel.get_midEQ, Channel.get_highEQ,
        bind, deref; simpl;
      (destruct (decide (c' = c)) as [->|Hne];
       [rewrite list_lookup_insert_eq by exact Hlt; now rewrite Hc
       |rewrite list_lookup_insert_ne by congruence;
        now destruct (h_channels h !! c')]).
  - intros c' Hne. unfold eval, Channel.get_muted, bind, deref. simpl.
    rewrite list_lookup_insert_ne by congruence.
    now destruct (h_channels h !! c').
  - intros c'. unfold input_gain. simpl.
    destruct (decide (c' = c)) as [->|Hne].
    + rewrite list_lookup_insert_eq by exact Hlt. now rewrite Hc.
    + now rewrite list_lookup_insert_ne by congruence.
  - intros c'. unfold tracks_of. simpl.
    destruct (decide (c' = c)) as [->|Hne].
    + rewrite list_lookup_insert_eq by exact Hlt. now rewrite Hc.
    + now rewrite list_lookup_insert_ne by congruence.
Qed.

(** ** The mixer *)

(** The [volume] of a mixer: a number that is no [float] is refused with
    a TypeError and nothing changes; a number that converts to the binary32
    value [q] is accepted and [volume] then reads [q], the number itself
    when it is a binary32 value.  The setter leaves the channels, the
    answers of [getChannel] and the other mixers unchanged. *)
Theorem mixer_volume_reads_back h m mx (v : number) :
  h_mixers h !! m = Some mx ->
  let h' := exec (Mixer.set_volume m v) h in
  (to_float v = None ->
   eval (Mixer.set_volume m v) h = Throw TypeError /\ h' = h) /\
  (forall q,
     to_float v = Some q ->
     eval (Mixer.set_volume m v) h = Normal tt /\
     eval (Mixer.get_volume m) h' = Normal q /\
     (forall x, v = Fin x -> q = round binary32 x) /\
     (forall x, v = Fin x -> is_float x = true -> (q == x)%Q)) /\
  h_channels h' = h_channels h /\
  (forall s, eval (Mixer.getChannel m s) h' = eval (Mixer.getChannel m s) h) /\
  (forall m', m' <> m -> h_mixers h' !! m' = h_mixers h !! m').
Proof.
  intros Hm h'.
  assert (Hlt : m < length (h_mixers h)) by now apply lookup_lt_Some in Hm.
  destruct (to_float v) as [q|] eqn:Hv.
  2:{ assert (E : Mixer.set_volume m v h = (Throw TypeError, h)).
      { unfold Mixer.set_volume. rewrite assign_gain. now rewrite Hv. }
      unfold h', eval, exec. rewrite E. simpl.
      split; [now intros _|]. split; [discriminate|]. repeat split. }
  assert (E : Mixer.set_volume m v h =
    (Normal tt,
     with_mixers
       (<[m := set_mixer_gainNode {| gain := {| value := q |} |} mx]>
          (h_mixers h)) h)).
  { unfold Mixer.set_volume. rewrite assign_gain, Hv.
    unfold bind at 1. unfold ret at 1.
    apply (update_mixer_Some _ _ _ _ Hm). }
  unfold h', exec, eval. rewrite E. simpl.
  split; [discriminate|]. split; [|split; [reflexivity|split]].
  - intros q' [= <-]. split; [reflexivity|]. split; [|split].
    + unfold Mixer.get_volume, bind, deref. simpl.
      now rewrite list_lookup_insert_eq by exact Hlt.
    + intros x Ex. apply to_float_Fin in Hv as (x0 & Ex0 & -> & _).
      congruence.
    + intros x Ex Hx. apply to_float_Fin in Hv as (x0 & Ex0 & -> & _).
      replace x0 with x by congruence.
      now apply is_float_iff in Hx as [Hx _].
  - intros s.
    erewrite getChannel_eq
      by (simpl; apply list_lookup_insert_eq; exact Hlt).
    now rewrite (getChannel_eq _ _ s _ Hm).
  - intros m' Hne. now rewrite list_lookup_insert_ne by congruence.
Qed.

(** [createAudioMixer( context )] is [new AudioMixer( context )]: it answers
    a new mixer without channels and with volume 1, on the context given
    or, without one, on the context the audio-context package keeps, and
    leaves the channels of the heap alone.  The package makes one context:
    two mixers made without a context are on the same one. *)
Theorem createAudioMixer_is_constructor (context : option audio_context) h :
  let h' := exec (createAudioMixer context) h in
  let m := length (h_mixers h) in
  createAudioMixer context h = Mixer.new context h /\
  eval (createAudioMixer context) h = Normal m /\
  h_mixers h' =
    h_mixers h ++
      [{| ctx := from_option (fun c => c) Cached context;
          channels := [];
          mixer_gainNode := {| gain := {| value := 1 |} |} |}] /\
  h_contexts h' =
    match context, h_contexts h with
    | None, O => 1
    | _, n => n
    end /\
  h_channels h' = h_channels h /\
  eval (Mixer.get_volume m) h' = Normal 1%Q /\
  (forall s, eval (Mixer.getChannel m s) h' = Normal Null) /\
  (let twice := exec (createAudioMixer None) (exec (createAudioMixer None) h) in
   ctx <$> h_mixers twice !! m = Some Cached /\
   ctx <$> h_mixers twice !! S m = Some Cached /\
   h_contexts twice = h_contexts (exec (createAudioMixer None) h)).
Proof.
  cbv zeta.
  assert (E : forall o h0, createAudioMixer o h0 = Mixer.new o h0)
    by (intros o h0; now destruct o).
  split; [apply E|]. unfold eval, exec. rewrite !E.
  destruct context as [c|]; simpl; repeat split.
  all: try (unfold Mixer.get_volume, bind, deref; simpl;
            now rewrite lookup_snoc).
  all: try (intros s; unfold Mixer.getChannel, bind, deref; simpl;
            now rewrite lookup_snoc).
  all: try (rewrite lookup_app_l by (rewrite length_app; simpl; lia);
            now rewrite lookup_snoc).
  all: try (replace (S (length (h_mixers h)))
              with (length (h_mixers h ++
                      [{| ctx := Cached; channels := [];
                          mixer_gainNode := {| gain := {| value := 1 |} |} |}]))
              by (rewrite length_app; simpl; lia);
            now rewrite lookup_snoc).
  all: now destruct (h_contexts h).
Qed.

(** ** The shape of the heap in a session *)

Lemma keeps_sound_refl h : keeps_sound h h.
Proof. now intros H. Qed.

Lemma keeps_sound_trans h1 h2 h3 :
  keeps_sound h1 h2 -> keeps_sound h2 h3 -> keeps_sound h1 h3.
Proof. unfold keeps_sound. tauto. Qed.

(** Soundness looks at the three object stores only. *)
Lemma sound_stores h h' :
  h_mixers h' = h_mixers h -> h_channels h' = h_channels h ->
  h_tracks h' = h_tracks h -> keeps_sound h h'.
Proof.
  intros Em Ec Et [S1 S2 S3 S4 S5 S6].
  split; rewrite ?Em, ?Ec, ?Et; assumption.
Qed.

(** Writing a channel back with the same mixer and the same tracks. *)
Lemma sound_channel_written h h' c ch ch' :
  h_channels h !! c = Some ch ->
  h_channels h' = <[c := ch']> (h_channels h) ->
  h_mixers h' = h_mixers h -> h_tracks h' = h_tracks h ->
  tracks ch' = tracks ch -> mixer ch' = mixer ch ->
  keeps_sound h h'.
Proof.
  intros Hc Ec Em Et Htr Hmx [S1 S2 S3 S4 S5 S6].
  assert (Hlt : c < length (h_channels h)) by now apply lookup_lt_Some in Hc.
  assert (Hlook : forall c0 ch0,
    h_channels h' !! c0 = Some ch0 ->
    exists ch1, h_channels h !! c0 = Some ch1 /\
                tracks ch0 = tracks ch1 /\ mixer ch0 = mixer ch1).
  { intros c0 ch0. rewrite Ec. destruct (decide (c = c0)) as [<-|Hne].
    - rewrite list_lookup_insert_eq by exact Hlt. intros [= <-]. eauto.
    - rewrite list_lookup_insert_ne by exact Hne. eauto. }
  assert (Hback : forall c0 ch1,
    h_channels h !! c0 = Some ch1 ->
    exists ch0, h_channels h' !! c0 = Some ch0 /\
                tracks ch0 = tracks ch1 /\ mixer ch0 = mixer ch1).
  { intros c0 ch1 H1. rewrite Ec. destruct (decide (c = c0)) as [<-|Hne].
    - rewrite list_lookup_insert_eq by exact Hlt.
      exists ch'. replace ch1 with ch by congruence. eauto.
    - rewrite list_lookup_insert_ne by exact Hne. eauto. }
  split; rewrite ?Em, ?Et.
  - intros m mx c0 Hm Hin. destruct (S1 m mx c0 Hm Hin) as (ch1 & H1 & Hmix).
    destruct (Hback c0 ch1 H1) as (ch0 & H0 & _ & E). exists ch0.
    split; [exact H0|congruence].
  - exact S2.
  - intros c0 ch0 H0. destruct (Hlook c0 ch0 H0) as (ch1 & H1 & _ & ->).
    now apply (S3 c0).
  - intros c0 ch0 t H0. destruct (Hlook c0 ch0 H0) as (ch1 & H1 & -> & _).
    now apply (S4 c0).
  - intros c0 ch0 H0. destruct (Hlook c0 ch0 H0) as (ch1 & H1 & -> & _).
    now apply (S5 c0).
  - intros t tr c0 Ht Hin. destruct (S6 t tr c0 Ht Hin) as (ch1 & H1 & Hl).
    destruct (Hback c0 ch1 H1) as (ch0 & H0 & E & _). exists ch0.
    split; [exact H0|now rewrite E].
Qed.

Lemma sound_update_channel r f :
  (forall ch, tracks (f ch) = tracks ch) ->
  (forall ch, mixer (f ch) = mixer ch) ->
  respects keeps_sound (update_channel r f).
Proof.
  intros Ht Hm h. destruct (h_channels h !! r) as [ch|] eqn:E.
  - rewrite (update_channel_Some _ _ _ _ E).
    apply (sound_channel_written h _ r ch (f ch)); auto.
  - rewrite (update_channel_None _ _ _ E). apply keeps_sound_refl.
Qed.

Lemma sound_update_mixer r f :
  (forall m, channels (f m) = channels m) ->
  respects keeps_sound (update_mixer r f).
Proof.
  intros Hf h. destruct (h_mixers h !! r) as [mx|] eqn:E.
  2:{ unfold update_mixer.
      rewrite (bind_Throw _ _ _ _ _ (deref_None h_mixers _ _ E)).
      apply keeps_sound_refl. }
  rewrite (update_mixer_Some _ _ _ _ E). simpl.
  assert (Hlt : r < length (h_mixers h)) by now apply lookup_lt_Some in E.
  assert (Hlook : forall m mx',
    <[r := f mx]> (h_mixers h) !! m = Some mx' ->
    exists mx0, h_mixers h !! m = Some mx0 /\ channels mx' = channels mx0).
  { intros m mx'. destruct (decide (r = m)) as [<-|Hne].
    - rewrite list_lookup_insert_eq by exact Hlt. intros [= <-]. eauto.
    - rewrite list_lookup_insert_ne by exact Hne. eauto. }
  intros [S1 S2 S3 S4 S5 S6]. split; simpl; try assumption.
  - intros m mx' c Hm. destruct (Hlook m mx' Hm) as (mx0 & H0 & ->).
    now apply (S1 m).
  - intros m mx' Hm. destruct (Hlook m mx' Hm) as (mx0 & H0 & ->).
    now apply (S2 m).
  - intros c ch Hc. rewrite length_insert. now apply (S3 c).
Qed.

Lemma sound_alloc_mixer mx :
  channels mx = [] -> respects keeps_sound (alloc_mixer mx).
Proof.
  intros Hnil h [S1 S2 S3 S4 S5 S6]. split; simpl; try assumption.
  - intros m mx' c Hm Hin.
    apply lookup_app_Some in Hm as [Hm|[_ Hm]]; [now apply (S1 m mx')|].
    apply list_lookup_singleton_Some in Hm as [_ <-].
    rewrite Hnil in Hin. now apply not_elem_of_nil in Hin.
  - intros m mx' Hm.
    apply lookup_app_Some in Hm as [Hm|[_ Hm]]; [now apply (S2 m)|].
    apply list_lookup_singleton_Some in Hm as [_ <-].
    rewrite Hnil. constructor.
  - intros c ch Hc. rewrite length_app. specialize (S3 c ch Hc). simpl. lia.
Qed.

Lemma sound_AudioContext : respects keeps_sound AudioContext.
Proof. intros h. now apply sound_stores. Qed.

Lemma sound_Channel_new m : respects keeps_sound (Channel.new m).
Proof.
  intros h. unfold Channel.new.
  destruct (h_mixers h !! m) as [mx|] eqn:E.
  2:{ rewrite (bind_Throw _ _ _ _ _ (deref_None h_mixers _ _ E)).
      apply keeps_sound_refl. }
  rewrite (bind_Normal _ _ _ _ _ (deref_Some h_mixers _ _ _ E)). simpl.
  intros [S1 S2 S3 S4 S5 S6]. split; simpl; try assumption.
  - intros m0 mx0 c Hm Hin. destruct (S1 m0 mx0 c Hm Hin) as (ch & Hc & Hmx).
    exists ch. split; [now apply lookup_app_l_Some|exact Hmx].
  - intros c ch Hc.
    apply lookup_app_Some in Hc as [Hc|[_ Hc]]; [now apply (S3 c)|].
    apply list_lookup_singleton_Some in Hc as [_ <-]. simpl.
    now apply lookup_lt_Some in E.
  - intros c ch t Hc Hin.
    apply lookup_app_Some in Hc as [Hc|[_ Hc]]; [now apply (S4 c ch)|].
    apply list_lookup_singleton_Some in Hc as [_ <-].
    now apply not_elem_of_nil in Hin.
  - intros c ch Hc.
    apply lookup_app_Some in Hc as [Hc|[_ Hc]]; [now apply (S5 c)|].
    apply list_lookup_singleton_Some in Hc as [_ <-]. constructor.
  - intros t tr c Ht Hin. destruct (S6 t tr c Ht Hin) as (ch & Hc & Hl).
    exists ch. split; [now apply lookup_app_l_Some|exact Hl].
Qed.

Lemma sound_Track_new audioSource audioContext :
  respects keeps_sound (Track.new audioSource audioContext).
Proof.
  intros h.
  destruct (Track_new_cases audioSource audioContext h)
    as [(e & ->)|(el & els & ->)]; [apply keeps_sound_refl|].
  intros [S1 S2 S3 S4 S5 S6].
  split; simpl; try assumption.
  - intros c ch t Hc Hin. rewrite length_app. specialize (S4 c ch t Hc Hin).
    lia.
  - intros t tr c Ht Hin.
    apply lookup_app_Some in Ht as [Ht|[_ Ht]]; [now apply (S6 t tr)|].
    apply list_lookup_singleton_Some in Ht as [_ <-].
    now apply not_elem_of_nil in Hin.
Qed.

Lemma output_missing_channel h t c :
  h_channels h !! c = None -> Track.output t c h = (Throw BadRef, h).
Proof.
  intros Hc. unfold Track.output.
  now rewrite (bind_Throw _ _ _ _ _ (deref_None h_channels _ _ Hc)).
Qed.

Lemma sound_output t c : respects keeps_sound (Track.output t c).
Proof.
  intros h.
  destruct (h_channels h !! c) as [ch|] eqn:Hc.
  2:{ rewrite (output_missing_channel _ _ _ Hc). apply keeps_sound_refl. }
  destruct (decide (t ∈ tracks ch)) as [Hin|Hnin].
  { rewrite (output_listed _ _ _ _ Hc Hin). apply keeps_sound_refl. }
  destruct (h_tracks h !! t) as [tr|] eqn:Ht.
  2:{ rewrite (output_dangling _ _ _ _ Hc Hnin Ht). apply keeps_sound_refl. }
  rewrite (output_attach _ _ _ _ _ Hc Hnin Ht). simpl.
  assert (Hlc : c < length (h_channels h)) by now apply lookup_lt_Some in Hc.
  assert (Hlt : t < length (h_tracks h)) by now apply lookup_lt_Some in Ht.
  intros [S1 S2 S3 S4 S5 S6]. split; simpl; try assumption.
  - intros m mx c0 Hm Hin. destruct (S1 m mx c0 Hm Hin) as (ch0 & H0 & Hmx).
    destruct (decide (c = c0)) as [<-|Hne].
    + rewrite list_lookup_insert_eq by exact Hlc. eexists. split; [reflexivity|].
      simpl. congruence.
    + rewrite list_lookup_insert_ne by exact Hne. eauto.
  - intros c0 ch0. destruct (decide (c = c0)) as [<-|Hne].
    + rewrite list_lookup_insert_eq by exact Hlc. intros [= <-]. simpl.
      now apply (S3 c).
    + rewrite list_lookup_insert_ne by exact Hne. apply S3.
  - intros c0 ch0 t0. rewrite length_insert.
    destruct (decide (c = c0)) as [<-|Hne].
    + rewrite list_lookup_insert_eq by exact Hlc. intros [= <-]. simpl.
      intros Hin. apply elem_of_app in Hin as [Hin|Hin].
      * now apply (S4 c ch).
      * apply list_elem_of_singleton in Hin as ->. exact Hlt.
    + rewrite list_lookup_insert_ne by exact Hne. apply S4.
  - intros c0 ch0. destruct (decide (c = c0)) as [<-|Hne].
    + rewrite list_lookup_insert_eq by exact Hlc. intros [= <-]. simpl.
      apply NoDup_app. split; [now apply (S5 c)|]. split; [|apply NoDup_singleton].
      intros x Hx Hx'. apply list_elem_of_singleton in Hx' as ->. contradiction.
    + rewrite list_lookup_insert_ne by exact Hne. apply S5.
  - intros t0 tr0 c0. destruct (decide (t = t0)) as [<-|Hne].
    + rewrite list_lookup_insert_eq by exact Hlt. intros [= <-]. simpl.
      intros Hin. apply list_elem_of_singleton in Hin as ->.
      rewrite list_lookup_insert_eq by exact Hlc. eexists. split; [reflexivity|].
      simpl. apply elem_of_app. right. now apply list_elem_of_singleton.
    + rewrite list_lookup_insert_ne by exact Hne. intros Ht0 Hin.
      destruct (S6 t0 tr0 c0 Ht0 Hin) as (ch0 & H0 & Hl).
      destruct (decide (c = c0)) as [<-|Hnc].
      * rewrite list_lookup_insert_eq by exact Hlc. eexists.
        split; [reflexivity|]. simpl. apply elem_of_app. left. congruence.
      * rewrite list_lookup_insert_ne by exact Hnc. eauto.
Qed.

Lemma addChannel_missing_mixer h m id' :
  h_mixers h !! m = None -> Mixer.addChannel m id' h = (Throw BadRef, h).
Proof.
  intros Hm. unfold Mixer.addChannel, Channel.new.
  unfold bind at 1. unfold bind at 1.
  now rewrite (deref_None h_mixers _ _ Hm).
Qed.

Lemma sound_addChannel m id' : respects keeps_sound (Mixer.addChannel m id').
Proof.
  intros h.
  destruct (h_mixers h !! m) as [mx|] eqn:Hm.
  2:{ rewrite (addChannel_missing_mixer _ _ _ Hm). apply keeps_sound_refl. }
  rewrite (addChannel_eq _ _ id' _ Hm). simpl.
  assert (Hlm : m < length (h_mixers h)) by now apply lookup_lt_Some in Hm.
  intros [S1 S2 S3 S4 S5 S6].
  assert (Hfresh : length (h_channels h) ∉ channels mx).
  { intros Hin. destruct (S1 m mx _ Hm Hin) as (ch & Hc & _).
    apply lookup_lt_Some in Hc. lia. }
  split; simpl.
  - intros m0 mx0 c. destruct (decide (m = m0)) as [<-|Hne].
    + rewrite list_lookup_insert_eq by exact Hlm. intros [= <-]. simpl.
      intros Hin. apply elem_of_app in Hin as [Hin|Hin].
      * destruct (S1 m mx c Hm Hin) as (ch & Hc & Hmx). exists ch.
        split; [now apply lookup_app_l_Some|exact Hmx].
      * apply list_elem_of_singleton in Hin as ->. eexists.
        split; [apply lookup_snoc|reflexivity].
    + rewrite list_lookup_insert_ne by exact Hne. intros Hm0 Hin.
      destruct (S1 m0 mx0 c Hm0 Hin) as (ch & Hc & Hmx). exists ch.
      split; [now apply lookup_app_l_Some|exact Hmx].
  - intros m0 mx0. destruct (decide (m = m0)) as [<-|Hne].
    + rewrite list_lookup_insert_eq by exact Hlm. intros [= <-]. simpl.
      apply NoDup_app. split; [now apply (S2 m)|].
      split; [|apply NoDup_singleton].
      intros x Hx Hx'. apply list_elem_of_singleton in Hx' as ->. contradiction.
    + rewrite list_lookup_insert_ne by exact Hne. apply S2.
  - intros c ch Hc. rewrite length_insert.
    apply lookup_app_Some in Hc as [Hc|[_ Hc]]; [now apply (S3 c)|].
    apply list_lookup_singleton_Some in Hc as [_ <-]. exact Hlm.
  - intros c ch t Hc Hin.
    apply lookup_app_Some in Hc as [Hc|[_ Hc]]; [now apply (S4 c ch)|].
    apply list_lookup_singleton_Some in Hc as [_ <-].
    now apply not_elem_of_nil in Hin.
  - intros c ch Hc.
    apply lookup_app_Some in Hc as [Hc|[_ Hc]]; [now apply (S5 c)|].
    apply list_lookup_singleton_Some in Hc as [_ <-]. constructor.
  - intros t tr c Ht Hin. destruct (S6 t tr c Ht Hin) as (ch & Hc & Hl).
    exists ch. split; [now apply lookup_app_l_Some|exact Hl].
Qed.

Lemma expiry_keeps_sound int h h' : expiry int h h' -> keeps_sound h h'.
Proof.
  intros [Hidle|t ch Hi Hcl Hc Hg|t ch q Hi Hcl Hc Hg Hq|t Hi Hcl Hf].
  - apply keeps_sound_refl.
  - now apply (sound_channel_written h _ (target (handler t)) ch
                 (set_inputNode
                    {| gain := {| value :=
                         boundary (direction_of (handler t)) |} |} ch)).
  - now apply (sound_channel_written h _ (target (handler t)) ch
                (set_inputNode {| gain := {| value := q |} |} ch)).
  - now apply sound_stores.
Qed.

Ltac sound_prim :=
  idtac;
  lazymatch goal with
  | |- respects _ (alloc_element _) =>
      intros ?; now apply sound_stores
  | |- respects _ (alloc_mixer _) => apply sound_alloc_mixer; reflexivity
  | |- respects _ AudioContext => apply sound_AudioContext
  | |- respects _ (update_mixer _ _) =>
      apply sound_update_mixer; intros ?; reflexivity
  | |- respects _ (update_channel _ _) =>
      apply sound_update_channel; intros ?; reflexivity
  | |- respects _ (Channel.new _) => apply sound_Channel_new
  | |- respects _ (Track.new _ _) => apply sound_Track_new
  | |- respects _ (Track.output _ _) => apply sound_output
  | |- respects _ (Mixer.addChannel _ _) => apply sound_addChannel
  end.

Ltac sound_method :=
  respects_with keeps_sound_refl keeps_sound_trans sound_prim.

Lemma perform_sound a h : sound h -> sound (perform a h).
Proof.
  enough (keeps_sound h (perform a h)) as H by exact H.
  destruct a; unfold perform, exec;
    try match goal with |- keeps_sound _ (snd (?m _)) =>
      enough (respects keeps_sound m) as Hm by apply Hm end.
  all: try solve
    [ unfold createAudioMixer, Mixer.new, Mixer.getChannel,
        Mixer.set_volume, Channel.input, Channel.addTrack,
        Channel.set_pan, Channel.set_volume, Channel.set_lowEQ,
        Channel.set_midEQ, Channel.set_highEQ, Channel.set_muted;
      sound_method ].
  - intros h0. refine (sound_stores _ _ _ _ _); now rewrite fade_eq.
  - apply (expiry_keeps_sound int), turn_cases.
Qed.

Lemma empty_heap_sound : sound empty_heap.
Proof. split; simpl; intros; discriminate. Qed.

Lemma session_heap_is_sound h : reachable h -> sound h.
Proof.
  revert h. apply (reachable_ind sound); [apply empty_heap_sound|].
  intros a h _. apply perform_sound.
Qed.

(** ** Adding channels and finding them *)

Lemma findIndex_from_ext {A} (p p' : A -> bool) l i :
  (forall x, x ∈ l -> p x = p' x) ->
  findIndex_from p l i = findIndex_from p' l i.
Proof.
  revert i. induction l as [|x l IH]; intros i H; simpl; [reflexivity|].
  rewrite <- (H x) by apply list_elem_of_here.
  destruct (p x); [reflexivity|].
  apply IH. intros y Hy. apply H. now apply list_elem_of_further.
Qed.

Lemma findIndex_from_app {A} (p : A -> bool) l1 l2 i :
  (0 <= i)%Z ->
  findIndex_from p (l1 ++ l2) i =
  if (findIndex_from p l1 i =? -1)%Z
  then findIndex_from p l2 (i + Z.of_nat (length l1))%Z
  else findIndex_from p l1 i.
Proof.
  revert i. induction l1 as [|x l1 IH]; intros i Hi; simpl.
  - now rewrite Z.add_0_r.
  - destruct (p x).
    + destruct (Z.eqb_spec i (-1)); [lia|reflexivity].
    + rewrite IH by lia.
      replace (i + 1 + Z.of_nat (length l1))%Z
        with (i + Z.pos (Pos.of_succ_nat (length l1)))%Z by lia.
      reflexivity.
Qed.

Lemma array_get_app_l {A} (l1 l2 : list A) i :
  (i < Z.of_nat (length l1))%Z -> array_get (l1 ++ l2) i = array_get l1 i.
Proof.
  intros Hi. unfold array_get. destruct (i <? 0)%Z eqn:E; [reflexivity|].
  apply Z.ltb_ge in E. apply lookup_app_l. lia.
Qed.

Lemma has_id_snoc h m l c x s :
  c < length l ->
  Mixer.has_id (with_mixers m (with_channels (l ++ [x]) h)) s c =
  match l !! c with
  | Some ch => String.eqb (id ch) s
  | None => false
  end.
Proof.
  intros Hc. unfold Mixer.has_id. simpl. now rewrite lookup_app_l.
Qed.

(** [addChannel] answers a new channel whose id is the id given or, without
    one, the decimal form of the number of channels before the call.
    Afterwards [getChannel] answers what it answered before for every id that
    was found, and the new channel for its own id only when that id was not
    found before: an older channel of the same id shadows it. *)
Theorem added_channel_found_unless_shadowed h m mx id' :
  sound h ->
  h_mixers h !! m = Some mx ->
  let s := or_string id' (toString (length (channels mx))) in
  let n := length (h_channels h) in
  let h' := exec (Mixer.addChannel m id') h in
  eval (Mixer.addChannel m id') h = Normal n /\
  id_of n h' = Some s /\
  (forall s',
     eval (Mixer.getChannel m s') h' =
     match eval (Mixer.getChannel m s') h with
     | Normal Null => if String.eqb s s' then Normal (Obj n) else Normal Null
     | found => found
     end).
Proof.
  intros Hs Hm. cbv zeta.
  set (s := or_string id' (toString (length (channels mx)))).
  assert (Hlm : m < length (h_mixers h)) by now apply lookup_lt_Some in Hm.
  unfold eval, exec. rewrite (addChannel_eq _ _ id' _ Hm). simpl.
  split; [reflexivity|]. split.
  { unfold id_of. simpl. now rewrite lookup_snoc. }
  intros s'.
  erewrite getChannel_eq by (simpl; apply list_lookup_insert_eq; exact Hlm).
  rewrite (getChannel_eq _ _ s' _ Hm). simpl.
  assert (Hvalid : forall c, c ∈ channels mx -> c < length (h_channels h)).
  { intros c Hc. destruct (sound_channels h Hs m mx c Hm Hc) as (ch & E & _).
    now apply lookup_lt_Some in E. }
  unfold findIndex. rewrite findIndex_from_app by lia.
  rewrite (findIndex_from_ext _ (Mixer.has_id h s') (channels mx)).
  2:{ intros c Hc. rewrite has_id_snoc by now apply Hvalid. reflexivity. }
  destruct (findIndex_from_range (Mixer.has_id h s') (channels mx) 0)
    as [E|E]; [lia| |].
  - rewrite E. simpl (_ =? _)%Z. cbn iota. unfold array_get at 2. simpl.
    unfold Mixer.has_id at 1. simpl. rewrite lookup_snoc. simpl.
    fold s. destruct (String.eqb s s'); [|reflexivity].
    rewrite Z.add_0_l, array_get_middle. reflexivity.
  - destruct (Z.eqb_spec (findIndex_from (Mixer.has_id h s') (channels mx) 0)
                (-1)); [lia|].
    rewrite array_get_app_l by lia.
    unfold array_get.
    destruct (Z.ltb_spec (findIndex_from (Mixer.has_id h s') (channels mx) 0) 0);
      [lia|].
    destruct (channels mx !! _) eqn:El; [reflexivity|].
    apply lookup_ge_None in El. lia.
Qed.

Lemma to_uint_not_Nil n : Nat.to_uint n <> Decimal.Nil.
Proof.
  intros E. pose proof (DecimalNat.Unsigned.of_to n) as H. rewrite E in H.
  simpl in H. subst n. discriminate.
Qed.

Lemma toString_inj n n' : toString n = toString n' -> n = n'.
Proof.
  unfold toString, NilZero.string_of_uint. intros E.
  pose proof (to_uint_not_Nil n) as Hn. pose proof (to_uint_not_Nil n') as Hn'.
  apply DecimalNat.Unsigned.to_uint_inj.
  assert (E' : NilEmpty.string_of_uint (Nat.to_uint n) =
               NilEmpty.string_of_uint (Nat.to_uint n')).
  { destruct (Nat.to_uint n), (Nat.to_uint n'); try contradiction; exact E. }
  pose proof (NilEmpty.usu (Nat.to_uint n)) as U.
  rewrite E', NilEmpty.usu in U. congruence.
Qed.

Lemma repeat_snoc {A} (a : A) n : repeat a (S n) = repeat a n ++ [a].
Proof. induction n as [|n IH]; [reflexivity|]. simpl in *. now rewrite <- IH. Qed.

(** The heap after [k] calls of [addChannel( )] on a mixer that was empty. *)
Lemma default_ids_state h m mx k :
  h_mixers h !! m = Some mx -> channels mx = [] ->
  let hk := run (repeat (AddChannel m None) k) h in
  (exists mxk, h_mixers hk !! m = Some mxk /\
               channels mxk = seq (length (h_channels h)) k) /\
  length (h_channels hk) = length (h_channels h) + k /\
  (forall j, j < k -> id_of (length (h_channels h) + j) hk = Some (toString j)).
Proof.
  intros Hm Hnil. induction k as [|k IH]; cbv zeta.
  - simpl. split; [exists mx; now rewrite Hnil|]. split; [lia|]. intros j Hj. lia.
  - rewrite repeat_snoc, run_snoc. cbv zeta in IH.
    set (hk := run (repeat (AddChannel m None) k) h) in *.
    destruct IH as ((mxk & Hmk & Hck) & Hlen & Hids).
    destruct (addChannel_effect hk m None mxk Hmk) as (h' & E & M & C).
    assert (Eh : perform (AddChannel m None) hk = h').
    { unfold perform, exec. now rewrite E. }
    rewrite Eh. split; [|split].
    + eexists. split; [exact M|]. cbn [channels set_channels].
      rewrite Hck, Hlen, seq_S. reflexivity.
    + rewrite C, length_app. simpl. lia.
    + intros j Hj. unfold id_of. rewrite C.
      destruct (decide (j = k)) as [->|Hne].
      * rewrite <- Hlen, lookup_snoc. simpl. now rewrite Hck, length_seq.
      * rewrite lookup_app_l by lia. apply Hids. lia.
Qed.

(** After [n] calls of [addChannel] without id on a mixer without channels,
    the [i]-th channel made has the id [i] in decimal, and [getChannel] of
    that id answers it. *)
Theorem default_ids_find_their_channels h m mx n i :
  h_mixers h !! m = Some mx ->
  channels mx = [] ->
  i < n ->
  let h' := run (repeat (AddChannel m None) n) h in
  id_of (length (h_channels h) + i) h' = Some (toString i) /\
  eval (Mixer.getChannel m (toString i)) h' =
    Normal (Obj (length (h_channels h) + i)).
Proof.
  intros Hm Hnil Hi. cbv zeta.
  destruct (default_ids_state h m mx n Hm Hnil) as ((mxn & Hmn & Hcn) & Hlen & Hids).
  split; [now apply Hids|].
  unfold eval. rewrite (getChannel_eq _ _ (toString i) _ Hmn). simpl.
  rewrite Hcn.
  assert (Hseq : seq (length (h_channels h)) n =
                 seq (length (h_channels h)) i ++
                   (length (h_channels h) + i) ::
                   seq (S (length (h_channels h) + i)) (n - S i)).
  { replace n with (i + S (n - S i)) at 1 by lia. now rewrite seq_app. }
  rewrite Hseq. unfold findIndex.
  rewrite findIndex_from_first.
  - rewrite Z.add_0_l, array_get_middle. reflexivity.
  - intros c Hc. apply elem_of_seq in Hc as [Hlo Hhi].
    unfold Mixer.has_id.
    pose proof (Hids (c - length (h_channels h))) as Hj.
    replace (length (h_channels h) + (c - length (h_channels h))) with c
      in Hj by lia.
    unfold id_of in Hj.
    destruct (h_channels _ !! c) as [ch|]; [|reflexivity].
    specialize (Hj ltac:(lia)). simpl in Hj. injection Hj as ->.
    apply String.eqb_neq. intros E. apply toString_inj in E. lia.
  - unfold Mixer.has_id. pose proof (Hids i ltac:(lia)) as Hj.
    unfold id_of in Hj.
    destruct (h_channels _ !! _) as [ch|]; [|discriminate].
    simpl in Hj. injection Hj as ->. apply String.eqb_refl.
Qed.

(** ** Channels as their constructor leaves them *)

(** A channel as its constructor leaves it, made by [addChannel] or by
    [new AudioChannel]: pan 0, volume 1, the three bands at 0, not muted,
    input gain 1, no tracks. *)
Theorem new_channel_defaults h m mx id' :
  h_mixers h !! m = Some mx ->
  let c := length (h_channels h) in
  forall h',
    h' = exec (Mixer.addChannel m id') h \/ h' = exec (Channel.new m) h ->
    eval (get_control Pan c) h' = Normal 0%Q /\
    eval (get_control Volume c) h' = Normal 1%Q /\
    eval (get_control LowEQ c) h' = Normal 0%Q /\
    eval (get_control MidEQ c) h' = Normal 0%Q /\
    eval (get_control HighEQ c) h' = Normal 0%Q /\
    eval (Channel.get_muted c) h' = Normal false /\
    input_gain c h' = Some 1%Q /\
    tracks_of c h' = Some [].
Proof.
  intros Hm c h' [-> | ->]; unfold exec.
  - rewrite (addChannel_eq _ _ id' _ Hm).
    unfold eval, get_control, Channel.get_pan, Channel.get_volume,
      Channel.get_lowEQ, Channel.get_midEQ, Channel.get_highEQ,
      Channel.get_muted, bind, deref, input_gain, tracks_of. simpl.
    unfold c. rewrite lookup_snoc. repeat split.
  - unfold Channel.new.
    rewrite (bind_Normal _ _ _ _ _ (deref_Some h_mixers _ _ _ Hm)).
    unfold eval, get_control, Channel.get_pan, Channel.get_volume,
      Channel.get_lowEQ, Channel.get_midEQ, Channel.get_highEQ,
      Channel.get_muted, bind, deref, input_gain, tracks_of. simpl.
    unfold c. rewrite lookup_snoc. repeat split.
Qed.

(** [new AudioChannel( mixer )] alone makes a channel of id ["N/A"] that
    knows its mixer and is not in the mixer's list: [getChannel] answers what
    it answered before for every id. *)
Theorem constructed_channel_is_not_listed h m mx :
  sound h ->
  h_mixers h !! m = Some mx ->
  let c := length (h_channels h) in
  let h' := exec (Channel.new m) h in
  eval (Channel.new m) h = Normal c /\
  id_of c h' = Some "N/A" /\
  mixer <$> h_channels h' !! c = Some m /\
  h_mixers h' = h_mixers h /\
  (c ∉ channels mx) /\
  (forall s, eval (Mixer.getChannel m s) h' = eval (Mixer.getChannel m s) h).
Proof.
  intros Hs Hm. cbv zeta. unfold eval, exec, Channel.new.
  rewrite (bind_Normal _ _ _ _ _ (deref_Some h_mixers _ _ _ Hm)). simpl.
  assert (Hvalid : forall c, c ∈ channels mx -> c < length (h_channels h)).
  { intros c Hc. destruct (sound_channels h Hs m mx c Hm Hc) as (ch & E & _).
    now apply lookup_lt_Some in E. }
  split; [reflexivity|]. unfold id_of. simpl. rewrite lookup_snoc.
  split; [reflexivity|]. split; [reflexivity|]. split; [reflexivity|].
  split; [intros Hin; apply Hvalid in Hin; lia|].
  intros s. unfold Mixer.getChannel, bind, deref, gets. simpl. rewrite Hm.
  simpl. unfold findIndex.
  rewrite (findIndex_from_ext _ (Mixer.has_id h s) (channels mx));
    [reflexivity|].
  intros c Hc. unfold Mixer.has_id. simpl.
  now rewrite lookup_app_l by now apply Hvalid.
Qed.

(** ** Tracks and the channels that list them *)

(** In every session a channel lists tracks that exist, each once, and the
    port of a track feeds one channel at most, which lists the track. *)
Theorem track_lists_are_sound h :
  reachable h ->
  (forall c ch,
     h_channels h !! c = Some ch ->
     NoDup (tracks ch) /\
     forall t, t ∈ tracks ch -> is_Some (h_tracks h !! t)) /\
  (forall t outs c,
     connections_of t h = Some outs -> c ∈ outs ->
     outs = [c] /\ exists l, tracks_of c h = Some l /\ t ∈ l).
Proof.
  intros Hr. pose proof (session_heap_is_sound h Hr) as [S1 S2 S3 S4 S5 S6].
  split.
  - intros c ch Hc. split; [now apply (S5 c)|].
    intros t Ht. apply lookup_lt_is_Some. now apply (S4 c ch).
  - intros t outs c Ht Hin. unfold connections_of in Ht.
    apply fmap_Some in Ht as (tr & Ht & ->).
    pose proof (reachable_single_port h Hr t tr Ht) as Hlen.
    split.
    + destruct (outputs (sourceNode tr)) as [|x [|y l]];
        [now apply not_elem_of_nil in Hin| |simpl in Hlen; lia].
      now apply list_elem_of_singleton in Hin as ->.
    + destruct (S6 t tr c Ht Hin) as (ch & Hc & Hl).
      exists (tracks ch). unfold tracks_of. now rewrite Hc.
Qed.

(** In every session a mixer lists channels that exist, each once, all of
    them constructed on this mixer, and the mixer of every channel exists. *)
Theorem mixer_lists_are_sound h :
  reachable h ->
  (forall m mx,
     h_mixers h !! m = Some mx ->
     NoDup (channels mx) /\
     forall c, c ∈ channels mx ->
       exists ch, h_channels h !! c = Some ch /\ mixer ch = m) /\
  (forall c ch,
     h_channels h !! c = Some ch -> is_Some (h_mixers h !! mixer ch)).
Proof.
  intros Hr. pose proof (session_heap_is_sound h Hr) as [S1 S2 S3 S4 S5 S6].
  split.
  - intros m mx Hm. split; [now apply (S2 m)|]. intros c. now apply S1.
  - intros c ch Hc. apply lookup_lt_is_Some. now apply (S3 c).
Qed.


(** A track that went from a channel to another one cannot be brought back:
    attaching it to the first channel again, by any of the three methods,
    changes nothing, since that channel still lists it; the port keeps
    feeding the second channel. *)
Theorem moved_track_does_not_come_back h t c1 c2 ch1 ch2 tr
    (via via' : attachment) :
  h_channels h !! c1 = Some ch1 -> t ∈ tracks ch1 ->
  h_channels h !! c2 = Some ch2 -> t ∉ tracks ch2 ->
  h_tracks h !! t = Some tr ->
  let away := exec (attach via c2 t) h in
  let back := exec (attach via' c1 t) away in
  back = away /\
  eval (attach via' c1 t) away = Normal tt /\
  connections_of t back = Some [c2] /\
  tracks_of c1 back = Some (tracks ch1) /\
  tracks_of c2 back = Some (tracks ch2 ++ [t]).
Proof.
  intros H1 Hin1 H2 Hnin2 Ht. cbv zeta.
  assert (Hne : c1 <> c2) by (intros ->; congruence).
  rewrite !attach_exec.
  pose proof (output_attach h t c2 ch2 tr H2 Hnin2 Ht) as E.
  assert (Hm1 : h_channels (exec (Track.output t c2) h) !! c1 = Some ch1).
  { unfold exec. rewrite E. simpl. now rewrite list_lookup_insert_ne by congruence. }
  pose proof (output_listed _ t c1 ch1 Hm1 Hin1) as Eb.
  assert (Hb : exec (Track.output t c1) (exec (Track.output t c2) h) =
               exec (Track.output t c2) h).
  { unfold exec at 1. now rewrite Eb. }
  rewrite Hb. split; [reflexivity|]. split.
  { apply attach_eval. exists (Some true).
    unfold eval. now rewrite Eb. }
  unfold exec. rewrite E. unfold connections_of, tracks_of. simpl.
  rewrite list_lookup_insert_eq by (now apply lookup_lt_Some in Ht).
  rewrite list_lookup_insert_ne by congruence. rewrite H1.
  rewrite list_lookup_insert_eq by (now apply lookup_lt_Some in H2).
  repeat split.
Qed.

(** [input] on a source that is not a track: what the constructor of the
    track does decides. *)
Lemma input_raw_made h c ch x el els :
  sound h ->
  h_channels h !! c = Some ch ->
  (forall audioContext,
     Track.new x audioContext h =
       (Normal (length (h_tracks h)),
        with_tracks
          (h_tracks h ++
             [{| audioElement := el; sourceNode := {| outputs := [] |} |}])
          (with_elements els h))) ->
  Channel.input c (raw x) h =
    (Normal (length (h_tracks h)),
     with_channels
       (<[c := set_tracks (tracks ch ++ [length (h_tracks h)]) ch]>
          (h_channels h))
       (with_tracks
          (h_tracks h ++
             [{| audioElement := el; sourceNode := {| outputs := [c] |} |}])
          (with_elements els h))).
Proof.
  intros Hs Hc Hnew.
  assert (Hm : exists mx, h_mixers h !! mixer ch = Some mx).
  { apply lookup_lt_is_Some. now apply (sound_mixer h Hs c). }
  destruct Hm as [mx Hm].
  assert (Hfresh : length (h_tracks h) ∉ tracks ch).
  { intros Hin. pose proof (sound_tracks h Hs c ch _ Hc Hin). lia. }
  assert (E :
    (let* track := Track.new x (ctx mx) in
     Channel.addTrack c track;; ret track) h =
    (Normal (length (h_tracks h)),
     with_channels
       (<[c := set_tracks (tracks ch ++ [length (h_tracks h)]) ch]>
          (h_channels h))
       (with_tracks
          (h_tracks h ++
             [{| audioElement := el; sourceNode := {| outputs := [c] |} |}])
          (with_elements els h)))).
  { rewrite (bind_Normal _ _ _ _ _ (Hnew (ctx mx))).
    unfold Channel.addTrack. unfold bind at 1. unfold bind at 1.
    erewrite output_attach;
      [|simpl; exact Hc|exact Hfresh|simpl; apply lookup_snoc].
    unfold ret, with_channels, with_tracks, with_elements. simpl.
    now rewrite insert_snoc. }
  destruct x as [e|s]; simpl;
    rewrite (bind_Normal _ _ _ _ _ (deref_Some h_channels _ _ _ Hc));
    rewrite (bind_Normal _ _ _ _ _ (deref_Some h_mixers _ _ _ Hm));
    apply E.
Qed.

Lemma input_raw_refused h c ch x e :
  sound h ->
  h_channels h !! c = Some ch ->
  (forall audioContext, Track.new x audioContext h = (Throw e, h)) ->
  Channel.input c (raw x) h = (Throw e, h).
Proof.
  intros Hs Hc Hnew.
  assert (Hm : exists mx, h_mixers h !! mixer ch = Some mx).
  { apply lookup_lt_is_Some. now apply (sound_mixer h Hs c). }
  destruct Hm as [mx Hm].
  destruct x as [el|s]; simpl;
    rewrite (bind_Normal _ _ _ _ _ (deref_Some h_channels _ _ _ Hc));
    rewrite (bind_Normal _ _ _ _ _ (deref_Some h_mixers _ _ _ Hm));
    now rewrite (bind_Throw _ _ _ _ _ (Hnew (ctx mx))).
Qed.

(** [input] of a URL makes a new element and a new track at every call,
    also for the same URL: two calls append two tracks to the list of the
    channel, each on an element of its own, both connected to the channel,
    and leave the older tracks as they were.  [input] of an element makes a
    track for it once: the element then has its source node, and a second
    [input] of the same element is refused by [createMediaElementSource]
    with an InvalidStateError and changes nothing. *)
Theorem input_makes_a_track_each_time h c ch :
  reachable h ->
  h_channels h !! c = Some ch ->
  let t := length (h_tracks h) in
  (forall s s',
     let once := exec (Channel.input c (SrcString s)) h in
     let twice := exec (Channel.input c (SrcString s')) once in
     eval (Channel.input c (SrcString s)) h = Normal t /\
     eval (Channel.input c (SrcString s')) once = Normal (S t) /\
     tracks_of c twice = Some (tracks ch ++ [t; S t]) /\
     connections_of t twice = Some [c] /\
     connections_of (S t) twice = Some [c] /\
     audioElement <$> h_tracks twice !! t = Some (length (h_elements h)) /\
     audioElement <$> h_tracks twice !! S t =
       Some (S (length (h_elements h))) /\
     (forall t', t' < t -> h_tracks twice !! t' = h_tracks h !! t')) /\
  (forall el e,
     h_elements h !! el = Some e -> el_source e = false ->
     let once := exec (Channel.input c (SrcElement el)) h in
     eval (Channel.input c (SrcElement el)) h = Normal t /\
     tracks_of c once = Some (tracks ch ++ [t]) /\
     connections_of t once = Some [c] /\
     audioElement <$> h_tracks once !! t = Some el /\
     el_source <$> h_elements once !! el = Some true /\
     Channel.input c (SrcElement el) once = (Throw InvalidStateError, once)) /\
  (forall el e,
     h_elements h !! el = Some e -> el_source e = true ->
     Channel.input c (SrcElement el) h = (Throw InvalidStateError, h)).
Proof.
  intros Hr Hc. cbv zeta.
  pose proof (session_heap_is_sound h Hr) as Hs.
  assert (Hlc : c < length (h_channels h)) by now apply lookup_lt_Some in Hc.
  split; [|split].
  - intros s s'.
    pose proof (input_raw_made h c ch (inr s) _ _ Hs Hc
                  (fun ac => Track_new_string s ac h)) as E1.
    change (raw (inr s)) with (SrcString s) in E1.
    assert (Hs1 : sound (exec (Channel.input c (SrcString s)) h)).
    { apply (perform_sound (Input c (SrcString s)) h Hs). }
    unfold eval, exec in *. rewrite E1 in *. simpl in Hs1 |- *.
    match type of Hs1 with
    | sound ?h1 =>
        pose proof (input_raw_made h1 c _ (inr s') _ _ Hs1
                      (list_lookup_insert_eq _ _ _ Hlc)
                      (fun ac => Track_new_string s' ac h1)) as E2
    end.
    change (raw (inr s')) with (SrcString s') in E2.
    simpl in E2. rewrite E2. clear E1 E2 Hs1.
    simpl. unfold tracks_of, connections_of. simpl.
    rewrite list_insert_insert_eq.
    rewrite list_lookup_insert_eq by exact Hlc.
    rewrite !length_app. simpl. rewrite !Nat.add_1_r.
    assert (L1 : forall (x y : AudioTrack),
              (h_tracks h ++ [x]) ++ [y] = h_tracks h ++ [x; y])
      by (intros; now rewrite <- app_assoc).
    rewrite L1.
    assert (L2 : forall (x y : AudioTrack),
              (h_tracks h ++ [x; y]) !! length (h_tracks h) = Some x).
    { intros x y. rewrite lookup_app_r by lia.
      now rewrite Nat.sub_diag. }
    assert (L3 : forall (x y : AudioTrack),
              (h_tracks h ++ [x; y]) !! S (length (h_tracks h)) = Some y).
    { intros x y. rewrite lookup_app_r by lia.
      now replace (S (length (h_tracks h)) - length (h_tracks h)) with 1
        by lia. }
    rewrite L2, L3. simpl.
    repeat split.
    + now rewrite <- app_assoc.
    + intros t' Ht'. now rewrite lookup_app_l.
  - intros el e He Hsrc.
    pose proof (input_raw_made h c ch (inl el) _ _ Hs Hc
                  (fun ac => Track_new_element el e ac h He Hsrc)) as E1.
    change (raw (inl el)) with (SrcElement el) in E1.
    assert (Hs1 : sound (exec (Channel.input c (SrcElement el)) h)).
    { apply (perform_sound (Input c (SrcElement el)) h Hs). }
    assert (Hle : el < length (h_elements h))
      by now apply lookup_lt_Some in He.
    unfold eval, exec in *. rewrite E1 in *. simpl in Hs1 |- *.
    unfold tracks_of, connections_of. simpl.
    rewrite list_lookup_insert_eq by exact Hlc.
    rewrite list_lookup_insert_eq by exact Hle.
    rewrite lookup_snoc. simpl.
    repeat split.
    match type of Hs1 with
    | sound ?h1 =>
        apply (input_raw_refused h1 c _ (inl el) _ Hs1
                 (list_lookup_insert_eq _ _ _ Hlc))
    end.
    intros ac.
    apply (Track_new_captured el (set_el_source true e)); [|reflexivity].
    simpl. now apply list_lookup_insert_eq.
  - intros el e He Hsrc.
    apply (input_raw_refused h c ch (inl el) _ Hs Hc).
    intros ac. now apply (Track_new_captured el e).
Qed.

(** ** Promises *)

Lemma perform_promises a h :
  h_promises (perform a h) = h_promises h \/
  h_promises (perform a h) = h_promises h ++ [Pending] \/
  exists p, h_promises (perform a h) = alter (settle true) p (h_promises h).
Proof.
  pose proof (perform_calm a h) as Hcalm.
  destruct a; try (left; now destruct Hcalm as (_ & -> & _)).
  - right. left. unfold perform, exec. now rewrite fade_eq.
  - destruct (expiry_promises _ _ _ (turn_cases int h))
      as [E|(t & _ & _ & E & _)]; [now left|].
    right. right. eauto.
Qed.

(** The promises of the fades are pending or fulfilled with [true], never
    rejected; a fulfilled promise stays fulfilled whatever happens next, and
    a promise that appears starts pending. *)
Theorem promises_are_never_rejected h :
  reachable h ->
  (forall p s,
     h_promises h !! p = Some s -> s = Pending \/ s = Fulfilled true) /\
  (forall a p,
     h_promises h !! p = Some (Fulfilled true) ->
     h_promises (perform a h) !! p = Some (Fulfilled true)) /\
  (forall a p,
     h_promises h !! p = None ->
     h_promises (perform a h) !! p = None \/
     h_promises (perform a h) !! p = Some Pending).
Proof.
  intros Hr. split; [|split].
  - revert h Hr.
    apply (reachable_ind (fun h => forall p s,
             h_promises h !! p = Some s -> s = Pending \/ s = Fulfilled true)).
    + intros p s Hp. discriminate.
    + intros a h _ IH p s.
      destruct (perform_promises a h) as [-> | [-> | [p' ->]]].
      * apply IH.
      * intros Hp. apply lookup_app_Some in Hp as [Hp|[_ Hp]]; [now apply (IH p)|].
        apply list_lookup_singleton_Some in Hp as [_ <-]. now left.
      * rewrite list_lookup_alter. destruct (decide (p' = p)) as [->|_];
          [|apply IH].
        destruct (h_promises h !! p) as [s0|] eqn:E; [|simpl; intros [=]].
        simpl. intros Hs. injection Hs as Hs. subst s.
        destruct (IH p s0 E) as [E0 | E0]; rewrite E0; now right.
  - intros a p Hp.
    destruct (perform_promises a h) as [-> | [-> | [p' ->]]].
    + exact Hp.
    + now apply lookup_app_l_Some.
    + rewrite list_lookup_alter. destruct (decide (p' = p)) as [->|_]; [|exact Hp].
      now rewrite Hp.
  - intros a p Hp.
    destruct (perform_promises a h) as [-> | [-> | [p' ->]]].
    + now left.
    + apply lookup_ge_None in Hp.
      destruct (decide (p = length (h_promises h))) as [->|Hne].
      * right. apply lookup_snoc.
      * left. apply lookup_ge_None. rewrite length_app. simpl. lia.
    + left. rewrite list_lookup_alter. destruct (decide (p' = p)) as [->|_]; [|exact Hp].
      now rewrite Hp.
Qed.

(** ** How long a fade lasts *)

Lemma expiry_now int h h' t :
  expiry int h h' -> h_intervals h !! int = Some t -> cleared t = false ->
  h_now h' = Z.max (h_now h) (due t).
Proof.
  intros [[Hn|(t0 & Ht0 & Hcl0)]|t0 ch Hi Hcl Hc Hg|t0 ch q Hi Hcl Hc Hg Hq
         |t0 Hi Hcl Hf] Ht Hact; simpl; congruence.
Qed.

Lemma Qle_bool_false_iff (a b : Q) : Qle_bool a b = false <-> (b < a)%Q.
Proof.
  split; [apply Qle_bool_false|].
  intros H. destruct (Qle_bool a b) eqn:E; [|reflexivity].
  apply Qle_bool_iff in E. lra.
Qed.

Lemma Qeq_bool_comp (x y z : Q) :
  (x == y)%Q -> Qeq_bool x z = Qeq_bool y z.
Proof.
  intros E. destruct (Qeq_bool y z) eqn:Ey.
  - apply Qeq_bool_iff. apply Qeq_bool_iff in Ey. now rewrite E.
  - destruct (Qeq_bool x z) eqn:Ex; [|reflexivity].
    apply Qeq_bool_iff in Ex. rewrite E in Ex. apply Qeq_bool_iff in Ex.
    congruence.
Qed.

Lemma Qle_bool_comp (x y z : Q) :
  (x == y)%Q -> Qle_bool z x = Qle_bool z y.
Proof.
  intros E. destruct (Qle_bool z y) eqn:Ey.
  - apply Qle_bool_iff. apply Qle_bool_iff in Ey. now rewrite E.
  - destruct (Qle_bool z x) eqn:Ex; [|reflexivity].
    apply Qle_bool_iff in Ex. rewrite E in Ex. apply Qle_bool_iff in Ex.
    congruence.
Qed.

Lemma finite_comp (x y : Q) : (x == y)%Q -> finite x = finite y.
Proof.
  intros E. unfold finite.
  now rewrite (round_comp binary64 x y E), (Qle_bool_comp x y 0 E).
Qed.

Lemma vpc_of_comp (x y : Q) :
  (x == y)%Q -> Channel.vpc_of (Fin x) = Channel.vpc_of (Fin y).
Proof.
  intros E. unfold Channel.vpc_of, ndiv.
  rewrite (Qeq_bool_comp x y 0 E).
  destruct (Qeq_bool y 0); [reflexivity|].
  rewrite (finite_comp (2 / x) (2 / y)); [reflexivity|]. now rewrite E.
Qed.

(** The step of a fade of [20 * 2 ^ k] milliseconds is [2 ^ - k], with no
    rounding. *)
Lemma vpc_of_dyadic (k : nat) (x : Q) :
  k <= 24 -> (x == 20 * 2 ^ Z.of_nat k)%Q ->
  Channel.vpc_of (Fin x) = Fin (2 ^ (- Z.of_nat k)).
Proof.
  intros Hk E. rewrite (vpc_of_comp _ _ E). clear E.
  do 25 (destruct k as [|k]; [vm_compute; reflexivity|]). lia.
Qed.

(** The multiples of [2 ^ - k] from 0 to 1 are binary32 values, up to
    [k = 24]. *)
Lemma dyadic_is_float (m : Z) (k : nat) (x : Q) :
  k <= 24 -> (0 <= m <= 2 ^ Z.of_nat k)%Z ->
  (x == inject_Z m * 2 ^ (- Z.of_nat k))%Q -> is_float x = true.
Proof.
  intros Hk Hm E. apply is_float_iff.
  assert (H24 : (2 ^ Z.of_nat k <= 2 ^ 24)%Z)
    by (apply Z.pow_le_mono_r; lia).
  split.
  - rewrite (round_comp binary32 _ _ E), E.
    apply round_grid; simpl; [lia|lia|].
    rewrite Z.abs_eq by lia. lia.
  - rewrite (overflows_comp _ _ _ E). unfold overflows.
    apply Qle_bool_false_iff.
    assert (P : (2 ^ Z.of_nat k * 2 ^ (- Z.of_nat k) == 1)%Q).
    { rewrite <- pow2_add. now rewrite Z.add_opp_diag_r. }
    pose proof (pow2_pos (- Z.of_nat k)) as Hq.
    assert (Hm0 : (0 <= inject_Z m)%Q) by (apply inject_Z_nonneg; lia).
    assert (Hm1 : (inject_Z m <= 2 ^ Z.of_nat k)%Q).
    { rewrite pow2_Z by lia. rewrite <- Zle_Qle. lia. }
    assert (B : (0 <= inject_Z m * 2 ^ (- Z.of_nat k) <= 1)%Q) by nra.
    rewrite Qabs_pos by lra.
    pose proof (pow2_lt 0 128 ltac:(lia)) as H128.
    change (2 ^ 0)%Q with 1%Q in H128. simpl emax. lra.
Qed.

Lemma pow2_of_nat (k : nat) : Z.of_nat (2 ^ k) = (2 ^ Z.of_nat k)%Z.
Proof. apply (Nat2Z.inj_pow 2 k). Qed.

(** The gain [j] steps of [2 ^ - k] from the far end, towards the
    boundary: every tick is exact. *)
Lemma fade_progress d int c p (k : nat) h0 g0 t0 :
  let q := (2 ^ (- Z.of_nat k))%Q in
  fading d int c (Fin q) p h0 ->
  k <= 24 ->
  h_intervals h0 !! int = Some t0 -> cleared t0 = false ->
  due t0 = (h_now h0 + 2)%Z ->
  input_gain c h0 = Some g0 -> (g0 == far_end d)%Q ->
  forall j, j <= 2 ^ k ->
    let hj := run (repeat (Expire int) j) h0 in
    fading d int c (Fin q) p hj /\
    h_now hj = (h_now h0 + 2 * Z.of_nat j)%Z /\
    (exists t, h_intervals hj !! int = Some t /\ cleared t = false /\
               due t = (h_now h0 + 2 * Z.of_nat (S j))%Z) /\
    (exists g, input_gain c hj = Some g /\
       (g == match d with
             | Out => 1 - inject_Z (Z.of_nat j) * q
             | In => inject_Z (Z.of_nat j) * q
             end)%Q).
Proof.
  intros q F Hk Ht0 Hcl0 Hdue0 Hg0 Hfar j.
  assert (P : (2 ^ Z.of_nat k * q == 1)%Q).
  { unfold q. rewrite <- pow2_add. now rewrite Z.add_opp_diag_r. }
  assert (Hq : (0 < q)%Q) by apply pow2_pos.
  induction j as [|j IH]; intros Hj.
  - cbv zeta. simpl run. split; [exact F|]. split; [lia|].
    split; [exists t0; repeat split; [assumption..|lia]|].
    exists g0. split; [exact Hg0|].
    change (inject_Z (Z.of_nat 0)) with 0%Q. destruct d; simpl in *; lra.
  - cbv zeta. rewrite repeat_snoc, run_snoc.
    specialize (IH ltac:(lia)). cbv zeta in IH.
    set (hj := run (repeat (Expire int) j) h0) in *.
    destruct IH as (Fj & Hnow & (t & Ht & Hcl & Hdue) & (g & Hg & Eg)).
    assert (Hact : is_active int hj = true)
      by (unfold is_active; now rewrite Ht, Hcl).
    assert (HjZ : (0 <= Z.of_nat j + 1 <= 2 ^ Z.of_nat k)%Z).
    { split; [lia|]. rewrite <- pow2_of_nat. lia. }
    assert (Hj1 : (inject_Z (Z.of_nat j) + 1 <= 2 ^ Z.of_nat k)%Q).
    { rewrite pow2_Z by lia. change 1%Q with (inject_Z 1).
      rewrite <- inject_Z_plus, <- Zle_Qle. lia. }
    assert (Hj0 : (0 <= inject_Z (Z.of_nat j))%Q)
      by (apply inject_Z_nonneg; lia).
    assert (Hlt : (inject_Z (Z.of_nat j) * q + q <= 1)%Q) by nra.
    assert (Hr : reached d g = false).
    { destruct d; simpl; apply Qle_bool_false_iff; lra. }
    assert (Hfl : is_float (shifted d g q) = true).
    { apply (dyadic_is_float
               (match d with
                | Out => 2 ^ Z.of_nat k + - (Z.of_nat j + 1)
                | In => Z.of_nat j + 1
                end)%Z k); [exact Hk|destruct d; lia|].
      fold q. destruct d; simpl shifted; rewrite Eg.
      - rewrite inject_Z_plus, inject_Z_opp, inject_Z_plus.
        rewrite <- pow2_Z by lia. change (inject_Z 1) with 1%Q. lra.
      - rewrite inject_Z_plus. change (inject_Z 1) with 1%Q. lra. }
    destruct (stepped_exact d g q Hfl) as (g' & Eto & Eg').
    destruct (fading_tick _ _ _ _ _ _ _ Fj Hact Hg) as [Hg' Hact'].
    unfold next_gain in Hg'. rewrite Hr, Eto in Hg'. rewrite Hr in Hact'.
    simpl in Hg', Hact'.
    pose proof (turn_cases int hj) as E.
    split; [now apply fading_expire|]. split; [|split].
    + change (perform (Expire int) hj) with (turn int hj).
      rewrite (expiry_now _ _ _ _ E Ht Hcl), Hnow, Hdue. lia.
    + pose proof (expiry_due _ _ _ _ E Ht Hcl) as Hd.
      change (perform (Expire int) hj) with (turn int hj).
      unfold is_active in Hact'.
      destruct (h_intervals (turn int hj) !! int) as [t'|]; [|discriminate].
      exists t'. split; [reflexivity|].
      split; [now destruct (cleared t')|].
      simpl in Hd. injection Hd as ->.
      destruct Fj as [(t1 & Ht1 & _ & Hdel) _ _ _ _].
      replace t1 with t in Hdel by congruence. rewrite Hdel, Hdue. lia.
    + exists g'. split; [exact Hg'|].
      rewrite Eg'. rewrite Nat2Z.inj_succ, <- Z.add_1_r, inject_Z_plus.
      change (inject_Z 1) with 1%Q. destruct d; simpl shifted; lra.
Qed.

(** A fade over the whole range of the gain that runs alone, with a
    duration of [x = 20 * 2 ^ k] milliseconds for [k] up to 24, has the
    step [2 ^ - k], which no tick rounds: the gain is [j] steps from where
    it started after [j] expiries, the fade is pending through its first
    [N = 2 ^ k] expiries and resolves at the next one, with the gain on the
    boundary: [x / 10 + 2] milliseconds after its start, not [x]. *)
Theorem fade_lasts_a_tenth_of_its_duration (d : direction) h c ch ms x
    (k : nat) :
  settles_allocated h = true ->
  h_channels h !! c = Some ch ->
  (value (gain (inputNode ch)) == far_end d)%Q ->
  Channel.duration ms = Fin x ->
  (x == 20 * 2 ^ Z.of_nat k)%Q ->
  k <= 24 ->
  let N := 2 ^ k in
  let int := length (h_intervals h) in
  let p := length (h_promises h) in
  let start := exec (fade d c ms) h in
  let finish := run (repeat (Expire int) (S N)) start in
  Channel.vpc_of (Channel.duration ms) = Fin (2 ^ (- Z.of_nat k)) /\
  (forall j, j <= N ->
     h_promises (run (repeat (Expire int) j) start) !! p = Some Pending /\
     exists g,
       input_gain c (run (repeat (Expire int) j) start) = Some g /\
       (g == shifted d (far_end d)
               (inject_Z (Z.of_nat j) * 2 ^ (- Z.of_nat k)))%Q) /\
  h_promises finish !! p = Some (Fulfilled true) /\
  input_gain c finish = Some (boundary d) /\
  is_active int finish = false /\
  (inject_Z (h_now finish - h_now h) == x / 10 + 2)%Q.
Proof.
  intros Hwf Hc Hfar Hms Hx Hk. cbv zeta.
  assert (Hv : Channel.vpc_of (Channel.duration ms) =
               Fin (2 ^ (- Z.of_nat k))).
  { rewrite Hms. now apply vpc_of_dyadic. }
  set (q := (2 ^ (- Z.of_nat k))%Q) in *.
  assert (P : (2 ^ Z.of_nat k * q == 1)%Q).
  { unfold q. rewrite <- pow2_add. now rewrite Z.add_opp_diag_r. }
  assert (HN : (inject_Z (Z.of_nat (2 ^ k)) == 2 ^ Z.of_nat k)%Q).
  { rewrite pow2_Z by lia. now rewrite pow2_of_nat. }
  set (start := exec (fade d c ms) h).
  assert (F : fading d (length (h_intervals h)) c (Fin q)
                (length (h_promises h)) start).
  { rewrite <- Hv. apply fading_start; [exact Hwf|eauto]. }
  assert (Hstart : exists t0,
    h_intervals start !! length (h_intervals h) = Some t0 /\
    cleared t0 = false /\ due t0 = (h_now start + 2)%Z).
  { unfold start, exec. rewrite fade_eq. simpl. rewrite lookup_snoc.
    eexists. repeat split. }
  destruct Hstart as (t0 & Ht0 & Hcl0 & Hdue0).
  assert (Hg0 : input_gain c start = Some (value (gain (inputNode ch)))).
  { unfold start, exec, input_gain. rewrite fade_eq. simpl. now rewrite Hc. }
  assert (Hnow0 : h_now start = h_now h).
  { unfold start, exec. now rewrite fade_eq. }
  pose proof (fade_progress d _ c _ k start _ t0 F Hk Ht0 Hcl0 Hdue0 Hg0 Hfar)
    as Hprog.
  split; [exact Hv|]. split.
  - intros j Hj.
    destruct (Hprog j Hj) as (Fj & _ & (t & Ht & Hcl & _) & (g & Hg & Eg)).
    split.
    + apply (fading_pending _ _ _ _ _ _ Fj). unfold is_active.
      now rewrite Ht, Hcl.
    + exists g. split; [exact Hg|]. rewrite Eg. cbv zeta. fold q.
      destruct d; unfold shifted, far_end; lra.
  - destruct (Hprog (2 ^ k) (le_n _))
      as (Fk & Hnow & (t & Ht & Hcl & Hdue) & (g & Hg & Eg)).
    rewrite repeat_snoc, run_snoc.
    set (hN := run (repeat (Expire (length (h_intervals h))) (2 ^ k)) start)
      in *.
    change (perform (Expire (length (h_intervals h))) hN)
      with (turn (length (h_intervals h)) hN).
    assert (Hact : is_active (length (h_intervals h)) hN = true)
      by (unfold is_active; now rewrite Ht, Hcl).
    assert (Hr : reached d g = true).
    { assert (HNq : (inject_Z (Z.of_nat (2 ^ k)) * q == 1)%Q)
        by (rewrite HN; exact P).
      cbv zeta in Eg. fold q in Eg.
      destruct d; unfold reached; apply Qle_bool_iff; lra. }
    destruct (fading_ends _ _ _ _ _ _ _ Fk Hact Hg Hr) as (Hp & Hb & Hin).
    repeat split; try assumption.
    rewrite (expiry_now _ _ _ _ (turn_cases _ hN) Ht Hcl), Hnow, Hdue, Hnow0.
    replace (Z.max (h_now h + 2 * Z.of_nat (2 ^ k))
               (h_now h + 2 * Z.of_nat (S (2 ^ k))) - h_now h)%Z
      with (2 * Z.of_nat (2 ^ k) + 2)%Z by lia.
    rewrite inject_Z_plus, inject_Z_mult, HN, Hx.
    change (inject_Z 2) with 2%Q. field.
Qed.

(** ** Opposite fades *)

Lemma earliest_from_cleared old l i best :
  forallb cleared old = true ->
  earliest_from (old ++ l) i best = earliest_from l (i + length old) best.
Proof.
  revert i. induction old as [|t old IH]; intros i Hold; simpl.
  - now rewrite Nat.add_0_r.
  - simpl in Hold. apply andb_prop in Hold as [Ht Hold].
    rewrite Ht, IH by exact Hold. f_equal. lia.
Qed.

Lemma lookup_last_two {A} (old : list A) (x y : A) :
  (old ++ [x; y]) !! length old = Some x /\
  (old ++ [x; y]) !! S (length old) = Some y.
Proof.
  split.
  - now apply list_lookup_middle.
  - change (old ++ [x; y]) with (old ++ [x] ++ [y]). rewrite app_assoc.
    apply list_lookup_middle. rewrite length_app. simpl. lia.
Qed.

Lemma insert_last_two {A} (old : list A) (x y z : A) :
  <[length old := z]> (old ++ [x; y]) = old ++ [z; y] /\
  <[S (length old) := z]> (old ++ [x; y]) = old ++ [x; z].
Proof.
  split.
  - rewrite insert_app_r_alt, Nat.sub_diag by lia. reflexivity.
  - rewrite insert_app_r_alt by lia.
    now replace (S (length old) - length old) with 1 by lia.
Qed.

Lemma is_float_comp (x y : Q) : (x == y)%Q -> is_float x = is_float y.
Proof.
  intros E. unfold is_float.
  rewrite (round_comp binary32 x y E), (overflows_comp _ x y E).
  f_equal. destruct (Qeq_bool (round binary32 y) y) eqn:Ey.
  - apply Qeq_bool_iff. apply Qeq_bool_iff in Ey. now rewrite E.
  - destruct (Qeq_bool (round binary32 y) x) eqn:Ex; [|reflexivity].
    apply Qeq_bool_iff in Ex. rewrite E in Ex. apply Qeq_bool_iff in Ex.
    congruence.
Qed.

Lemma tug_out_tick old c q p g h :
  forallb cleared old = true ->
  tug old c q p g 0 h -> (0 < g)%Q -> is_float (g - q) = true ->
  tug old c q p (g - q) 2 (advance h).
Proof.
  intros Hold [(t0 & t1 & Hi & Hh0 & Hh1 & Hd0 & Hd1 & Hc0 & Hc1 & Hdue)
                 (g' & Hg & Eg) Hp0 Hp1] Hpos Hfl.
  assert (Hnext : next_interval h = Some (length old)).
  { unfold next_interval. rewrite Hi, earliest_from_cleared by exact Hold.
    simpl. rewrite Hc0, Hc1, Hdue, Z.add_0_r, Z.ltb_irrefl. reflexivity. }
  unfold advance. rewrite Hnext.
  destruct (lookup_last_two old t0 t1) as [L0 _]. rewrite <- Hi in L0.
  unfold input_gain in Hg. apply fmap_Some in Hg as (ch & Hc & ->).
  assert (Hr : reached Out (value (gain (inputNode ch))) = false).
  { simpl. destruct (Qle_bool (value (gain (inputNode ch))) 0) eqn:E;
      [|reflexivity]. apply Qle_bool_iff in E. lra. }
  destruct (stepped_exact Out (value (gain (inputNode ch))) q)
    as (g1 & Eto & Eg1).
  { rewrite <- Hfl. apply is_float_comp. simpl. now rewrite Eg. }
  unfold turn, exec. rewrite (fire_active _ _ _ L0 Hc0), Hh0.
  rewrite (run_callback_moved _ _ Out c ch (Fin q) p g1);
    [|exact Hc|exact Hr|exact Eto].
  split; simpl.
  - exists (rearm t0), t1. rewrite Hi.
    destruct (insert_last_two old t0 t1 (rearm t0)) as [-> _].
    simpl. repeat split; try assumption. lia.
  - unfold input_gain. simpl.
    rewrite list_lookup_insert_eq by (now apply lookup_lt_Some in Hc).
    eexists. split; [reflexivity|]. simpl. rewrite Eg1. simpl. lra.
  - exact Hp0.
  - exact Hp1.
Qed.

Lemma tug_in_tick old c q p g h :
  forallb cleared old = true ->
  tug old c q p (g - q) 2 h -> (g - q < 1)%Q -> is_float g = true ->
  tug old c q p g 0 (advance h).
Proof.
  intros Hold [(t0 & t1 & Hi & Hh0 & Hh1 & Hd0 & Hd1 & Hc0 & Hc1 & Hdue)
                 (g' & Hg & Eg) Hp0 Hp1] Hlow Hfl.
  assert (Hnext : next_interval h = Some (S (length old))).
  { unfold next_interval. rewrite Hi, earliest_from_cleared by exact Hold.
    simpl. rewrite Hc0, Hc1, Hdue.
    replace (due t1 <? due t1 + 2)%Z with true
      by (symmetry; apply Z.ltb_lt; lia).
    reflexivity. }
  unfold advance. rewrite Hnext.
  destruct (lookup_last_two old t0 t1) as [_ L1]. rewrite <- Hi in L1.
  unfold input_gain in Hg. apply fmap_Some in Hg as (ch & Hc & ->).
  assert (Hr : reached In (value (gain (inputNode ch))) = false).
  { simpl. destruct (Qle_bool 1 (value (gain (inputNode ch)))) eqn:E;
      [|reflexivity]. apply Qle_bool_iff in E. lra. }
  destruct (stepped_exact In (value (gain (inputNode ch))) q)
    as (g1 & Eto & Eg1).
  { rewrite <- Hfl. apply is_float_comp. simpl. rewrite Eg. lra. }
  unfold turn, exec. rewrite (fire_active _ _ _ L1 Hc1), Hh1.
  rewrite (run_callback_moved _ _ In c ch (Fin q) (S p) g1);
    [|exact Hc|exact Hr|exact Eto].
  split; simpl.
  - exists t0, (rearm t1). rewrite Hi.
    destruct (insert_last_two old t0 t1 (rearm t1)) as [_ ->].
    simpl. repeat split; try assumption. lia.
  - unfold input_gain. simpl.
    rewrite list_lookup_insert_eq by (now apply lookup_lt_Some in Hc).
    eexists. split; [reflexivity|]. simpl. rewrite Eg1. simpl. lra.
  - exact Hp0.
  - exact Hp1.
Qed.

Lemma tug_start h c ch ms q :
  h_channels h !! c = Some ch ->
  Channel.vpc_of (Channel.duration ms) = Fin q ->
  tug (h_intervals h) c q (length (h_promises h))
    (value (gain (inputNode ch))) 0
    (exec (fade In c ms) (exec (fade Out c ms) h)).
Proof.
  intros Hc Hq. unfold exec. rewrite !fade_eq. simpl. rewrite Hq.
  split; simpl.
  - do 2 eexists. split; [now rewrite <- app_assoc|].
    rewrite length_app, Nat.add_1_r. simpl. repeat split. lia.
  - unfold input_gain. simpl. rewrite Hc. eexists. split; [reflexivity|].
    simpl. reflexivity.
  - apply lookup_app_l_Some, lookup_snoc.
  - replace (S (length (h_promises h)))
      with (length (h_promises h ++ [Pending]))
      by (rewrite length_app; simpl; lia).
    apply lookup_snoc.
Qed.

Lemma tug_alternates old c q p g h :
  forallb cleared old = true ->
  (0 < g)%Q -> (g - q < 1)%Q ->
  is_float g = true -> is_float (g - q) = true ->
  tug old c q p g 0 h ->
  forall n,
    if Nat.even n then tug old c q p g 0 (Nat.iter n advance h)
    else tug old c q p (g - q) 2 (Nat.iter n advance h).
Proof.
  intros Hold Hpos Hlow Hfg Hfl T n. induction n as [|n IH]; [exact T|].
  rewrite Nat.even_succ, <- Nat.negb_even. simpl Nat.iter.
  destruct (Nat.even n); simpl.
  - now apply tug_out_tick.
  - now apply tug_in_tick.
Qed.

(** A fade-out followed at once by a fade-in of the same duration, on a
    channel whose gain [g] is positive with [g - step < 1], both [g] and
    [g - step] being binary32 values, and while no other interval is armed:
    the loop serves the two closures in turn, the gain alternates between
    [g - step] and [g], and neither promise is ever settled. *)
Theorem opposite_fades_never_resolve h c ch ms q :
  forallb cleared (h_intervals h) = true ->
  h_channels h !! c = Some ch ->
  Channel.vpc_of (Channel.duration ms) = Fin q ->
  (0 < value (gain (inputNode ch)))%Q ->
  (value (gain (inputNode ch)) - q < 1)%Q ->
  is_float (value (gain (inputNode ch))) = true ->
  is_float (value (gain (inputNode ch)) - q) = true ->
  let int := length (h_intervals h) in
  let p := length (h_promises h) in
  let start := exec (fade In c ms) (exec (fade Out c ms) h) in
  forall n,
    let hn := Nat.iter n advance start in
    h_promises hn !! p = Some Pending /\
    h_promises hn !! S p = Some Pending /\
    is_active int hn = true /\
    is_active (S int) hn = true /\
    exists g, input_gain c hn = Some g /\
      (g == if Nat.even n then value (gain (inputNode ch))
            else value (gain (inputNode ch)) - q)%Q.
Proof.
  intros Hold Hc Hq Hpos Hlow Hfg Hfl. cbv zeta. intros n.
  pose proof (tug_alternates _ _ _ _ _ _ Hold Hpos Hlow Hfg Hfl
                (tug_start h c ch ms q Hc Hq) n) as T.
  set (hn := Nat.iter n advance _) in *.
  assert (Hact : forall g lag, tug (h_intervals h) c q (length (h_promises h)) g lag hn ->
    is_active (length (h_intervals h)) hn = true /\
    is_active (S (length (h_intervals h))) hn = true).
  { intros g lag [(t0 & t1 & Hi & _ & _ & _ & _ & Hc0 & Hc1 & _) _ _ _].
    destruct (lookup_last_two (h_intervals h) t0 t1) as [L0 L1].
    unfold is_active. now rewrite Hi, L0, L1, Hc0, Hc1. }
  destruct (Nat.even n);
    destruct (Hact _ _ T) as [A0 A1];
    destruct T as [_ (g' & Hg & Eg) Hp0 Hp1]; repeat split; try assumption;
    now exists g'.
Qed.

(** ** Further instances on the sample sessions *)

Lemma input_gain_moves_at_expiries_only_witness :
  input_gain 0 (perform (Fade Out 0 (Num (Fin 32))) studio) = Some 1%Q.
Proof.
  assert (H1 : forall int, Fade Out 0 (Num (Fin 32)) <> Expire int)
    by (intros int; discriminate).
  assert (H2 : input_gain 0 studio = Some 1%Q) by (vm_compute; reflexivity).
  exact (input_gain_moves_at_expiries_only _ studio 0 1%Q H1 H2).
Defined.

Lemma fades_leave_settings_witness :
  let l := [Fade Out 0 (Num (Fin 32)); Expire 0; Expire 0] in
  eval (get_control Volume 0) (run l studio) =
    eval (get_control Volume 0) studio /\
  tracks_of 0 (run l studio) = tracks_of 0 studio.
Proof.
  intros l.
  assert (H1 : forallb fade_step l = true) by (vm_compute; reflexivity).
  destruct (fades_leave_settings l studio 0 H1) as (Hk & _ & Ht & _).
  exact (conj (Hk Volume) Ht).
Defined.

Lemma control_reads_back_witness :
  eval (get_control Pan 0) (exec (set_control Pan 0 (Fin 2)) studio) =
    Normal 1%Q.
Proof.
  assert (Ec : exists ch, h_channels studio !! 0 = Some ch)
    by (vm_compute; eexists; reflexivity).
  destruct Ec as (ch & Ec).
  assert (Ev : to_float (Fin 2) = Some 2%Q) by (vm_compute; reflexivity).
  assert (H1 : (1 <= 2)%Q) by (unfold Qle; simpl; lia).
  destruct (control_reads_back Pan studio 0 ch (Fin 2) Ec) as (_ & Hq & _).
  destruct (Hq 2%Q Ev) as (_ & _ & _ & _ & Hhi & _).
  exact (Hhi eq_refl H1).
Defined.

Lemma muted_reads_back_witness :
  eval (Channel.get_muted 0) (exec (Channel.set_muted 0 true) studio) =
    Normal true.
Proof.
  assert (Ec : exists ch, h_channels studio !! 0 = Some ch)
    by (vm_compute; eexists; reflexivity).
  destruct Ec as (ch & Ec).
  destruct (muted_reads_back studio 0 ch true Ec) as (Hg & _).
  exact Hg.
Defined.

Lemma mixer_volume_reads_back_witness :
  eval (Mixer.get_volume 0) (exec (Mixer.set_volume 0 (Fin (1 # 2))) studio) =
    Normal (1 # 2)%Q.
Proof.
  assert (Em : exists mx, h_mixers studio !! 0 = Some mx)
    by (vm_compute; eexists; reflexivity).
  destruct Em as (mx & Em).
  assert (Ev : to_float (Fin (1 # 2)) = Some (1 # 2)%Q)
    by (vm_compute; reflexivity).
  destruct (mixer_volume_reads_back studio 0 mx (Fin (1 # 2)) Em)
    as (_ & Hq & _).
  destruct (Hq (1 # 2)%Q Ev) as (_ & Hg & _).
  exact Hg.
Defined.

Lemma added_channel_found_unless_shadowed_witness :
  eval (Mixer.addChannel 0 (Some "drums")) doubled = Normal 3 /\
  eval (Mixer.getChannel 0 "drums")
    (exec (Mixer.addChannel 0 (Some "drums")) doubled) = Normal (Obj 0).
Proof.
  assert (Em : exists mx, h_mixers doubled !! 0 = Some mx)
    by (vm_compute; eexists; reflexivity).
  destruct Em as (mx & Em).
  destruct (added_channel_found_unless_shadowed doubled 0 mx (Some "drums")
              (session_heap_is_sound _ doubled_reachable) Em)
    as (Hn & _ & Hget).
  specialize (Hget "drums").
  assert (E : eval (Mixer.getChannel 0 "drums") doubled = Normal (Obj 0))
    by (vm_compute; reflexivity).
  rewrite E in Hget.
  vm_compute in Hn. exact (conj Hn Hget).
Defined.

Lemma default_ids_find_their_channels_witness :
  eval (Mixer.getChannel 0 "2") (run (repeat (AddChannel 0 None) 3) console) =
    Normal (Obj 2).
Proof.
  assert (Em : exists mx, h_mixers console !! 0 = Some mx /\ channels mx = [])
    by (vm_compute; eexists; split; reflexivity).
  destruct Em as (mx & Em & En).
  assert (Hi : 2 < 3) by lia.
  destruct (default_ids_find_their_channels console 0 mx 3 2 Em En Hi)
    as (_ & Hget).
  exact Hget.
Defined.

Lemma new_channel_defaults_witness :
  eval (get_control Volume 0) (exec (Mixer.addChannel 0 None) console) =
    Normal 1%Q /\
  input_gain 0 (exec (Mixer.addChannel 0 None) console) = Some 1%Q.
Proof.
  assert (Em : exists mx, h_mixers console !! 0 = Some mx)
    by (vm_compute; eexists; reflexivity).
  destruct Em as (mx & Em).
  destruct (new_channel_defaults console 0 mx None Em
              (exec (Mixer.addChannel 0 None) console) (or_introl eq_refl))
    as (_ & Hv & _ & _ & _ & _ & Hg & _).
  exact (conj Hv Hg).
Defined.

Lemma constructed_channel_is_not_listed_witness :
  id_of 2 (exec (Channel.new 0) studio) = Some "N/A" /\
  eval (Mixer.getChannel 0 "N/A") (exec (Channel.new 0) studio) = Normal Null.
Proof.
  assert (Em : exists mx, h_mixers studio !! 0 = Some mx)
    by (vm_compute; eexists; reflexivity).
  destruct Em as (mx & Em).
  destruct (constructed_channel_is_not_listed studio 0 mx
              (session_heap_is_sound _ studio_reachable) Em)
    as (_ & Hid & _ & _ & _ & Hget).
  specialize (Hget "N/A").
  assert (E : eval (Mixer.getChannel 0 "N/A") studio = Normal Null)
    by (vm_compute; reflexivity).
  rewrite E in Hget.
  exact (conj Hid Hget).
Defined.

Lemma track_lists_are_sound_witness :
  exists l, tracks_of 1 studio_moved = Some l /\ 0 ∈ l.
Proof.
  destruct (track_lists_are_sound studio_moved studio_moved_reachable)
    as (_ & Hport).
  assert (H1 : connections_of 0 studio_moved = Some [1])
    by (vm_compute; reflexivity).
  assert (H2 : 1 ∈ [1]) by apply list_elem_of_here.
  destruct (Hport 0 [1] 1 H1 H2) as (_ & Hl).
  exact Hl.
Defined.

Lemma mixer_lists_are_sound_witness :
  exists ch, h_channels studio !! 1 = Some ch /\
             is_Some (h_mixers studio !! mixer ch).
Proof.
  destruct (mixer_lists_are_sound studio studio_reachable) as (_ & Hmx).
  assert (Ec : exists ch, h_channels studio !! 1 = Some ch)
    by (vm_compute; eexists; reflexivity).
  destruct Ec as (ch & Ec).
  exists ch. exact (conj Ec (Hmx 1 ch Ec)).
Defined.


Lemma moved_track_does_not_come_back_witness :
  let away := exec (attach ViaAddTrack 1 0) studio in
  exec (attach ViaOutput 0 0) away = away /\
  connections_of 0 (exec (attach ViaOutput 0 0) away) = Some [1].
Proof.
  intros away.
  assert (E1 : exists ch, h_channels studio !! 0 = Some ch /\ tracks ch = [0])
    by (vm_compute; eexists; split; reflexivity).
  destruct E1 as (ch1 & E1 & T1).
  assert (E2 : exists ch, h_channels studio !! 1 = Some ch /\ tracks ch = [])
    by (vm_compute; eexists; split; reflexivity).
  destruct E2 as (ch2 & E2 & T2).
  assert (Et : exists tr, h_tracks studio !! 0 = Some tr)
    by (vm_compute; eexists; reflexivity).
  destruct Et as (tr & Et).
  assert (H1 : 0 ∈ tracks ch1) by (rewrite T1; apply list_elem_of_here).
  assert (H2 : 0 ∉ tracks ch2) by (rewrite T2; apply not_elem_of_nil).
  destruct (moved_track_does_not_come_back studio 0 0 1 ch1 ch2 tr
              ViaAddTrack ViaOutput E1 H1 E2 H2 Et) as (Hb & _ & Hc & _).
  exact (conj Hb Hc).
Defined.

Lemma input_makes_a_track_each_time_witness :
  let page := perform (NewAudio "voice.ogg") studio in
  let once := exec (Channel.input 1 (SrcElement 1)) page in
  eval (Channel.input 1 (SrcElement 1)) page = Normal 1 /\
  connections_of 1 once = Some [1] /\
  Channel.input 1 (SrcElement 1) once = (Throw InvalidStateError, once).
Proof.
  intros page once.
  assert (Hr : reachable page).
  { exists [NewMixer None; AddChannel 0 None; AddChannel 0 None;
            Input 0 (SrcString "song.mp3"); NewAudio "voice.ogg"].
    vm_compute. reflexivity. }
  assert (Ec : exists ch, h_channels page !! 1 = Some ch)
    by (vm_compute; eexists; reflexivity).
  destruct Ec as (ch & Ec).
  assert (Ee : exists e, h_elements page !! 1 = Some e /\ el_source e = false)
    by (vm_compute; eexists; split; reflexivity).
  destruct Ee as (e & Ee & Es).
  destruct (input_makes_a_track_each_time page 1 ch Hr Ec) as (_ & Hel & _).
  destruct (Hel 1 e Ee Es) as (Ht & _ & Hc & _ & _ & Hrefused).
  exact (conj Ht (conj Hc Hrefused)).
Defined.

Lemma promises_are_never_rejected_witness :
  let h := run [Fade Out 0 (Num (Fin 32)); Expire 0; Expire 0; Expire 0]
             studio in
  h_promises (perform (Fade In 0 Undefined) h) !! 0 = Some (Fulfilled true).
Proof.
  intros h.
  assert (Hr : reachable h).
  { exists [NewMixer None; AddChannel 0 None; AddChannel 0 None;
            Input 0 (SrcString "song.mp3");
            Fade Out 0 (Num (Fin 32)); Expire 0; Expire 0; Expire 0].
    vm_compute. reflexivity. }
  destruct (promises_are_never_rejected h Hr) as (_ & Hkeep & _).
  assert (H1 : h_promises h !! 0 = Some (Fulfilled true))
    by (vm_compute; reflexivity).
  exact (Hkeep (Fade In 0 Undefined) 0 H1).
Defined.

Lemma fade_lasts_a_tenth_of_its_duration_witness :
  let finish :=
    run (repeat (Expire 0) 3) (exec (fade Out 0 (Num (Fin 40))) studio) in
  h_promises finish !! 0 = Some (Fulfilled true) /\
  (inject_Z (h_now finish - h_now studio) == 40 / 10 + 2)%Q.
Proof.
  intros finish.
  assert (Hwf : settles_allocated studio = true) by (vm_compute; reflexivity).
  assert (Ec : exists ch, h_channels studio !! 0 = Some ch /\
                          value (gain (inputNode ch)) = 1%Q)
    by (vm_compute; eexists; split; reflexivity).
  destruct Ec as (ch & Ec & Eg).
  assert (H1 : (value (gain (inputNode ch)) == far_end Out)%Q)
    by (rewrite Eg; reflexivity).
  assert (H2 : Channel.duration (Num (Fin 40)) = Fin 40)
    by (vm_compute; reflexivity).
  assert (H3 : (40 == 20 * 2 ^ Z.of_nat 1)%Q)
    by (vm_compute; reflexivity).
  assert (H4 : 1 <= 24) by lia.
  destruct (fade_lasts_a_tenth_of_its_duration Out studio 0 ch (Num (Fin 40))
              40 1 Hwf Ec H1 H2 H3 H4) as (_ & _ & Hp & _ & _ & Hclock).
  exact (conj Hp Hclock).
Defined.

Lemma opposite_fades_never_resolve_witness :
  let start :=
    exec (fade In 0 (Num (Fin 32))) (exec (fade Out 0 (Num (Fin 32))) studio) in
  h_promises (Nat.iter 5 advance start) !! 0 = Some Pending /\
  h_promises (Nat.iter 5 advance start) !! 1 = Some Pending.
Proof.
  intros start.
  assert (H0 : forallb cleared (h_intervals studio) = true)
    by (vm_compute; reflexivity).
  assert (Ec : exists ch, h_channels studio !! 0 = Some ch /\
                          value (gain (inputNode ch)) = 1%Q)
    by (vm_compute; eexists; split; reflexivity).
  destruct Ec as (ch & Ec & Eg).
  assert (Ev : Channel.vpc_of (Channel.duration (Num (Fin 32))) = Fin (5 # 8))
    by (vm_compute; reflexivity).
  assert (H1 : (0 < value (gain (inputNode ch)))%Q)
    by (rewrite Eg; vm_compute; reflexivity).
  assert (H2 : (value (gain (inputNode ch)) - (5 # 8) < 1)%Q)
    by (rewrite Eg; vm_compute; reflexivity).
  assert (H3 : is_float (value (gain (inputNode ch))) = true)
    by (rewrite Eg; vm_compute; reflexivity).
  assert (H4 : is_float (value (gain (inputNode ch)) - (5 # 8)) = true)
    by (rewrite Eg; vm_compute; reflexivity).
  destruct (opposite_fades_never_resolve studio 0 ch (Num (Fin 32)) (5 # 8)
              H0 Ec Ev H1 H2 H3 H4 5) as (Hp0 & Hp1 & _).
  exact (conj Hp0 Hp1).
Defined.

(** ** Rounding at work *)

(** [fadeOut( 60 )] from gain 1: the step is the binary64 value of 1/3, the
    third tick leaves the gain just above 0, the fourth carries it below and
    the fifth ends the fade. *)
Lemma fade_out_of_sixty_ms_takes_five_expiries :
  let start := exec (fade Out 0 (Num (Fin 60))) studio in
  input_gain 0 (run (repeat (Expire 0) 3) start) =
    Some (11184811 # 1125899906842624)%Q /\
  input_gain 0 (run (repeat (Expire 0) 4) start) =
    Some (- 5592405 # 16777216)%Q /\
  h_promises (run (repeat (Expire 0) 4) start) !! 0 = Some Pending /\
  h_promises (run (repeat (Expire 0) 5) start) !! 0 = Some (Fulfilled true).
Proof. vm_compute. repeat split. Qed.

(** [fadeOut( )] with the default of 2000 ms from gain 1 ends at its 102nd
    expiry. *)
Lemma default_fade_out_takes_102_expiries :
  let start := exec (fade Out 0 Undefined) studio in
  input_gain 0 (run (repeat (Expire 0) 101) start) =
    Some (- 5368355 # 536870912)%Q /\
  h_promises (run (repeat (Expire 0) 101) start) !! 0 = Some Pending /\
  h_promises (run (repeat (Expire 0) 102) start) !! 0 = Some (Fulfilled true).
Proof. vm_compute. repeat split. Qed.

(** A step under half the spacing of binary32 at the gain does not move
    it: a tick of [fadeOut( 1e9 )] leaves the gain at 1. *)
Lemma slow_fade_out_stays_put :
  let start := exec (fade Out 0 (Num (Fin 1000000000))) studio in
  to_float (stepped Out 1 (Channel.vpc_of (Fin 1000000000))) = Some 1%Q /\
  input_gain 0 (turn 0 start) = Some 1%Q /\
  is_active 0 (turn 0 start) = true.
Proof. vm_compute. repeat split. Qed.
